(** * PrintPal: the scene graph, event routing and tweening core

    A shallow embedding of [printpal/core/ui_component.py],
    [printpal/core/ui_screen.py], [printpal/core/ui_manager.py] and
    [printpal/core/events.py], and the properties the specification states
    about them.

    Conventions.
    - Python objects live in a heap indexed by references; a reference
      always denotes an object, so the heap is a total function.
    - Python [int] is [Z]; Python [float] is the binary64 type [float] of
      the Standard Library, with the same rounding as the interpreter.
    - A method that can raise returns an [outcome]; methods that change
      objects are state transformers. *)

From Stdlib Require Import ZArith Floats Lia.
From stdpp Require Import base tactics option list functions sorting gmap strings.

Local Open Scope Z_scope.

(** ** Geometry: [UIRect] *)

Module UIRect.

Record t := mk { x : Z; y : Z; width : Z; height : Z }.

Definition right (self : t) : Z := x self + width self.

Definition bottom (self : t) : Z := y self + height self.

Definition center (self : t) : Z * Z :=
  (x self + width self `div` 2, y self + height self `div` 2).

(** [self.x <= x <= self.right and self.y <= y <= self.bottom] *)
Definition contains (self : t) (px py : Z) : bool :=
  (x self <=? px) && (px <=? right self) &&
  ((y self <=? py) && (py <=? bottom self)).

Definition inflate (self : t) (dx dy : Z) : t :=
  mk (x self - dx) (y self - dy) (width self + dx * 2) (height self + dy * 2).

End UIRect.

(** ** Event kinds *)

(** [printpal/core/events.py]: the enumeration the manager works with. *)
Inductive UIEvent :=
  | CLICK | LONG_PRESS | ROTATE_CW | ROTATE_CCW | FOCUS | BLUR
  | VALUE_CHANGE | ANIMATION_FRAME | SCREEN_ENTER | SCREEN_EXIT
  | KEY_PRESS | KEY_RELEASE.

(** A handler table is a dictionary keyed by whatever the caller passes to
    [on] and [emit]: a member of [UIEvent], or a plain string as the demos
    and [main.py] do.  A member and a string never compare equal. *)
Inductive event_key :=
  | Member (e : UIEvent)
  | Str (s : string).

Global Instance UIEvent_eq_dec : EqDecision UIEvent.
Proof. solve_decision. Defined.

Global Instance event_key_eq_dec : EqDecision event_key.
Proof. solve_decision. Defined.

Definition UIEvent_code (e : UIEvent) : nat :=
  match e with
  | CLICK => 0 | LONG_PRESS => 1 | ROTATE_CW => 2 | ROTATE_CCW => 3
  | FOCUS => 4 | BLUR => 5 | VALUE_CHANGE => 6 | ANIMATION_FRAME => 7
  | SCREEN_ENTER => 8 | SCREEN_EXIT => 9 | KEY_PRESS => 10 | KEY_RELEASE => 11
  end%nat.

Definition UIEvent_of_code (n : nat) : UIEvent :=
  match n with
  | 0 => CLICK | 1 => LONG_PRESS | 2 => ROTATE_CW | 3 => ROTATE_CCW
  | 4 => FOCUS | 5 => BLUR | 6 => VALUE_CHANGE | 7 => ANIMATION_FRAME
  | 8 => SCREEN_ENTER | 9 => SCREEN_EXIT | 10 => KEY_PRESS | _ => KEY_RELEASE
  end%nat.

Global Instance UIEvent_countable : Countable UIEvent.
Proof.
  apply (inj_countable' UIEvent_code UIEvent_of_code).
  intros []; reflexivity.
Defined.

Global Instance event_key_countable : Countable event_key.
Proof.
  apply (inj_countable'
           (fun k => match k with Member e => inl e | Str s => inr s end)
           (fun c => match c with inl e => Member e | inr s => Str s end)).
  intros []; reflexivity.
Defined.

(** ** Exceptions and results *)

Inductive exn_class :=
  | RecursionError | ZeroDivisionError | TypeError | OverflowError
  | AttributeError | RuntimeError
  | SystemExit | KeyboardInterrupt | GeneratorExit
  (** No class of Python's: the mark of a run that this development stops
      following, because a loop is still going when the budget granted to
      it is used up, or because a step depends on a value that the typed
      fields cannot hold.  No [except] clause catches it. *)
  | Unfollowed.

(** [issubclass(c, Exception)]: the last three derive from [BaseException]
    only, and an [except Exception] clause lets them through. *)
Definition derives_from_Exception (c : exn_class) : bool :=
  match c with
  | SystemExit | KeyboardInterrupt | GeneratorExit => false
  | Unfollowed => false
  | _ => true
  end.

Record exn := mk_exn { exn_type : exn_class; exn_str : string }.

Definition unfollowed : exn := mk_exn Unfollowed "not followed any further".

Inductive outcome (A : Type) :=
  | Returned (a : A)
  | Raised (e : exn).
Arguments Returned {A} a.
Arguments Raised {A} e.

Definition outcome_bind {A B} (o : outcome A) (k : A -> outcome B) : outcome B :=
  match o with
  | Returned a => k a
  | Raised e => Raised e
  end.

Global Instance outcome_ret : MRet outcome := @Returned.

Global Instance outcome_mbind : MBind outcome := fun A B k o => outcome_bind o k.

(** ** Python values held by animated attributes *)

#[warnings="-register-all"]
Inductive pyval :=
  | PNone
  | PInt (z : Z)
  | PFloat (f : float)
  | PTuple (items : list pyval)
  | PStr (s : string).

(** [float(z)] for an [int]: round to nearest even, [OverflowError] when the
    result does not fit. *)
Definition float_of_Z (z : Z) : outcome float :=
  let f := SF2Prim (binary_normalize prec emax z 0 false) in
  if PrimFloat.is_infinity f
  then Raised (mk_exn OverflowError "int too large to convert to float")
  else Returned f.

Definition unsupported_operand : exn :=
  mk_exn TypeError "unsupported operand type(s)".

(** Binary arithmetic on numbers; any other operand is a [TypeError].  (For
    [+], sequences never reach this point: the subtraction before it has
    already rejected them.) *)
Definition py_arith (opZ : Z -> Z -> Z) (opF : float -> float -> float)
    (a b : pyval) : outcome pyval :=
  match a, b with
  | PInt m, PInt n => Returned (PInt (opZ m n))
  | PInt m, PFloat g =>
      outcome_bind (float_of_Z m) (fun f => Returned (PFloat (opF f g)))
  | PFloat f, PInt n =>
      outcome_bind (float_of_Z n) (fun g => Returned (PFloat (opF f g)))
  | PFloat f, PFloat g => Returned (PFloat (opF f g))
  | _, _ => Raised unsupported_operand
  end.

Definition py_add : pyval -> pyval -> outcome pyval := py_arith Z.add PrimFloat.add.
Definition py_sub : pyval -> pyval -> outcome pyval := py_arith Z.sub PrimFloat.sub.
Definition py_mul : pyval -> pyval -> outcome pyval := py_arith Z.mul PrimFloat.mul.

(** [a / b] with a float on the left. *)
Definition py_truediv (a : float) (b : pyval) : outcome float :=
  let division_by_zero := Raised (mk_exn ZeroDivisionError "float division by zero") in
  match b with
  | PInt n =>
      if (n =? 0)%Z then division_by_zero
      else outcome_bind (float_of_Z n) (fun g => Returned (a / g)%float)
  | PFloat g =>
      if (g =? 0)%float then division_by_zero else Returned (a / g)%float
  | _ => Raised unsupported_operand
  end.

(** [min(1.0, q)]: the second argument wins only when it is smaller. *)
Definition min_one (q : float) : float :=
  if (q <? 1)%float then q else 1%float.

(** [isinstance(v, (int, float))] and [isinstance(v, tuple)] *)
Definition is_number (v : pyval) : bool :=
  match v with PInt _ | PFloat _ => true | _ => false end.

Definition is_tuple (v : pyval) : bool :=
  match v with PTuple _ => true | _ => false end.

(** [x % 1.0] on floats: C's [fmod], then moved to the sign of the divisor;
    a zero result is [+0.0]. *)
Definition float_mod_one (v : float) : float :=
  match Prim2SF v with
  | S754_zero _ => 0%float
  | S754_infinity _ | S754_nan => nan
  | S754_finite s m e =>
      if (0 <=? e)%Z then 0%float
      else
        let r := Z.pos m `mod` 2 ^ (- e) in
        if (r =? 0)%Z then 0%float
        else if s
        then (SF2Prim (binary_normalize prec emax (- r) e false) + 1)%float
        else SF2Prim (binary_normalize prec emax r e false)
  end.

(** [v % 1.0]; only numbers get this far, the [+] before it having
    rejected everything else. *)
Definition py_mod_one (v : pyval) : outcome pyval :=
  match v with
  | PInt n => outcome_bind (float_of_Z n) (fun f => Returned (PFloat (float_mod_one f)))
  | PFloat f => Returned (PFloat (float_mod_one f))
  | _ => Raised unsupported_operand
  end.

(** [bool(v)], as [if v] and [not v] take it. *)
Definition truthy (v : pyval) : bool :=
  match v with
  | PNone => false
  | PInt z => negb (z =? 0)%Z
  | PFloat f => negb (f =? 0)%float
  | PTuple items => match items with [] => false | _ :: _ => true end
  | PStr s => match s with EmptyString => false | String _ _ => true end
  end.

(** [True] and [False] are the integers 1 and 0 for everything done here:
    [isinstance(b, int)] holds, and arithmetic and truth are those of the
    integer. *)
Definition of_bool (b : bool) : pyval := PInt (Z.b2z b).

(** ** Objects *)

(** Identity of a [UIComponent], of a [UIScreen], and of a callable. *)
Definition ref := nat.
Definition screen_ref := nat.
Definition handler := nat.

(** One entry of [self.animations]: the dictionary built by [animate]. *)
Record animation := mk_animation {
  anim_from : pyval;
  anim_to : pyval;
  anim_duration : pyval;
  anim_start_time : float;
  anim_easing : float -> float
}.

Record UIComponent := mk_component {
  rect : UIRect.t;
  component_id : string;
  visible : bool;
  enabled : bool;
  z_index : Z;
  parent : option ref;
  children : list ref;
  event_handlers : gmap event_key (list handler);
  tags : list string;
  (** insertion-ordered, as a Python dictionary iterates *)
  animations : list (string * animation);
  animation_progress : float;
  (** the further instance attributes, those a subclass or a caller has
      given the object (a widget's value, opacity, colour, ...), which
      [animate] and [_update_animations] reach by name with [getattr] and
      [setattr] as they do the fields [id], [visible], [enabled],
      [z_index] and [animation_progress] above *)
  attrs : gmap string pyval
}.

Definition set_component_id (i : string) (c : UIComponent) : UIComponent :=
  mk_component (rect c) i (visible c) (enabled c) (z_index c)
    (parent c) (children c) (event_handlers c) (tags c) (animations c)
    (animation_progress c) (attrs c).

Definition set_visible (b : bool) (c : UIComponent) : UIComponent :=
  mk_component (rect c) (component_id c) b (enabled c) (z_index c)
    (parent c) (children c) (event_handlers c) (tags c) (animations c)
    (animation_progress c) (attrs c).

Definition set_enabled (b : bool) (c : UIComponent) : UIComponent :=
  mk_component (rect c) (component_id c) (visible c) b (z_index c)
    (parent c) (children c) (event_handlers c) (tags c) (animations c)
    (animation_progress c) (attrs c).

Definition set_z_index (z : Z) (c : UIComponent) : UIComponent :=
  mk_component (rect c) (component_id c) (visible c) (enabled c) z
    (parent c) (children c) (event_handlers c) (tags c) (animations c)
    (animation_progress c) (attrs c).

Definition set_parent (p : option ref) (c : UIComponent) : UIComponent :=
  mk_component (rect c) (component_id c) (visible c) (enabled c) (z_index c)
    p (children c) (event_handlers c) (tags c) (animations c)
    (animation_progress c) (attrs c).

Definition set_children (l : list ref) (c : UIComponent) : UIComponent :=
  mk_component (rect c) (component_id c) (visible c) (enabled c) (z_index c)
    (parent c) l (event_handlers c) (tags c) (animations c)
    (animation_progress c) (attrs c).

Definition set_event_handlers (t : gmap event_key (list handler))
    (c : UIComponent) : UIComponent :=
  mk_component (rect c) (component_id c) (visible c) (enabled c) (z_index c)
    (parent c) (children c) t (tags c) (animations c)
    (animation_progress c) (attrs c).

Definition set_animations (a : list (string * animation))
    (c : UIComponent) : UIComponent :=
  mk_component (rect c) (component_id c) (visible c) (enabled c) (z_index c)
    (parent c) (children c) (event_handlers c) (tags c) a
    (animation_progress c) (attrs c).

Definition set_animation_progress (f : float) (c : UIComponent) : UIComponent :=
  mk_component (rect c) (component_id c) (visible c) (enabled c) (z_index c)
    (parent c) (children c) (event_handlers c) (tags c) (animations c)
    f (attrs c).

Definition set_attrs (a : gmap string pyval) (c : UIComponent) : UIComponent :=
  mk_component (rect c) (component_id c) (visible c) (enabled c) (z_index c)
    (parent c) (children c) (event_handlers c) (tags c) (animations c)
    (animation_progress c) a.

(** [UIComponent(rect, **kwargs)] with the keyword arguments spelled out. *)
Definition new_component (r : UIRect.t) (ident : string)
    (vis en : bool) (z : Z) : UIComponent :=
  mk_component r ident vis en z None [] ∅ [] [] 0%float ∅.

Record UIScreen := mk_screen {
  name : string;
  width : Z;
  height : Z;
  root : ref;
  initialized : bool;
  is_active : bool
}.

Definition set_is_active (b : bool) (s : UIScreen) : UIScreen :=
  mk_screen (name s) (width s) (height s) (root s) (initialized s) b.

Record UIManager := mk_manager {
  display_width : Z;
  display_height : Z;
  screens : gmap string screen_ref;
  current_screen : option screen_ref;
  previous_screen : option screen_ref;
  focused_component : option ref;
  animation_running : bool;
  last_update_time : float;
  fps : Z
}.

Definition set_screens (t : gmap string screen_ref) (m : UIManager) : UIManager :=
  mk_manager (display_width m) (display_height m) t (current_screen m)
    (previous_screen m) (focused_component m) (animation_running m)
    (last_update_time m) (fps m).

Definition set_current_screen (s : option screen_ref) (m : UIManager) : UIManager :=
  mk_manager (display_width m) (display_height m) (screens m) s
    (previous_screen m) (focused_component m) (animation_running m)
    (last_update_time m) (fps m).

Definition set_previous_screen (s : option screen_ref) (m : UIManager) : UIManager :=
  mk_manager (display_width m) (display_height m) (screens m) (current_screen m)
    s (focused_component m) (animation_running m)
    (last_update_time m) (fps m).

Definition set_focused_component (c : option ref) (m : UIManager) : UIManager :=
  mk_manager (display_width m) (display_height m) (screens m) (current_screen m)
    (previous_screen m) c (animation_running m)
    (last_update_time m) (fps m).

(** ** Program state *)

Record State := mk_state {
  heap : ref -> UIComponent;
  screen_heap : screen_ref -> UIScreen;
  manager : UIManager;
  (** lines written by [print] *)
  stdout : list string;
  (** how many times [time.time()] has been read *)
  clock_reads : nat;
  (** for a node and the name of one of its typed fields ([visible],
      [enabled], [z_index], [animation_progress], [id]): the value that
      attribute holds when [setattr] has given it one that is not of the
      field's type (a float z-index half way through a tween, say).  A
      flag's field then still holds the truth of that value, which is all
      the engine asks of a flag; the other fields are out of date for as
      long as the entry is there, and what depends on them looks here
      first ([getattr], the hit test of [handle_input]) *)
  untyped : gmap (ref * string) pyval
}.

Definition set_heap (h : ref -> UIComponent) (s : State) : State :=
  mk_state h (screen_heap s) (manager s) (stdout s) (clock_reads s) (untyped s).

Definition set_screen_heap (h : screen_ref -> UIScreen) (s : State) : State :=
  mk_state (heap s) h (manager s) (stdout s) (clock_reads s) (untyped s).

Definition set_manager (m : UIManager) (s : State) : State :=
  mk_state (heap s) (screen_heap s) m (stdout s) (clock_reads s) (untyped s).

Definition set_stdout (o : list string) (s : State) : State :=
  mk_state (heap s) (screen_heap s) (manager s) o (clock_reads s) (untyped s).

Definition set_clock_reads (n : nat) (s : State) : State :=
  mk_state (heap s) (screen_heap s) (manager s) (stdout s) n (untyped s).

Definition set_untyped (u : gmap (ref * string) pyval) (s : State) : State :=
  mk_state (heap s) (screen_heap s) (manager s) (stdout s) (clock_reads s) u.

(** [*args, **kwargs] *)
Record arguments := mk_arguments {
  args : list pyval;
  kwargs : list (string * pyval)
}.

Definition no_arguments : arguments := mk_arguments [] [].

(** The calls the engine makes on nodes and screens, in the order it makes
    them.  This record is an observer's log: no part of the program reads
    it, and callbacks cannot alter it. *)
Inductive call :=
  | CallEmit (node : ref) (event : event_key)
  | CallHandler (h : handler) (a : arguments)
  | CallHandleEvent (screen : screen_ref) (event : event_key)
  | CallOnEnter (screen : screen_ref)
  | CallOnExit (screen : screen_ref).

Record World := mk_world {
  st : State;
  trace : list call
}.

(** What the engine calls but does not define: the registered handlers,
    the [handle_event] a screen subclass provides, the wall clock, and the
    interpreter's recursion limit; and the one bound that is this
    development's own. *)
Class Environment := {
  call_handler : handler -> arguments -> State -> State * outcome unit;
  screen_handle_event :
    screen_ref -> event_key -> arguments -> State -> State * outcome unit;
  time_time : nat -> float;
  recursion_limit : nat;
  (** how many handler calls of one [emit] are followed; Python sets no
      bound, and an [emit] whose handlers keep registering handlers goes
      on for ever *)
  iteration_budget : nat
}.

(** ** State and exception monad *)

Definition M (A : Type) : Type := World -> World * outcome A.

Global Instance M_ret : MRet M := fun A a w => (w, Returned a).

Global Instance M_bind : MBind M := fun A B k m w =>
  match m w with
  | (w', Returned a) => k a w'
  | (w', Raised e) => (w', Raised e)
  end.

Definition raise {A} (e : exn) : M A := fun w => (w, Raised e).

(** The result of a computation that does not touch the state, and of one
    that only reads it. *)
Definition lift {A} (o : outcome A) : M A := fun w => (w, o).

Definition reads {A} (f : State -> outcome A) : M A := fun w => (w, f (st w)).

Definition gets {A} (f : State -> A) : M A := fun w => (w, Returned (f (st w))).

Definition modify (f : State -> State) : M unit :=
  fun w => (mk_world (f (st w)) (trace w), Returned tt).

Definition log_call (c : call) : M unit :=
  fun w => (mk_world (st w) (trace w ++ [c]), Returned tt).

(** Run code the engine does not define; it sees the state only. *)
Definition external (f : State -> State * outcome unit) : M unit :=
  fun w => let '(s, r) := f (st w) in (mk_world s (trace w), r).

Definition print (line : string) : M unit :=
  modify (fun s => set_stdout (stdout s ++ [line]) s).

(** [for x in l: body(x)] for a list that the body leaves as it is: the
    list of finished names in [_update_animations], and the child sequence
    in [update], which no step of [update] changes. *)
Fixpoint for_each {A} (l : list A) (body : A -> M unit) : M unit :=
  match l with
  | [] => mret tt
  | a :: l' => body a ≫= fun _ => for_each l' body
  end.

(** [try: body  except Exception as e: handle(e)] *)
Definition try_except_Exception (body : M unit) (handle : exn -> M unit) : M unit :=
  fun w =>
    match body w with
    | (w', Returned a) => (w', Returned a)
    | (w', Raised e) =>
        if derives_from_Exception (exn_type e) then handle e w'
        else (w', Raised e)
    end.

(** ** [UIComponent]: the tree *)

Definition add_child (self child : ref) (h : ref -> UIComponent)
    : ref -> UIComponent :=
  let h1 := alter (set_parent (Some self)) child h in
  alter (fun c => set_children (children c ++ [child]) c) self h1.

(** [list.remove(x)]: drops the first occurrence. *)
Fixpoint list_remove_first (x : ref) (l : list ref) : list ref :=
  match l with
  | [] => []
  | a :: l' => if decide (a = x) then l' else a :: list_remove_first x l'
  end.

Definition remove_child (self child : ref) (h : ref -> UIComponent)
    : ref -> UIComponent :=
  if bool_decide (child ∈ children (h self)) then
    let h1 := alter (set_parent None) child h in
    alter (fun c => set_children (list_remove_first child (children c)) c) self h1
  else h.

Definition on (self : ref) (event : event_key) (hd : handler)
    (h : ref -> UIComponent) : ref -> UIComponent :=
  alter (fun c =>
           set_event_handlers
             (<[event := default [] (event_handlers c !! event) ++ [hd]]>
                (event_handlers c)) c)
        self h.

(** ** [UIComponent.hit_test] *)

(** [sorted(l, key=...)]: the sort is stable, so an element goes in front
    of the elements already placed whose key is not smaller. *)
Fixpoint insert_by_key (key : ref -> Z) (c : ref) (l : list ref) : list ref :=
  match l with
  | [] => [c]
  | d :: l' =>
      if (key c <=? key d)%Z then c :: l else d :: insert_by_key key c l'
  end.

Definition sorted_by_key (key : ref -> Z) (l : list ref) : list ref :=
  foldr (insert_by_key key) [] l.

Definition recursion_error : exn :=
  mk_exn RecursionError "maximum recursion depth exceeded".

(** The loop of [hit_test]: the first child whose own test gives a node
    decides; with no such child the node itself is the answer. *)
Fixpoint first_hit (probe : ref -> outcome (option ref)) (self : ref)
    (cs : list ref) : outcome (option ref) :=
  match cs with
  | [] => Returned (Some self)
  | child :: cs' =>
      match probe child with
      | Returned (Some result) => Returned (Some result)
      | Returned None => first_hit probe self cs'
      | Raised e => Raised e
      end
  end.

(** [depth] is the number of nested calls the interpreter still allows. *)
Fixpoint hit_test (depth : nat) (h : ref -> UIComponent) (self : ref)
    (px py : Z) : outcome (option ref) :=
  match depth with
  | O => Raised recursion_error
  | S d =>
      if negb (visible (h self)) || negb (enabled (h self)) then Returned None
      else if UIRect.contains (rect (h self)) px py then
        first_hit (fun child => hit_test d h child px py) self
          (rev (sorted_by_key (fun c => z_index (h c)) (children (h self))))
      else Returned None
  end.

(** ** Dictionaries that keep insertion order *)

Fixpoint dict_set {V} (k : string) (v : V) (d : list (string * V))
    : list (string * V) :=
  match d with
  | [] => [(k, v)]
  | (k', v') :: d' =>
      if decide (k' = k) then (k, v) :: d' else (k', v') :: dict_set k v d'
  end.

Definition dict_del {V} (k : string) (d : list (string * V)) : list (string * V) :=
  filter (fun kv => kv.1 ≠ k) d.

(** ** [UIComponent]: events, animation, update *)

(** [from_val + (to_val - from_val) * easing] *)
Definition interpolate (from_val to_val : pyval) (easing : float) : outcome pyval :=
  d ← py_sub to_val from_val;
  m ← py_mul d (PFloat easing);
  py_add from_val m.

(** [tuple(f + (t - f) * easing for f, t in zip(from_val, to_val))] *)
Fixpoint interpolate_items (from_val to_val : list pyval) (easing : float)
    : outcome (list pyval) :=
  match from_val, to_val with
  | f :: fs, t :: ts =>
      v ← interpolate f t easing;
      vs ← interpolate_items fs ts easing;
      mret (v :: vs)
  | _, _ => mret []
  end.

Definition alter_node (f : UIComponent -> UIComponent) (self : ref) : M unit :=
  modify (fun s => set_heap (alter f self (heap s)) s).

(** *** Attributes by name *)

(** The names under which a [UIComponent] holds an object or a method.
    What [getattr] and [setattr] do with one of them, or with one of the
    interpreter's own names ([__class__], [__dict__], ...), is not
    followed. *)
Definition object_attributes : list string :=
  ["rect"; "parent"; "children"; "event_handlers"; "styles"; "tags"; "animations";
   "add_child"; "remove_child"; "on"; "emit"; "update"; "render"; "_render_self";
   "_update_animations"; "animate"; "hit_test"; "find_by_id"; "find_by_tag"].

Definition followed_name (name : string) : bool :=
  bool_decide (name ∉ object_attributes) && negb (String.prefix "__" name).

(** The fields that hold a plain value. *)
Inductive field :=
  | FieldId | FieldVisible | FieldEnabled | FieldZIndex | FieldAnimationProgress.

Definition field_named (name : string) : option field :=
  if decide (name = "id") then Some FieldId
  else if decide (name = "visible") then Some FieldVisible
  else if decide (name = "enabled") then Some FieldEnabled
  else if decide (name = "z_index") then Some FieldZIndex
  else if decide (name = "animation_progress") then Some FieldAnimationProgress
  else None.

Definition field_value (f : field) (c : UIComponent) : pyval :=
  match f with
  | FieldId => PStr (component_id c)
  | FieldVisible => of_bool (visible c)
  | FieldEnabled => of_bool (enabled c)
  | FieldZIndex => PInt (z_index c)
  | FieldAnimationProgress => PFloat (animation_progress c)
  end.

(** Whether a value is of the field's type, so that the field holds it. *)
Definition fits (f : field) (v : pyval) : bool :=
  match f, v with
  | FieldId, PStr _ => true
  | (FieldVisible | FieldEnabled), PInt z => bool_decide (z = 0 \/ z = 1)
  | FieldZIndex, PInt _ => true
  | FieldAnimationProgress, PFloat _ => true
  | _, _ => false
  end.

(** What the field keeps of a value: the value where it fits; of any value
    given to a flag, its truth, which is all that is ever asked of a
    flag. *)
Definition store_field (f : field) (v : pyval) (c : UIComponent) : UIComponent :=
  match f, v with
  | FieldId, PStr i => set_component_id i c
  | FieldVisible, _ => set_visible (truthy v) c
  | FieldEnabled, _ => set_enabled (truthy v) c
  | FieldZIndex, PInt z => set_z_index z c
  | FieldAnimationProgress, PFloat x => set_animation_progress x c
  | _, _ => c
  end.

(** The value an attribute holds, [None] where the object has no such
    attribute: [getattr(self, name, None)] (for a name that is followed). *)
Definition attribute (s : State) (self : ref) (name : string) : pyval :=
  match field_named name with
  | Some f => default (field_value f (heap s self)) (untyped s !! (self, name))
  | None => default PNone (attrs (heap s self) !! name)
  end.

Definition getattr (self : ref) (name : string) : M pyval :=
  if followed_name name then gets (fun s => attribute s self name)
  else raise unfollowed.

(** [setattr(self, prop_name, v)], and [self.prop_name = v]. *)
Definition setattr (self : ref) (prop_name : string) (v : pyval) : M unit :=
  if followed_name prop_name then
    match field_named prop_name with
    | Some f =>
        alter_node (store_field f v) self;;
        modify (fun s =>
          set_untyped (if fits f v then delete (self, prop_name) (untyped s)
                       else <[(self, prop_name) := v]> (untyped s)) s)
    | None => alter_node (fun c => set_attrs (<[prop_name := v]> (attrs c)) c) self
    end
  else raise unfollowed.

(** Whether every [z_index] holds an integer: none is kept in [untyped]. *)
Definition z_indices_typed (s : State) : bool :=
  bool_decide (map_Forall (fun k _ => k.2 <> "z_index") (untyped s)).

Section Engine.
Context `{Environment}.

(** [time.time()] *)
Definition now : M float := fun w =>
  (mk_world (set_clock_reads (S (clock_reads (st w))) (st w)) (trace w),
   Returned (time_time (clock_reads (st w)))).

(** The loop [for handler in self.event_handlers[event]].  The iterator
    holds the list and an index and looks at the list anew before every
    step: a handler that an earlier one has appended (with [on]) is
    reached, and where one has been taken out those behind it move up.  The
    list of a kind on a node is one list throughout, changed in place as
    [on] does; [budget] bounds the handler calls that are followed. *)
Fixpoint emit_from (budget : nat) (self : ref) (event : event_key)
    (a : arguments) (index : nat) {struct budget} : M unit :=
  handlers ← gets (fun s => default [] (event_handlers (heap s self) !! event));
  match handlers !! index with
  | None => mret tt
  | Some hd =>
      match budget with
      | O => raise unfollowed
      | S budget' =>
          try_except_Exception
            (log_call (CallHandler hd a);; external (call_handler hd a))
            (fun e => print ("Error in event handler: " +:+ exn_str e));;
          emit_from budget' self event a (S index)
      end
  end.

Definition emit (self : ref) (event : event_key) (a : arguments) : M unit :=
  log_call (CallEmit self event);;
  table ← gets (fun s => event_handlers (heap s self));
  match table !! event with
  | None => mret tt
  | Some _ => emit_from iteration_budget self event a 0
  end.

(** The body of the loop over [self.animations.items()]; the result is
    what the iteration appends to [to_remove]. *)
Definition animation_step (self : ref) (current_time : float)
    (prop_name : string) (anim : animation) : M (list string) :=
  let elapsed := (current_time - anim_start_time anim)%float in
  q ← lift (py_truediv elapsed (anim_duration anim));
  let progress := min_one q in
  if (1 <=? progress)%float then
    setattr self prop_name (anim_to anim);;
    mret [prop_name]
  else
    let easing := anim_easing anim progress in
    let from_val := anim_from anim in
    let to_val := anim_to anim in
    if is_number from_val && is_number to_val then
      value ← lift (interpolate from_val to_val easing);
      setattr self prop_name value;;
      mret []
    else
      match from_val, to_val with
      | PTuple fs, PTuple ts =>
          value ← lift (interpolate_items fs ts easing);
          setattr self prop_name (PTuple value);;
          mret []
      | _, _ => mret []
      end.

Fixpoint animation_steps (self : ref) (current_time : float)
    (items : list (string * animation)) : M (list string) :=
  match items with
  | [] => mret []
  | (prop_name, anim) :: rest =>
      finished ← animation_step self current_time prop_name anim;
      more ← animation_steps self current_time rest;
      mret (finished ++ more)
  end.

Definition _update_animations (self : ref) (dt : float) : M unit :=
  progress ← getattr self "animation_progress";
  advanced ← lift (py_add progress (PFloat dt) ≫= py_mod_one);
  setattr self "animation_progress" advanced;;
  current_time ← now;
  items ← gets (fun s => animations (heap s self));
  to_remove ← animation_steps self current_time items;
  for_each to_remove (fun prop_name =>
    alter_node (fun c => set_animations (dict_del prop_name (animations c)) c) self).

Definition animate (self : ref) (property_name : string) (to_value : pyval)
    (duration : pyval) (easing : option (float -> float)) : M unit :=
  from_value ← getattr self property_name;
  match from_value with
  | PNone => mret tt
  | v =>
      start ← now;
      alter_node (fun c =>
        set_animations
          (dict_set property_name
             (mk_animation v to_value duration start
                (default (fun t => t) easing))
             (animations c)) c) self
  end.

Fixpoint update (depth : nat) (self : ref) (dt : float) : M unit :=
  match depth with
  | O => raise recursion_error
  | S d =>
      active ← gets (fun s => animations (heap s self));
      match active with
      | [] => mret tt
      | _ :: _ => _update_animations self dt
      end;;
      kids ← gets (fun s => children (heap s self));
      for_each kids (fun child =>
        shown ← gets (fun s => visible (heap s child));
        if shown : bool then update d child dt else mret tt)
  end.

(** ** [UIScreen] *)

Definition alter_screen (f : UIScreen -> UIScreen) (self : screen_ref) : M unit :=
  modify (fun s => set_screen_heap (alter f self (screen_heap s)) s).

Definition handle_event (self : screen_ref) (event : event_key)
    (a : arguments) : M unit :=
  log_call (CallHandleEvent self event);;
  external (screen_handle_event self event a).

Definition on_enter (self : screen_ref) : M unit :=
  log_call (CallOnEnter self);;
  alter_screen (set_is_active true) self;;
  title ← gets (fun s => name (screen_heap s self));
  print ("Entering screen: " +:+ title).

Definition on_exit (self : screen_ref) : M unit :=
  log_call (CallOnExit self);;
  alter_screen (set_is_active false) self;;
  title ← gets (fun s => name (screen_heap s self));
  print ("Exiting screen: " +:+ title).

(** ** [UIManager] *)

Definition alter_manager (f : UIManager -> UIManager) : M unit :=
  modify (fun s => set_manager (f (manager s)) s).

Definition register_screen (screen : screen_ref) : M unit :=
  title ← gets (fun s => name (screen_heap s screen));
  alter_manager (fun m => set_screens (<[title := screen]> (screens m)) m).

Definition _handle_transition (transition : string) : M unit :=
  print ("Transition: " +:+ transition).

Definition none_has_no_attribute : exn :=
  mk_exn AttributeError "'NoneType' object has no attribute".

Definition switch_screen (screen_name : string) (transition : option string)
    : M unit :=
  table ← gets (fun s => screens (manager s));
  match table !! screen_name with
  | None => print ("Screen '" +:+ screen_name +:+ "' not found")
  | Some target =>
      current ← gets (fun s => current_screen (manager s));
      match current with
      | Some screen =>
          on_exit screen;;
          current' ← gets (fun s => current_screen (manager s));
          alter_manager (set_previous_screen current')
      | None => mret tt
      end;;
      alter_manager (set_current_screen (Some target));;
      on_enter target;;
      match transition with
      | Some t => if decide (t = "") then mret tt else _handle_transition t
      | None => mret tt
      end
  end.

(** [self.current_screen.root.hit_test(x, y)] in a state: followed as long
    as every z-index is an integer. *)
Definition followed_hit_test (s : State) (top : ref) (px py : Z)
    : outcome (option ref) :=
  if z_indices_typed s then hit_test recursion_limit (heap s) top px py
  else Raised unfollowed.

(** [event in [UIEvent.CLICK, UIEvent.LONG_PRESS]] *)
Definition is_press (event : event_key) : bool :=
  bool_decide (event ∈ [Member CLICK; Member LONG_PRESS]).

Definition emit_if_any (target : option ref) (event : event_key)
    (a : arguments) : M unit :=
  match target with
  | Some node => emit node event a
  | None => mret tt
  end.

Definition handle_input (event : event_key) (x y : option Z)
    (kw : list (string * pyval)) : M unit :=
  current ← gets (fun s => current_screen (manager s));
  match current with
  | None => mret tt
  | Some screen =>
      match x, y with
      | Some px, Some py =>
          if is_press event then
            top ← gets (fun s => root (screen_heap s screen));
            hit ← reads (fun s => followed_hit_test s top px py);
            focused ← gets (fun s => focused_component (manager s));
            (if decide (hit ≠ focused) then
               emit_if_any focused (Member BLUR) no_arguments;;
               alter_manager (set_focused_component hit);;
               focused' ← gets (fun s => focused_component (manager s));
               emit_if_any focused' (Member FOCUS) no_arguments
             else mret tt);;
            emit_if_any hit event (mk_arguments [] kw)
          else mret tt
      | _, _ => mret tt
      end;;
      current' ← gets (fun s => current_screen (manager s));
      match current' with
      | Some screen' => handle_event screen' event (mk_arguments [] kw)
      | None => raise none_has_no_attribute
      end
  end.

End Engine.

(** ** Predicates used by the statements *)

(** A node is among a parent's children exactly when its back-reference
    designates that parent. *)
Definition parent_child_invariant (h : ref -> UIComponent) : Prop :=
  forall n p : ref, n ∈ children (h p) <-> parent (h n) = Some p.

(** No child sequence lists a node twice. *)
Definition children_distinct (h : ref -> UIComponent) : Prop :=
  forall p : ref, NoDup (children (h p)).

Ltac alter_cases :=
  unfold alter, fn_alter in *; repeat case_decide; subst; simpl in *;
  try done.

(** ** The scene of the specification's scenario *)

Definition blank_component : UIComponent :=
  new_component (UIRect.mk 0 0 0 0) "" true true 0.

Definition empty_heap : ref -> UIComponent := fun _ => blank_component.

Definition scenario_root : ref := 0%nat.
Definition scenario_button : ref := 1%nat.

(** A root container [UIRect(0, 0, 320, 240)], a button
    [UIRect(10, 10, 50, 30)], then [root.add_child(button)]. *)
Definition scenario_heap : ref -> UIComponent :=
  add_child scenario_root scenario_button
    (<[scenario_button := new_component (UIRect.mk 10 10 50 30) "button" true true 0]>
       (<[scenario_root := new_component (UIRect.mk 0 0 320 240) "root" true true 0]>
          empty_heap)).

(** A lone node whose rectangle has negative extent. *)
Definition inverted_heap : ref -> UIComponent :=
  <[0%nat := new_component (UIRect.mk 5 5 (-2) (-2)) "inverted" true true 0]>
    empty_heap.

(** A parent whose only child lies outside the parent's own rectangle. *)
Definition offside_heap : ref -> UIComponent :=
  add_child 0%nat 1%nat
    (<[1%nat := new_component (UIRect.mk 20 20 10 10) "child" true true 0]>
       (<[0%nat := new_component (UIRect.mk 0 0 10 10) "parent" true true 0]>
          empty_heap)).

(** A parent, one child, and a grandchild inside that child. *)
Definition nested_heap : ref -> UIComponent :=
  add_child 1%nat 2%nat
    (add_child 0%nat 1%nat
       (<[2%nat := new_component (UIRect.mk 0 0 20 20) "grandchild" true true 0]>
          (<[1%nat := new_component (UIRect.mk 0 0 50 50) "child" true true 0]>
             (<[0%nat := new_component (UIRect.mk 0 0 100 100) "parent" true true 0]>
                empty_heap)))).

(** Two overlapping siblings with z-index 2 and 1, added in that order. *)
Definition overlap_heap : ref -> UIComponent :=
  add_child 0%nat 2%nat
    (add_child 0%nat 1%nat
       (<[2%nat := new_component (UIRect.mk 0 0 10 10) "low" true true 1]>
          (<[1%nat := new_component (UIRect.mk 0 0 10 10) "high" true true 2]>
             (<[0%nat := new_component (UIRect.mk 0 0 320 240) "parent" true true 0]>
                empty_heap)))).

(** The order [sorted] establishes. *)
Definition key_le (key : ref -> Z) (a b : ref) : Prop := (key a <= key b)%Z.

(** A node that [hit_test] does not reject outright. *)
Definition responsive (h : ref -> UIComponent) (c : ref) : Prop :=
  visible (h c) = true /\ enabled (h c) = true.

(** ** Environments and states used as concrete instances *)

(** Nothing registered does anything; base-class [handle_event] ([pass]). *)
Definition idle_environment : Environment :=
  {| call_handler := fun _ _ s => (s, Returned tt);
     screen_handle_event := fun _ _ _ s => (s, Returned tt);
     time_time := fun _ => 0%float;
     recursion_limit := 1000;
     iteration_budget := 1000 |}.

(** Handler 0 calls [sys.exit(0)]; every other handler returns. *)
Definition exiting_environment : Environment :=
  {| call_handler := fun hd _ s =>
       if decide (hd = 0%nat) then (s, Raised (mk_exn SystemExit "0"))
       else (s, Returned tt);
     screen_handle_event := fun _ _ _ s => (s, Returned tt);
     time_time := fun _ => 0%float;
     recursion_limit := 1000;
     iteration_budget := 1000 |}.

(** Handler 0 fails with an ordinary error; every other handler returns. *)
Definition failing_environment : Environment :=
  {| call_handler := fun hd _ s =>
       if decide (hd = 0%nat) then (s, Raised (mk_exn RuntimeError "boom"))
       else (s, Returned tt);
     screen_handle_event := fun _ _ _ s => (s, Returned tt);
     time_time := fun _ => 0%float;
     recursion_limit := 1000;
     iteration_budget := 1000 |}.

Definition scenario_screen : screen_ref := 0%nat.

(** The scenario's scene shown by a registered and active screen "main". *)
Definition scenario_state : State :=
  mk_state scenario_heap
    (fun _ => mk_screen "main" 320 240 scenario_root false true)
    (mk_manager 320 240 {["main" := scenario_screen]} (Some scenario_screen)
       None None false 0%float 30)
    [] 0 ∅.

Definition scenario_world : World := mk_world scenario_state [].

(** The scenario with two click handlers, 0 then 1, on the button. *)
Definition wired_world : World :=
  mk_world
    (set_heap (on scenario_button (Member CLICK) 1%nat
                 (on scenario_button (Member CLICK) 0%nat scenario_heap))
       scenario_state)
    [].

(** What [emit] is specified to do with the handlers of a kind: run each
    in registration order on the state its predecessor left, and write one
    line for each that fails. *)
Definition handlers_in_order `{Environment} (handlers : list handler)
    (a : arguments) (s : State) : State :=
  foldl (fun s hd =>
           match call_handler hd a s with
           | (s', Returned _) => s'
           | (s', Raised e) =>
               set_stdout (stdout s' ++ ["Error in event handler: " +:+ exn_str e]) s'
           end) s handlers.

(** ** What an [emit] amounts to *)

(** The handlers a node has for a kind; none where there is no node. *)
Definition handlers_of (s : State) (target : option ref) (event : event_key)
    : list handler :=
  match target with
  | Some node => default [] (event_handlers (heap s node) !! event)
  | None => []
  end.



(** ** What the statements ask of the handlers *)




(** A handler that leaves the handlers of one kind on one node alone. *)
Definition keeps_handlers_of `{Environment} (self : ref) (event : event_key)
    (a : arguments) (hd : handler) : Prop :=
  forall s,
    event_handlers (heap (call_handler hd a s).1 self) !! event
    = event_handlers (heap s self) !! event.


(** Every handler, when called, registers itself once more for a click on
    the scenario's button; the run is followed for [budget] calls. *)
Definition regrowing_environment (budget : nat) : Environment :=
  {| call_handler := fun hd _ s =>
       (set_heap (on scenario_button (Member CLICK) hd (heap s)) s, Returned tt);
     screen_handle_event := fun _ _ _ s => (s, Returned tt);
     time_time := fun _ => 0%float;
     recursion_limit := 1000;
     iteration_budget := budget |}.

(** Handler 0, when called, registers handler 5 for a click on the
    scenario's button; the others do nothing. *)
Definition registering_environment : Environment :=
  {| call_handler := fun hd _ s =>
       if decide (hd = 0%nat)
       then (set_heap (on scenario_button (Member CLICK) 5%nat (heap s)) s,
             Returned tt)
       else (s, Returned tt);
     screen_handle_event := fun _ _ _ s => (s, Returned tt);
     time_time := fun _ => 0%float;
     recursion_limit := 1000;
     iteration_budget := 1000 |}.

(** ** Trees in the heap *)

(** The shape of a node together with its descendants. *)
#[warnings="-register-all"]
Inductive tree := Node (node : ref) (subtrees : list tree).

Definition tree_root (t : tree) : ref :=
  match t with Node n _ => n end.

Definition subtrees_of (t : tree) : list tree :=
  match t with Node _ ts => ts end.

Fixpoint tree_nodes (t : tree) : list ref :=
  match t with
  | Node n ts => n :: concat (map tree_nodes ts)
  end.

(** The heap holds the tree: every node's child sequence lists the roots
    of its subtrees, in order. *)
Inductive embeds (h : ref -> UIComponent) : tree -> Prop :=
  | embeds_node (n : ref) (ts : list tree) :
      children (h n) = map tree_root ts ->
      (forall sub, sub ∈ ts -> embeds h sub) ->
      embeds h (Node n ts).

(** What lies below a node with no hidden node in between: the node
    itself and, for each visible child, what lies below that child in the
    same way.  ([update] and [render] both go down through the children
    whose [visible] flag holds, and through no others.) *)
Inductive visibly_reachable (h : ref -> UIComponent) : ref -> ref -> Prop :=
  | reach_self (n : ref) : visibly_reachable h n n
  | reach_child (n c m : ref) :
      c ∈ children (h n) -> visible (h c) = true ->
      visibly_reachable h c m -> visibly_reachable h n m.

(** A node is in [s'] as it is in [s]: the object, and the values kept
    beside it for its attributes. *)
Definition same_node (s s' : State) (m : ref) : Prop :=
  heap s' m = heap s m
  /\ forall name, untyped s' !! (m, name) = untyped s !! (m, name).

(** Every node has in [s'] the child sequence it has in [s]. *)
Definition same_children (s s' : State) : Prop :=
  forall n, children (heap s' n) = children (heap s n).

(** A root with a hidden child 1 (which has a child 3) and a visible child
    2; nodes 3 and 2 each have [animate("value", 100, 1.0)] in flight
    since time 0. *)
Definition tween : animation :=
  mk_animation (PInt 0) (PInt 100) (PFloat 1) 0%float (fun t => t).

Definition animated_component (vis : bool) : UIComponent :=
  mk_component (UIRect.mk 0 0 10 10) "" vis true 0 None [] ∅ []
    [("value", tween)] 0%float {["value" := PInt 0]}.

Definition hidden_heap : ref -> UIComponent :=
  add_child 0%nat 2%nat
    (add_child 1%nat 3%nat
       (add_child 0%nat 1%nat
          (<[3%nat := animated_component true]>
             (<[2%nat := animated_component true]>
                (<[1%nat := new_component (UIRect.mk 0 0 10 10) "hidden" false true 0]>
                   (<[0%nat := new_component (UIRect.mk 0 0 320 240) "root" true true 0]>
                      empty_heap)))))).

Definition hidden_tree : tree :=
  Node 0%nat [Node 1%nat [Node 3%nat []]; Node 2%nat []].

Definition hidden_world : World :=
  mk_world (set_heap hidden_heap scenario_state) [].

(** The wall clock reads 2.0 at every call. *)
Definition late_environment : Environment :=
  {| call_handler := fun _ _ s => (s, Returned tt);
     screen_handle_event := fun _ _ _ s => (s, Returned tt);
     time_time := fun _ => 2%float;
     recursion_limit := 1000;
     iteration_budget := 1000 |}.

(** A computation that leaves every node but [self] as it is, and on
    [self] keeps the child sequence. *)
Definition confined_to (self : ref) {A} (m : M A) : Prop :=
  forall w,
    (forall n, n <> self -> same_node (st w) (st (m w).1) n)
    /\ same_children (st w) (st (m w).1).

(** A later world [w'] differs from the state [s] only on nodes that
    [update] reaches from [self] in [s], and on no node in the child
    sequence. *)
Definition changed_within (s : State) (self : ref) (w' : World) : Prop :=
  (forall m, ~ visibly_reachable (heap s) self m -> same_node s (st w') m)
  /\ same_children s (st w').

(** ** The tweening scenario *)

(** [AnimationPresets.linear] of [printpal/themes/animations.py] *)
Definition linear (t : float) : float := t.



(** A node with a numeric attribute "value" equal to 0 and nothing in
    flight. *)
Definition still_world : World :=
  mk_world
    (set_heap (<[2%nat := mk_component (UIRect.mk 0 0 10 10) "gauge" true true 0
                            None [] ∅ [] [] 0%float {["value" := PInt 0]}]>
                 scenario_heap)
       scenario_state)
    [].

(** The wall clock reads 10.0, 10.0, 10.5, 11.0, 11.0, ... *)
Definition ticking_environment : Environment :=
  {| call_handler := fun _ _ s => (s, Returned tt);
     screen_handle_event := fun _ _ _ s => (s, Returned tt);
     time_time := fun n =>
       match n with
       | 0%nat | 1%nat => 10%float
       | 2%nat => 10.5%float
       | _ => 11%float
       end;
     recursion_limit := 1000;
     iteration_budget := 1000 |}.

(** ** [UIComponent.find_by_id] and [find_by_tag] *)

(** The loop of [find_by_id]: the first child whose search gives a node. *)
Fixpoint first_found (probe : ref -> outcome (option ref)) (cs : list ref)
    : outcome (option ref) :=
  match cs with
  | [] => Returned None
  | child :: cs' =>
      match probe child with
      | Returned (Some result) => Returned (Some result)
      | Returned None => first_found probe cs'
      | Raised e => Raised e
      end
  end.

Fixpoint find_by_id (depth : nat) (h : ref -> UIComponent) (self : ref)
    (wanted : string) : outcome (option ref) :=
  match depth with
  | O => Raised recursion_error
  | S d =>
      if decide (component_id (h self) = wanted) then Returned (Some self)
      else first_found (fun child => find_by_id d h child wanted) (children (h self))
  end.

(** The loop of [find_by_tag]: [results.extend(child.find_by_tag(tag))]. *)
Fixpoint extend_each (probe : ref -> outcome (list ref)) (cs : list ref)
    : outcome (list ref) :=
  match cs with
  | [] => Returned []
  | child :: cs' =>
      found ← probe child;
      more ← extend_each probe cs';
      mret (found ++ more)
  end.

Fixpoint find_by_tag (depth : nat) (h : ref -> UIComponent) (self : ref)
    (tag : string) : outcome (list ref) :=
  match depth with
  | O => Raised recursion_error
  | S d =>
      let results := if decide (tag ∈ tags (h self)) then [self] else [] in
      below ← extend_each (fun child => find_by_tag d h child tag) (children (h self));
      mret (results ++ below)
  end.

(** A tagged variant of the hidden-subtree scene: node 3, inside the
    hidden child, and node 2 both carry the tag "gauge". *)
Definition tagged_component (ident : string) (vis : bool) (labels : list string)
    : UIComponent :=
  mk_component (UIRect.mk 0 0 10 10) ident vis true 0 None [] ∅ labels
    [] 0%float ∅.

Definition tagged_heap : ref -> UIComponent :=
  add_child 0%nat 2%nat
    (add_child 1%nat 3%nat
       (add_child 0%nat 1%nat
          (<[3%nat := tagged_component "bed" true ["gauge"]]>
             (<[2%nat := tagged_component "bed" true ["gauge"; "big"]]>
                (<[1%nat := tagged_component "panel" false []]>
                   (<[0%nat := tagged_component "root" true []]>
                      empty_heap)))))).

(** ** [UIComponent.render] *)

(** What a node draws is left to [_render_self], which subclasses override.
    The model keeps the order in which [render] calls [_render_self] on the
    nodes, and takes each such call to return and to leave the tree alone. *)
Fixpoint render_each (paint : ref -> list ref * outcome unit) (cs : list ref)
    : list ref * outcome unit :=
  match cs with
  | [] => ([], Returned tt)
  | child :: cs' =>
      match paint child with
      | (drawn, Returned _) =>
          let (more, r) := render_each paint cs' in (drawn ++ more, r)
      | (drawn, Raised e) => (drawn, Raised e)
      end
  end.

Fixpoint render (depth : nat) (h : ref -> UIComponent) (self : ref)
    : list ref * outcome unit :=
  match depth with
  | O => ([], Raised recursion_error)
  | S d =>
      if negb (visible (h self)) then ([], Returned tt)
      else
        let (drawn, r) :=
          render_each
            (fun child =>
               if visible (h child) then render d h child else ([], Returned tt))
            (sorted_by_key (fun c => z_index (h c)) (children (h self))) in
        (self :: drawn, r)
  end.

(** The nodes a point can reach from a node: the way down leads through
    visible, enabled nodes whose rectangles contain the point. *)
Inductive hit_path (h : ref -> UIComponent) (px py : Z) : ref -> ref -> Prop :=
  | hit_here (n : ref) :
      responsive h n -> UIRect.contains (rect (h n)) px py = true ->
      hit_path h px py n n
  | hit_below (n c m : ref) :
      responsive h n -> UIRect.contains (rect (h n)) px py = true ->
      c ∈ children (h n) -> hit_path h px py c m ->
      hit_path h px py n m.

(** ** Layout helpers ([printpal/utils/layout.py]) *)

Definition center_rect (container : UIRect.t) (width height : Z) : UIRect.t :=
  UIRect.mk
    (UIRect.x container + (UIRect.width container - width) `div` 2)
    (UIRect.y container + (UIRect.height container - height) `div` 2)
    width height.

(** [sum(l)], and [max(l)] of a list that has a first element. *)
Definition sum_of (l : list Z) : Z := foldl Z.add 0 l.

Definition max_of (first : Z) (others : list Z) : Z := foldl Z.max first others.

(** The loop of [distribute_horizontal] over the widths still to place;
    [first :: others] is the whole list, of which the body takes [max]. *)
Fixpoint distribute_horizontal_loop (container : UIRect.t) (first : Z)
    (others : list Z) (spacing current_x : Z) (todo : list Z) : list UIRect.t :=
  match todo with
  | [] => []
  | width :: todo' =>
      UIRect.mk current_x
        (UIRect.y container
         + (UIRect.height container - max_of first others) `div` 2)
        width (UIRect.height container)
      :: distribute_horizontal_loop container first others spacing
           (current_x + (width + spacing)) todo'
  end.

(** With no width the loop body never runs, and [max] is never asked for
    the maximum of an empty list. *)
Definition distribute_horizontal (container : UIRect.t) (widths : list Z)
    (spacing : Z) : list UIRect.t :=
  let total_width := sum_of widths + spacing * (Z.of_nat (length widths) - 1) in
  let start_x := UIRect.x container + (UIRect.width container - total_width) `div` 2 in
  match widths with
  | [] => []
  | first :: others =>
      distribute_horizontal_loop container first others spacing start_x widths
  end.

Fixpoint distribute_vertical_loop (container : UIRect.t) (first : Z)
    (others : list Z) (spacing current_y : Z) (todo : list Z) : list UIRect.t :=
  match todo with
  | [] => []
  | height :: todo' =>
      UIRect.mk
        (UIRect.x container
         + (UIRect.width container - max_of first others) `div` 2)
        current_y (UIRect.width container) height
      :: distribute_vertical_loop container first others spacing
           (current_y + (height + spacing)) todo'
  end.

Definition distribute_vertical (container : UIRect.t) (heights : list Z)
    (spacing : Z) : list UIRect.t :=
  let total_height := sum_of heights + spacing * (Z.of_nat (length heights) - 1) in
  let start_y := UIRect.y container + (UIRect.height container - total_height) `div` 2 in
  match heights with
  | [] => []
  | first :: others =>
      distribute_vertical_loop container first others spacing start_y heights
  end.

(** [a // b] on integers *)
Definition floordiv (a b : Z) : outcome Z :=
  if (b =? 0)%Z
  then Raised (mk_exn ZeroDivisionError "integer division or modulo by zero")
  else Returned (a `div` b).

(** [range(n)] *)
Definition range (n : Z) : list Z := map Z.of_nat (seq 0 (Z.to_nat n)).

Definition grid_layout (container : UIRect.t) (rows cols spacing : Z)
    : outcome (list (list UIRect.t)) :=
  cell_width ← floordiv (UIRect.width container - spacing * (cols - 1)) cols;
  cell_height ← floordiv (UIRect.height container - spacing * (rows - 1)) rows;
  mret (map (fun row =>
               map (fun col =>
                      UIRect.mk
                        (UIRect.x container + col * (cell_width + spacing))
                        (UIRect.y container + row * (cell_height + spacing))
                        cell_width cell_height)
                 (range cols))
          (range rows)).

(** ** [UIScreen.update] and [UIManager.update] *)

Definition set_initialized (b : bool) (s : UIScreen) : UIScreen :=
  mk_screen (name s) (width s) (height s) (root s) b (is_active s).

Definition set_last_update_time (t : float) (m : UIManager) : UIManager :=
  mk_manager (display_width m) (display_height m) (screens m) (current_screen m)
    (previous_screen m) (focused_component m) (animation_running m)
    t (fps m).

Section Updates.
Context `{Environment}.

(** [UIScreen.update]; [initialize] is the base class's, which does
    nothing. *)
Definition UIScreen_update (self : screen_ref) (dt : float) : M unit :=
  ready ← gets (fun s => initialized (screen_heap s self));
  (if ready : bool then mret tt else alter_screen (set_initialized true) self);;
  top ← gets (fun s => root (screen_heap s self));
  update recursion_limit top dt.

(** [UIManager.update]; [None] stands for the omitted argument. *)
Definition UIManager_update (dt : option float) : M unit :=
  elapsed ← match dt with
            | None =>
                current_time ← now;
                last ← gets (fun s => last_update_time (manager s));
                alter_manager (set_last_update_time current_time);;
                mret (current_time - last)%float
            | Some given => mret given
            end;
  current ← gets (fun s => current_screen (manager s));
  match current with
  | Some screen => UIScreen_update screen elapsed
  | None => mret tt
  end.

End Updates.

(** The screen flagged active is the current one, and no other. *)
Definition single_active (s : State) : Prop :=
  forall screen,
    is_active (screen_heap s screen) = true
    <-> current_screen (manager s) = Some screen.

(** A manager just built, with one screen registered and none entered. *)
Definition boot_state : State :=
  mk_state scenario_heap
    (fun _ => mk_screen "main" 320 240 scenario_root false false)
    (mk_manager 320 240 {["main" := scenario_screen]} None None None false 0%float 30)
    [] 0 ∅.

Definition boot_world : World := mk_world boot_state [].


(** A node with [animate("value", 100, duration=0)] in flight. *)
Definition stalled_tween : animation :=
  mk_animation (PInt 0) (PInt 100) (PInt 0) 0%float (fun t => t).

Definition stalled_world : World :=
  mk_world
    (set_heap (<[2%nat := mk_component (UIRect.mk 0 0 10 10) "gauge" true true 0
                            None [] ∅ [] [("value", stalled_tween)] 0%float
                            {["value" := PInt 0]}]>
                 scenario_heap)
       scenario_state)
    [].

(** ** Cycles *)

(** [c] is a child of [n]. *)
Definition child_of (h : ref -> UIComponent) (n c : ref) : Prop :=
  c ∈ children (h n).

(** A single node after [node.add_child(node)]. *)
Definition looped_heap : ref -> UIComponent :=
  add_child 0%nat 0%nat
    (<[0%nat := new_component (UIRect.mk 0 0 10 10) "loop" true true 0]> empty_heap).

(** ** [UIList] ([printpal/components/containers.py]) *)

Definition set_rect (r : UIRect.t) (c : UIComponent) : UIComponent :=
  mk_component r (component_id c) (visible c) (enabled c) (z_index c)
    (parent c) (children c) (event_handlers c) (tags c) (animations c)
    (animation_progress c) (attrs c).

(** A component holds its [UIRect] by reference, and components built
    from one [UIRect] hold the same object: [rects] names the object each
    component holds.  An assignment to a field of [child.rect] changes that
    object, and so the rectangle of every component that holds it. *)
Definition write_rect (rects : ref -> nat) (child : ref) (r : UIRect.t)
    (h : ref -> UIComponent) : ref -> UIComponent :=
  fun n => if decide (rects n = rects child) then set_rect r (h n) else h n.

Module UIList.

(** The fields of a list container besides those of a component:
    [padding] comes from [UIContainer], the others from [UIList]. *)
Record t := mk {
  padding : Z;
  spacing : Z;
  scroll_offset : Z;
  max_scroll : Z
}.

Definition set_max_scroll (v : Z) (l : t) : t :=
  mk (padding l) (spacing l) (scroll_offset l) v.

(** The three assignments to [child.rect] in the loop body, each reading
    [self.rect] and [child.rect] as they are at that moment. *)
Definition place (rects : ref -> nat) (self child : ref) (l : t) (current_y : Z)
    (h : ref -> UIComponent) : ref -> UIComponent :=
  let h1 :=
    write_rect rects child
      (UIRect.mk (UIRect.x (rect (h child)))
         (UIRect.y (rect (h self)) + current_y)
         (UIRect.width (rect (h child))) (UIRect.height (rect (h child))))
      h in
  let h2 :=
    write_rect rects child
      (UIRect.mk (UIRect.x (rect (h1 self)) + padding l)
         (UIRect.y (rect (h1 child)))
         (UIRect.width (rect (h1 child))) (UIRect.height (rect (h1 child))))
      h1 in
  write_rect rects child
    (UIRect.mk (UIRect.x (rect (h2 child))) (UIRect.y (rect (h2 child)))
       (UIRect.width (rect (h2 self)) - padding l * 2)
       (UIRect.height (rect (h2 child))))
    h2.

Fixpoint layout_loop (rects : ref -> nat) (self : ref) (l : t) (cs : list ref)
    (current_y : Z) (h : ref -> UIComponent) : Z * (ref -> UIComponent) :=
  match cs with
  | [] => (current_y, h)
  | child :: cs' =>
      let h' := place rects self child l current_y h in
      layout_loop rects self l cs'
        (current_y + (UIRect.height (rect (h' child)) + spacing l)) h'
  end.

Definition _update_layout (rects : ref -> nat) (self : ref) (l : t)
    (h : ref -> UIComponent) : t * (ref -> UIComponent) :=
  let (current_y, h') :=
    layout_loop rects self l (children (h self)) (scroll_offset l) h in
  let total_height := current_y - scroll_offset l in
  (set_max_scroll (Z.max 0 (total_height - UIRect.height (rect (h' self)))) l, h').

Definition add_child (rects : ref -> nat) (self child : ref) (l : t)
    (h : ref -> UIComponent) : t * (ref -> UIComponent) :=
  _update_layout rects self l (add_child self child h).

Definition remove_child (rects : ref -> nat) (self child : ref) (l : t)
    (h : ref -> UIComponent) : t * (ref -> UIComponent) :=
  _update_layout rects self l (remove_child self child h).

End UIList.

(** A list at [(0, 100)], 200 by 120, with padding 5 and spacing 10, and
    two detached items 30 and 40 high. *)
Definition list_heap : ref -> UIComponent :=
  <[2%nat := new_component (UIRect.mk 7 7 50 40) "second" true true 0]>
    (<[1%nat := new_component (UIRect.mk 3 3 50 30) "first" true true 0]>
       (<[0%nat := new_component (UIRect.mk 0 100 200 120) "list" true true 0]>
          empty_heap)).

Definition list_fields : UIList.t := UIList.mk 5 10 0 0.

(** Every component built from a [UIRect] of its own. *)
Definition own_rects : ref -> nat := fun n => n.

(** The two items built from one [UIRect], and the first item built from
    the list's. *)
Definition items_share_rect : ref -> nat :=
  fun n => if decide (n = 2%nat) then 1%nat else n.

Definition list_shares_rect : ref -> nat :=
  fun n => if decide (n = 1%nat) then 0%nat else n.

(** What the loop of [UIList._update_layout] adds to [current_y] for a
    child, and the child as the loop leaves it when [current_y] is [top]. *)
Definition list_row (l : UIList.t) (h : ref -> UIComponent) (c : ref) : Z :=
  UIRect.height (rect (h c)) + UIList.spacing l.

Definition list_slot (self : ref) (l : UIList.t) (h : ref -> UIComponent)
    (top : Z) (c : ref) : UIComponent :=
  set_rect
    (UIRect.mk (UIRect.x (rect (h self)) + UIList.padding l)
       (UIRect.y (rect (h self)) + top)
       (UIRect.width (rect (h self)) - UIList.padding l * 2)
       (UIRect.height (rect (h c))))
    (h c).

(** ** [UIGraph.add_data_point] ([printpal/components/graphs.py]) *)

Definition add_data_point {A} (data : list A) (max_points : Z) (value : A)
    : list A :=
  let data' := data ++ [value] in
  if (max_points <? Z.of_nat (length data'))%Z then tail data' else data'.

(** ** [UIGrid] ([printpal/components/containers.py]) *)

Module UIGrid.

(** The fields of a grid container besides those of a component. *)
Record t := mk {
  padding : Z;
  columns : Z;
  row_height : Z;
  spacing : Z;
  items : list ref
}.

Definition set_items (v : list ref) (g : t) : t :=
  mk (padding g) (columns g) (row_height g) (spacing g) v.

(** The body of the loop for the item with index [i]: four assignments to
    fields of [item.rect], each reading [self.rect] and [item.rect] as they
    are at that moment. *)
Definition place (rects : ref -> nat) (self item : ref) (g : t) (col_width i : Z)
    (h : ref -> UIComponent) : ref -> UIComponent :=
  let row := i `div` columns g in
  let col := i `mod` columns g in
  let h1 :=
    write_rect rects item
      (UIRect.mk (UIRect.x (rect (h self)) + padding g
                  + col * (col_width + spacing g))
         (UIRect.y (rect (h item)))
         (UIRect.width (rect (h item))) (UIRect.height (rect (h item))))
      h in
  let h2 :=
    write_rect rects item
      (UIRect.mk (UIRect.x (rect (h1 item)))
         (UIRect.y (rect (h1 self)) + padding g
          + row * (row_height g + spacing g))
         (UIRect.width (rect (h1 item))) (UIRect.height (rect (h1 item))))
      h1 in
  let h3 :=
    write_rect rects item
      (UIRect.mk (UIRect.x (rect (h2 item))) (UIRect.y (rect (h2 item)))
         col_width (UIRect.height (rect (h2 item))))
      h2 in
  write_rect rects item
    (UIRect.mk (UIRect.x (rect (h3 item))) (UIRect.y (rect (h3 item)))
       (UIRect.width (rect (h3 item))) (row_height g))
    h3.

(** [for i, item in enumerate(self.items)] from index [i] on. *)
Fixpoint layout_loop (rects : ref -> nat) (self : ref) (g : t) (col_width i : Z)
    (todo : list ref) (h : ref -> UIComponent) : ref -> UIComponent :=
  match todo with
  | [] => h
  | item :: todo' =>
      layout_loop rects self g col_width (i + 1) todo'
        (place rects self item g col_width i h)
  end.

Definition _update_layout (rects : ref -> nat) (self : ref) (g : t)
    (h : ref -> UIComponent) : outcome (ref -> UIComponent) :=
  match items g with
  | [] => Returned h
  | _ :: _ =>
      col_width ← floordiv
                    (UIRect.width (rect (h self)) - padding g * 2
                     - spacing g * (columns g - 1))
                    (columns g);
      mret (layout_loop rects self g col_width 0 (items g) h)
  end.

(** The item is appended before the layout runs, and stays appended when
    the layout fails. *)
Definition add_item (rects : ref -> nat) (self item : ref) (g : t)
    (h : ref -> UIComponent) : t * outcome (ref -> UIComponent) :=
  let g' := set_items (items g ++ [item]) g in
  (g', _update_layout rects self g' h).

End UIGrid.

(** A grid of two columns at the origin, 210 wide, and a detached item. *)
Definition grid_heap : ref -> UIComponent :=
  <[1%nat := new_component (UIRect.mk 3 3 50 30) "tile" true true 0]>
    (<[0%nat := new_component (UIRect.mk 0 0 210 120) "grid" true true 0]>
       empty_heap).

Definition grid_fields : UIGrid.t := UIGrid.mk 0 2 50 10 [].

(** The hidden-subtree scene shown by a screen that is current and has
    been initialised. *)
Definition running_world : World :=
  mk_world
    (set_screen_heap (fun _ => mk_screen "main" 320 240 scenario_root true true)
       (st hidden_world))
    [].

(** ** Attributes and animation records under a tick *)







(** * Properties *)

(** ** The tree: [add_child] and [remove_child] *)

Lemma children_alter_set_parent (h : ref -> UIComponent) v c n :
  children (alter (set_parent v) c h n) = children (h n).
Proof. alter_cases. Qed.

Lemma parent_alter_set_children (h : ref -> UIComponent) f p n :
  parent (alter (fun c => set_children (f c) c) p h n) = parent (h n).
Proof. alter_cases. Qed.

Lemma parent_alter_set_parent (h : ref -> UIComponent) v c n :
  parent (alter (set_parent v) c h n) = if decide (c = n) then v else parent (h n).
Proof. alter_cases. Qed.

Lemma children_alter_set_children (h : ref -> UIComponent) f p n :
  children (alter (fun c => set_children (f c) c) p h n)
  = if decide (p = n) then f (h p) else children (h n).
Proof. alter_cases. Qed.

Lemma children_add_child (h : ref -> UIComponent) self child n :
  children (add_child self child h n)
  = if decide (self = n) then children (h n) ++ [child] else children (h n).
Proof.
  unfold add_child. rewrite children_alter_set_children.
  case_decide; subst; rewrite ?children_alter_set_parent; reflexivity.
Qed.

Lemma parent_add_child (h : ref -> UIComponent) self child n :
  parent (add_child self child h n)
  = if decide (child = n) then Some self else parent (h n).
Proof.
  unfold add_child.
  rewrite parent_alter_set_children, parent_alter_set_parent. reflexivity.
Qed.

Lemma children_remove_child (h : ref -> UIComponent) self child n :
  child ∈ children (h self) ->
  children (remove_child self child h n)
  = if decide (self = n) then list_remove_first child (children (h n))
    else children (h n).
Proof.
  intros Hin. unfold remove_child. rewrite bool_decide_eq_true_2 by done.
  rewrite children_alter_set_children.
  case_decide; subst; rewrite ?children_alter_set_parent; reflexivity.
Qed.

Lemma parent_remove_child (h : ref -> UIComponent) self child n :
  child ∈ children (h self) ->
  parent (remove_child self child h n)
  = if decide (child = n) then None else parent (h n).
Proof.
  intros Hin. unfold remove_child. rewrite bool_decide_eq_true_2 by done.
  rewrite parent_alter_set_children, parent_alter_set_parent. reflexivity.
Qed.

Lemma remove_child_absent (h : ref -> UIComponent) self child :
  child ∉ children (h self) -> remove_child self child h = h.
Proof.
  intros Hnot. unfold remove_child. rewrite bool_decide_eq_false_2 by done.
  reflexivity.
Qed.

Lemma list_remove_first_absent x l : x ∉ l -> list_remove_first x l = l.
Proof.
  induction l as [|a l IH]; simpl; [done|].
  intros Hnot. apply not_elem_of_cons in Hnot as [Hne Hnot].
  case_decide; [congruence|]. by rewrite IH.
Qed.

Lemma list_remove_first_app_new x l :
  x ∉ l -> list_remove_first x (l ++ [x]) = l.
Proof.
  induction l as [|a l IH]; simpl.
  - intros _. by case_decide.
  - intros Hnot. apply not_elem_of_cons in Hnot as [Hne Hnot].
    case_decide; [congruence|]. by rewrite IH.
Qed.

Lemma elem_of_list_remove_first_ne x y l :
  y ≠ x -> y ∈ list_remove_first x l <-> y ∈ l.
Proof.
  intros Hne. induction l as [|a l IH]; simpl; [done|].
  case_decide; subst.
  - rewrite elem_of_cons. split; [tauto | intros [?|?]; [congruence | done]].
  - rewrite !elem_of_cons, IH. done.
Qed.

Lemma elem_of_list_remove_first x y l :
  y ∈ list_remove_first x l -> y ∈ l.
Proof.
  induction l as [|a l IH]; simpl; [done|].
  case_decide; subst; rewrite !elem_of_cons; tauto.
Qed.

Lemma list_remove_first_NoDup x l :
  NoDup l -> NoDup (list_remove_first x l) /\ x ∉ list_remove_first x l.
Proof.
  induction 1 as [|a l Hnot Hnd IH]; simpl.
  - split; [constructor | apply not_elem_of_nil].
  - destruct IH as [IH1 IH2]. case_decide; subst; [done|].
    split.
    + constructor; [|done]. intros Hin. by apply elem_of_list_remove_first in Hin.
    + apply not_elem_of_cons. split; [congruence | done].
Qed.

Lemma add_child_keeps_invariant (h : ref -> UIComponent) self child :
  parent_child_invariant h -> children_distinct h ->
  parent (h child) = None ->
  parent_child_invariant (add_child self child h)
  /\ children_distinct (add_child self child h).
Proof.
  unfold parent_child_invariant, children_distinct.
  intros Hinv Hnd Hfree.
  assert (Hnowhere : forall p, child ∉ children (h p)).
  { intros p Hin. apply Hinv in Hin. congruence. }
  split.
  - intros n p. rewrite children_add_child, parent_add_child.
    destruct (decide (self = p)) as [->|Hp], (decide (child = n)) as [->|Hn];
      simpl.
    + rewrite elem_of_app, list_elem_of_singleton. tauto.
    + rewrite elem_of_app, list_elem_of_singleton, Hinv.
      split; [intros [?|?]; [done | congruence] | tauto].
    + split; [intros Hin; by apply Hnowhere in Hin | congruence].
    + apply Hinv.
  - intros p. rewrite children_add_child.
    destruct (decide (self = p)) as [->|Hp]; simpl; [|apply Hnd].
    apply NoDup_app. split_and!; [apply Hnd | | apply NoDup_singleton].
    intros x Hx Hx'. apply list_elem_of_singleton in Hx'. subst.
    by apply Hnowhere in Hx.
Qed.

Lemma remove_child_keeps_invariant (h : ref -> UIComponent) self child :
  parent_child_invariant h -> children_distinct h ->
  parent_child_invariant (remove_child self child h)
  /\ children_distinct (remove_child self child h).
Proof.
  unfold parent_child_invariant, children_distinct.
  intros Hinv Hnd.
  destruct (decide (child ∈ children (h self))) as [Hin|Hnot];
    [|by rewrite remove_child_absent].
  pose proof (proj1 (Hinv _ _) Hin) as Hpar.
  destruct (list_remove_first_NoDup child _ (Hnd self)) as [Hnd' Hgone].
  split.
  - intros n p. rewrite children_remove_child, parent_remove_child by done.
    destruct (decide (self = p)) as [->|Hp], (decide (child = n)) as [->|Hn];
      simpl.
    + split; [done | congruence].
    + rewrite elem_of_list_remove_first_ne by done. apply Hinv.
    + rewrite Hinv, Hpar. split; [congruence | done].
    + apply Hinv.
  - intros p. rewrite children_remove_child by done.
    destruct (decide (self = p)) as [->|Hp]; simpl; [done | apply Hnd].
Qed.

Lemma empty_heap_invariant :
  parent_child_invariant empty_heap /\ children_distinct empty_heap.
Proof.
  split.
  - intros n p. simpl. split; [intros Hin; by apply elem_of_nil in Hin | done].
  - intros p. constructor.
Qed.

Lemma insert_new_component_invariant (h : ref -> UIComponent) n r i v e z :
  parent_child_invariant h -> children_distinct h ->
  parent (h n) = None -> children (h n) = [] ->
  parent_child_invariant (<[n := new_component r i v e z]> h)
  /\ children_distinct (<[n := new_component r i v e z]> h).
Proof.
  unfold parent_child_invariant, children_distinct. intros Hinv Hnd Hfree Hleaf.
  assert (Hnowhere : forall p, n ∉ children (h p)).
  { intros p Hin. apply Hinv in Hin. congruence. }
  split.
  - intros m p. unfold insert, fn_insert.
    destruct (decide (n = p)) as [<-|Hp], (decide (n = m)) as [<-|Hm]; simpl.
    + split; [intros Hin; by apply elem_of_nil in Hin | done].
    + split; [intros Hin; by apply elem_of_nil in Hin|].
      intros Hpar. apply Hinv in Hpar. rewrite Hleaf in Hpar.
      by apply elem_of_nil in Hpar.
    + split; [intros Hin; by apply Hnowhere in Hin | done].
    + apply Hinv.
  - intros p. unfold insert, fn_insert. case_decide; simpl; [constructor | apply Hnd].
Qed.

Lemma scenario_heap_invariant :
  parent_child_invariant scenario_heap /\ children_distinct scenario_heap.
Proof.
  unfold scenario_heap.
  destruct empty_heap_invariant as [H0 H0'].
  destruct (insert_new_component_invariant empty_heap scenario_root
              (UIRect.mk 0 0 320 240) "root" true true 0 H0 H0' eq_refl eq_refl)
    as [H1 H1'].
  destruct (insert_new_component_invariant _ scenario_button
              (UIRect.mk 10 10 50 30) "button" true true 0 H1 H1' eq_refl eq_refl)
    as [H2 H2'].
  by apply add_child_keeps_invariant.
Qed.

(** C2, as amended: the parent/child invariant, together with the absence
    of duplicates in child sequences, is kept by [add_child(c)] whenever [c]
    has no parent at the time of the call, and by [remove_child] always. *)
Theorem tree_operations_keep_invariant (h : ref -> UIComponent) (self child : ref) :
  parent_child_invariant h -> children_distinct h ->
  (parent (h child) = None ->
   parent_child_invariant (add_child self child h)
   /\ children_distinct (add_child self child h))
  /\ (parent_child_invariant (remove_child self child h)
      /\ children_distinct (remove_child self child h)).
Proof.
  intros Hinv Hnd. split.
  - intros Hfree. by apply add_child_keeps_invariant.
  - by apply remove_child_keeps_invariant.
Qed.

Lemma tree_operations_keep_invariant_witness :
  (parent (scenario_heap 2%nat) = None ->
   parent_child_invariant (add_child scenario_root 2%nat scenario_heap)
   /\ children_distinct (add_child scenario_root 2%nat scenario_heap))
  /\ (parent_child_invariant (remove_child scenario_root 2%nat scenario_heap)
      /\ children_distinct (remove_child scenario_root 2%nat scenario_heap)).
Proof.
  apply (tree_operations_keep_invariant scenario_heap scenario_root 2%nat);
    apply scenario_heap_invariant.
Defined.

(** C2, as stated, fails: giving a node that has a parent to a second
    parent leaves it in the first parent's children, and removing a node
    that was added twice leaves one occurrence behind with no parent. *)
Lemma reparenting_breaks_invariant :
  parent_child_invariant scenario_heap
  /\ ~ parent_child_invariant (add_child 2%nat scenario_button scenario_heap)
  /\ parent_child_invariant (add_child scenario_root scenario_button scenario_heap)
  /\ ~ parent_child_invariant
         (remove_child scenario_root scenario_button
            (add_child scenario_root scenario_button scenario_heap)).
Proof.
  split_and!.
  - apply scenario_heap_invariant.
  - intros Hinv.
    assert (Hin : scenario_button ∈
                  children (add_child 2%nat scenario_button scenario_heap scenario_root))
      by (vm_compute; apply list_elem_of_here).
    apply Hinv in Hin. vm_compute in Hin. discriminate.
  - intros n p. rewrite children_add_child, parent_add_child.
    destruct scenario_heap_invariant as [Hinv _].
    destruct (decide (scenario_root = p)) as [<-|Hp],
             (decide (scenario_button = n)) as [<-|Hn]; simpl.
    + split; [done|]. intros _. vm_compute. apply list_elem_of_here.
    + rewrite <- (Hinv n scenario_root).
      change (children (scenario_heap scenario_root)) with [scenario_button].
      rewrite !elem_of_cons. tauto.
    + rewrite (Hinv scenario_button p). vm_compute. split; congruence.
    + apply Hinv.
  - intros Hinv.
    assert (Hin : scenario_button ∈
                  children (remove_child scenario_root scenario_button
                              (add_child scenario_root scenario_button scenario_heap)
                              scenario_root))
      by (vm_compute; apply list_elem_of_here).
    apply Hinv in Hin. vm_compute in Hin. discriminate.
Qed.

(** C6, as amended: when [c] is not already among [p]'s children,
    [p.add_child(c)] followed by [p.remove_child(c)] leaves [c] without a
    parent and outside [p.children]. *)
Theorem add_then_remove_child (h : ref -> UIComponent) (p c : ref) :
  c ∉ children (h p) ->
  let h' := remove_child p c (add_child p c h) in
  parent (h' c) = None /\ c ∉ children (h' p).
Proof.
  intros Hnew h'. subst h'.
  assert (Hin : c ∈ children (add_child p c h p)).
  { rewrite children_add_child, decide_True by done.
    apply elem_of_app. right. apply list_elem_of_here. }
  rewrite parent_remove_child, children_remove_child by done.
  rewrite !decide_True by done. split; [done|].
  rewrite children_add_child, decide_True by done.
  by rewrite list_remove_first_app_new.
Qed.

Lemma add_then_remove_child_witness :
  let h' := remove_child scenario_root 2%nat
              (add_child scenario_root 2%nat scenario_heap) in
  parent (h' 2%nat) = None /\ 2%nat ∉ children (h' scenario_root).
Proof.
  apply (add_then_remove_child scenario_heap scenario_root 2%nat).
  vm_compute. intros Hin. apply list_elem_of_singleton in Hin. discriminate.
Defined.

(** C6, as stated, fails when [c] is already a child of [p]: the second
    occurrence survives the removal. *)
Lemma add_then_remove_existing_child :
  let h' := remove_child scenario_root scenario_button
              (add_child scenario_root scenario_button scenario_heap) in
  scenario_button ∈ children (h' scenario_root).
Proof. vm_compute. apply list_elem_of_here. Qed.

(** ** Hit testing *)

(** C1, as amended: in the scenario, [root.hit_test(30, 20)] is the button
    and [root.hit_test(200, 200)] is the root container itself, since the
    point lies in the root's rectangle and in no child's. *)
Theorem hit_test_scenario (d : nat) :
  hit_test (S (S d)) scenario_heap scenario_root 30 20
    = Returned (Some scenario_button)
  /\ hit_test (S (S d)) scenario_heap scenario_root 200 200
    = Returned (Some scenario_root).
Proof. split; reflexivity. Qed.

(** C1, as stated, fails in its second half: the answer at (200, 200) is a
    node, not [None]. *)
Lemma hit_test_scenario_outside_child :
  hit_test 1000 scenario_heap scenario_root 200 200 <> Returned None.
Proof. vm_compute. discriminate. Qed.

Lemma contains_spec (r : UIRect.t) (px py : Z) :
  UIRect.contains r px py = true
  <-> (UIRect.x r <= px <= UIRect.x r + UIRect.width r
       /\ UIRect.y r <= py <= UIRect.y r + UIRect.height r)%Z.
Proof.
  unfold UIRect.contains, UIRect.right, UIRect.bottom.
  rewrite !andb_true_iff, !Z.leb_le. tauto.
Qed.

Lemma hit_test_leaf (h : ref -> UIComponent) (n : ref) (d : nat) (px py : Z) :
  visible (h n) = true -> enabled (h n) = true -> children (h n) = [] ->
  hit_test (S d) h n px py
  = if UIRect.contains (rect (h n)) px py then Returned (Some n) else Returned None.
Proof.
  intros Hv He Hc. simpl. rewrite Hv, He, Hc. reflexivity.
Qed.

(** C10, as amended: for a visible, enabled node without children whose
    rectangle has non-negative width and height, the far corner
    [(x + width, y + height)] hits the node; more generally the node is hit
    exactly at the points with [x <= px <= x + width] and
    [y <= py <= y + height]. *)
Theorem hit_test_edges_inclusive (h : ref -> UIComponent) (n : ref) (d : nat) :
  visible (h n) = true -> enabled (h n) = true -> children (h n) = [] ->
  (0 <= UIRect.width (rect (h n)))%Z -> (0 <= UIRect.height (rect (h n)))%Z ->
  hit_test (S d) h n (UIRect.x (rect (h n)) + UIRect.width (rect (h n)))
                     (UIRect.y (rect (h n)) + UIRect.height (rect (h n)))
    = Returned (Some n)
  /\ forall px py : Z,
       hit_test (S d) h n px py = Returned (Some n)
       <-> (UIRect.x (rect (h n)) <= px <= UIRect.x (rect (h n)) + UIRect.width (rect (h n))
            /\ UIRect.y (rect (h n)) <= py <= UIRect.y (rect (h n)) + UIRect.height (rect (h n)))%Z.
Proof.
  intros Hv He Hc Hw Hh. split.
  - rewrite hit_test_leaf by done.
    rewrite (proj2 (contains_spec _ _ _)); [done | lia].
  - intros px py. rewrite hit_test_leaf by done. rewrite <- contains_spec.
    destruct (UIRect.contains _ _ _); split; congruence.
Qed.

Lemma hit_test_edges_inclusive_witness :
  hit_test 1 scenario_heap scenario_button (10 + 50) (10 + 30)
    = Returned (Some scenario_button)
  /\ forall px py : Z,
       hit_test 1 scenario_heap scenario_button px py = Returned (Some scenario_button)
       <-> (10 <= px <= 10 + 50 /\ 10 <= py <= 10 + 30)%Z.
Proof.
  apply (hit_test_edges_inclusive scenario_heap scenario_button 0);
    first [reflexivity | vm_compute; discriminate].
Defined.

(** C10, as stated, fails for a rectangle of negative extent: the corner
    [(x + width, y + height)] is then outside it. *)
Lemma hit_test_corner_negative_extent :
  visible (inverted_heap 0%nat) = true
  /\ enabled (inverted_heap 0%nat) = true
  /\ children (inverted_heap 0%nat) = []
  /\ hit_test 1000 inverted_heap 0%nat (5 + -2) (5 + -2) = Returned None.
Proof. vm_compute. done. Qed.

(** *** The order in which [hit_test] visits siblings *)

Section SortedByKey.
Variable key : ref -> Z.

Lemma elem_of_insert_by_key (c x : ref) (l : list ref) :
  x ∈ insert_by_key key c l <-> x = c \/ x ∈ l.
Proof.
  induction l as [|d l IH]; simpl.
  - rewrite list_elem_of_singleton, elem_of_nil. tauto.
  - destruct (key c <=? key d)%Z.
    + rewrite elem_of_cons. tauto.
    + rewrite !elem_of_cons, IH. tauto.
Qed.

Lemma elem_of_sorted_by_key (x : ref) (l : list ref) :
  x ∈ sorted_by_key key l <-> x ∈ l.
Proof.
  induction l as [|d l IH]; simpl; [done|].
  rewrite elem_of_insert_by_key, elem_of_cons, IH. tauto.
Qed.

Lemma insert_by_key_sorted (c : ref) (l : list ref) :
  StronglySorted (key_le key) l -> StronglySorted (key_le key) (insert_by_key key c l).
Proof.
  induction 1 as [|d l Hs IH Hall]; simpl.
  - repeat constructor.
  - destruct (key c <=? key d)%Z eqn:Hcmp.
    + apply Z.leb_le in Hcmp. constructor; [by constructor|].
      constructor; [done|].
      eapply Forall_impl; [exact Hall|]. unfold key_le. intros; simpl in *; lia.
    + apply Z.leb_gt in Hcmp. constructor; [done|].
      apply Forall_forall. intros x Hx.
      apply elem_of_insert_by_key in Hx as [->|Hx].
      * unfold key_le. lia.
      * by eapply Forall_forall in Hall.
Qed.

Lemma sorted_by_key_sorted (l : list ref) :
  StronglySorted (key_le key) (sorted_by_key key l).
Proof.
  induction l; simpl; [constructor | by apply insert_by_key_sorted].
Qed.

(** Where a new element lands in a sorted list: in front of the first
    element whose key is at least its own. *)
Lemma insert_by_key_split (c : ref) (l : list ref) :
  StronglySorted (key_le key) l ->
  exists lo hi, insert_by_key key c l = lo ++ c :: hi
                /\ l = lo ++ hi
                /\ Forall (fun d => key c <= key d)%Z hi.
Proof.
  induction 1 as [|d l Hs IH Hall]; simpl.
  - exists [], []. by repeat split.
  - destruct (key c <=? key d)%Z eqn:Hcmp.
    + apply Z.leb_le in Hcmp. exists [], (d :: l). repeat split.
      constructor; [done|].
      eapply Forall_impl; [exact Hall|]. unfold key_le. intros; simpl in *; lia.
    + destruct IH as (lo & hi & -> & -> & Hhi).
      exists (d :: lo), hi. by repeat split.
Qed.

Lemma insert_by_key_app (b : ref) (l1 l2 : list ref) :
  (exists l1', insert_by_key key b (l1 ++ l2) = l1' ++ l2)
  \/ insert_by_key key b (l1 ++ l2) = l1 ++ insert_by_key key b l2.
Proof.
  induction l1 as [|d l1 IH]; simpl; [by right|].
  destruct (key b <=? key d)%Z.
  - left. by exists (b :: d :: l1).
  - destruct IH as [[l1' ->]| ->]; [left | by right].
    by exists (d :: l1').
Qed.

(** Stability, in the form the hit test needs.  Let [w] be a sibling such
    that every sibling of interest before it has a key not above its own,
    and every one after it a key strictly below.  Then every element that
    the sorted sequence places after [w] is of no interest. *)
Lemma sorted_by_key_winner (P : ref -> Prop) (before after : list ref) (w : ref) :
  (forall c, c ∈ before -> P c -> (key c <= key w)%Z) ->
  (forall c, c ∈ after -> P c -> (key c < key w)%Z) ->
  exists lo hi,
    sorted_by_key key (before ++ w :: after) = lo ++ w :: hi
    /\ forall c, c ∈ hi -> ~ P c.
Proof.
  intros Hbefore Hafter. induction before as [|b before IH]; simpl.
  - destruct (insert_by_key_split w (sorted_by_key key after)
                (sorted_by_key_sorted after)) as (lo & hi & -> & Hl & Hhi).
    exists lo, hi. split; [done|]. intros c Hc HP.
    assert (c ∈ after) as Hin.
    { apply elem_of_sorted_by_key. rewrite Hl, elem_of_app. by right. }
    eapply Forall_forall in Hhi; [|exact Hc].
    specialize (Hafter c Hin HP). simpl in Hhi. lia.
  - destruct IH as (lo & hi & Heq & Hhi).
    { intros c Hc. apply Hbefore. by apply list_elem_of_further. }
    rewrite Heq.
    destruct (insert_by_key_app b lo (w :: hi)) as [[lo' ->]| ->].
    + by exists lo', hi.
    + simpl. destruct (key b <=? key w)%Z eqn:Hcmp.
      * exists (lo ++ [b]), hi. split; [by rewrite <- app_assoc|done].
      * apply Z.leb_gt in Hcmp. exists lo, (insert_by_key key b hi).
        split; [done|]. intros c Hc HP.
        apply elem_of_insert_by_key in Hc as [->|Hc]; [|by eapply Hhi].
        specialize (Hbefore b (list_elem_of_here _ _) HP). lia.
Qed.

End SortedByKey.

Lemma elem_of_rev (c : ref) (l : list ref) : c ∈ rev l <-> c ∈ l.
Proof. rewrite !list_elem_of_In. symmetry. apply in_rev. Qed.

Lemma first_hit_skip (probe : ref -> outcome (option ref)) (self : ref)
    (pre post : list ref) :
  (forall c, c ∈ pre -> probe c = Returned None) ->
  first_hit probe self (pre ++ post) = first_hit probe self post.
Proof.
  induction pre as [|c pre IH]; simpl; [done|].
  intros Hpre. rewrite (Hpre c) by apply list_elem_of_here.
  apply IH. intros c' Hc'. apply Hpre. by apply list_elem_of_further.
Qed.

Lemma first_hit_resolves (probe : ref -> outcome (option ref)) (self : ref)
    (cs : list ref) :
  first_hit probe self cs <> Returned None.
Proof.
  induction cs as [|c cs IH]; simpl; [done|].
  destruct (probe c) as [[r|]|e]; done.
Qed.

Lemma hit_test_unresponsive (h : ref -> UIComponent) (c : ref) (d : nat) (px py : Z) :
  ~ responsive h c -> hit_test (S d) h c px py = Returned None.
Proof.
  unfold responsive. intros Hnot. simpl.
  destruct (visible (h c)), (enabled (h c)); simpl; try done.
  exfalso. by apply Hnot.
Qed.

Lemma hit_test_resolves (h : ref -> UIComponent) (c : ref) (d : nat) (px py : Z) :
  responsive h c -> UIRect.contains (rect (h c)) px py = true ->
  hit_test (S d) h c px py <> Returned None.
Proof.
  intros [Hv He] Hc. simpl. rewrite Hv, He, Hc. simpl.
  apply first_hit_resolves.
Qed.

(** C5, as amended: let the parent be visible and enabled with a rectangle
    that contains the point, and let every visible, enabled child contain
    the point too.  Take the visible, enabled child [w] of highest z-index,
    the last such one in the child sequence among equals.  Then the parent's
    hit test gives what the hit test of [w] gives, which is [w] itself when
    [w] has no children (and otherwise may be a descendant of [w]). *)
Theorem hit_test_topmost_sibling (h : ref -> UIComponent) (p w : ref)
    (before after : list ref) (px py : Z) (d : nat) :
  responsive h p -> UIRect.contains (rect (h p)) px py = true ->
  children (h p) = before ++ w :: after ->
  (forall c, c ∈ children (h p) -> responsive h c ->
             UIRect.contains (rect (h c)) px py = true) ->
  responsive h w ->
  (forall c, c ∈ before -> responsive h c -> (z_index (h c) <= z_index (h w))%Z) ->
  (forall c, c ∈ after -> responsive h c -> (z_index (h c) < z_index (h w))%Z) ->
  hit_test (S (S d)) h p px py = hit_test (S d) h w px py
  /\ (children (h w) = [] -> hit_test (S (S d)) h p px py = Returned (Some w)).
Proof.
  intros [Hv He] Hin Hkids Hall Hw Hbefore Hafter.
  assert (Hcw : UIRect.contains (rect (h w)) px py = true).
  { apply Hall; [|done]. rewrite Hkids, elem_of_app. right. apply list_elem_of_here. }
  assert (Hstep : hit_test (S (S d)) h p px py = hit_test (S d) h w px py).
  { change (hit_test (S (S d)) h p px py) with
      (if negb (visible (h p)) || negb (enabled (h p)) then Returned None
       else if UIRect.contains (rect (h p)) px py then
         first_hit (fun child => hit_test (S d) h child px py) p
           (rev (sorted_by_key (fun c => z_index (h c)) (children (h p))))
       else Returned None).
    rewrite Hv, He, Hin, Hkids. simpl negb. simpl orb. cbv iota.
    destruct (sorted_by_key_winner (fun c => z_index (h c)) (responsive h)
                before after w Hbefore Hafter) as (lo & hi & -> & Hhi).
    rewrite rev_app_distr. simpl rev. rewrite <- app_assoc.
    rewrite first_hit_skip.
    - simpl app. cbn [first_hit].
      pose proof (hit_test_resolves h w d px py Hw Hcw) as Hres.
      destruct (hit_test (S d) h w px py) as [[r|]|e]; done.
    - intros c Hc. apply hit_test_unresponsive. apply Hhi.
      by apply elem_of_rev. }
  split; [done|].
  intros Hleaf. rewrite Hstep. destruct Hw as [Hvw Hew].
  rewrite hit_test_leaf by done. by rewrite Hcw.
Qed.

Lemma hit_test_topmost_sibling_witness :
  hit_test 2 overlap_heap 0%nat 5 5 = hit_test 1 overlap_heap 1%nat 5 5
  /\ (children (overlap_heap 1%nat) = [] ->
      hit_test 2 overlap_heap 0%nat 5 5 = Returned (Some 1%nat)).
Proof.
  apply (hit_test_topmost_sibling overlap_heap 0%nat 1%nat [] [2%nat] 5 5 0).
  - split; reflexivity.
  - reflexivity.
  - reflexivity.
  - intros c Hc _. vm_compute in Hc.
    apply elem_of_cons in Hc as [->|Hc]; [reflexivity|].
    apply list_elem_of_singleton in Hc as ->. reflexivity.
  - split; reflexivity.
  - intros c Hc. by apply elem_of_nil in Hc.
  - intros c Hc _. apply list_elem_of_singleton in Hc as ->. vm_compute. done.
Defined.

(** C5, as stated, fails in two ways: a parent whose own rectangle misses
    the point answers [None] whatever its children contain, and a sibling
    that has a child under the point yields that child, not the sibling. *)
Lemma hit_test_sibling_gate_and_descendant :
  (children (offside_heap 0%nat) = [1%nat]
   /\ responsive offside_heap 1%nat
   /\ UIRect.contains (rect (offside_heap 1%nat)) 25 25 = true
   /\ hit_test 1000 offside_heap 0%nat 25 25 = Returned None)
  /\ (children (nested_heap 0%nat) = [1%nat]
      /\ responsive nested_heap 1%nat
      /\ UIRect.contains (rect (nested_heap 1%nat)) 5 5 = true
      /\ hit_test 1000 nested_heap 0%nat 5 5 = Returned (Some 2%nat)).
Proof. vm_compute. repeat split. Qed.

(** ** Screens *)

Ltac run_monad :=
  unfold mbind, mret, M_bind, M_ret, gets, modify, log_call, external, print,
    raise, lift, alter_node, alter_screen, alter_manager; simpl.

(** C8: switching to a name that is not registered returns normally; the
    manager, every screen and every node are as before, no [on_exit] or
    [on_enter] has been called, and one line reports the failure. *)
Theorem switch_screen_unknown (w : World) (screen_name : string)
    (transition : option string) :
  screens (manager (st w)) !! screen_name = None ->
  switch_screen screen_name transition w
  = (mk_world (set_stdout (stdout (st w) ++ ["Screen '" +:+ screen_name +:+ "' not found"])
                 (st w))
       (trace w),
     Returned tt).
Proof.
  intros Hunknown. unfold switch_screen. run_monad. rewrite Hunknown. reflexivity.
Qed.

Lemma switch_screen_unknown_witness :
  switch_screen "nonexistent" None scenario_world
  = (mk_world (set_stdout (stdout (st scenario_world)
                             ++ ["Screen '" +:+ "nonexistent" +:+ "' not found"])
                 (st scenario_world))
       (trace scenario_world),
     Returned tt).
Proof.
  apply (switch_screen_unknown scenario_world "nonexistent" None).
  vm_compute. reflexivity.
Defined.

(** ** Event dispatch *)

Lemma guarded_call `{Environment} (hd : handler) (a : arguments) (w : World) :
  (forall e, (call_handler hd a (st w)).2 = Raised e ->
             derives_from_Exception (exn_type e) = true) ->
  try_except_Exception
    (log_call (CallHandler hd a);; external (call_handler hd a))
    (fun e => print ("Error in event handler: " +:+ exn_str e)) w
  = (mk_world (handlers_in_order [hd] a (st w)) (trace w ++ [CallHandler hd a]),
     Returned tt).
Proof.
  intros Hcontained. unfold try_except_Exception. run_monad.
  destruct (call_handler hd a (st w)) as [s' [[]|e]]; simpl in *; [done|].
  by rewrite (Hcontained e).
Qed.

(** A handler ending with an exception outside [Exception] ends the loop. *)
Lemma guarded_call_fatal `{Environment} (hd : handler) (a : arguments) (w : World)
    (e : exn) :
  (call_handler hd a (st w)).2 = Raised e ->
  derives_from_Exception (exn_type e) = false ->
  try_except_Exception
    (log_call (CallHandler hd a);; external (call_handler hd a))
    (fun e => print ("Error in event handler: " +:+ exn_str e)) w
  = (mk_world (call_handler hd a (st w)).1 (trace w ++ [CallHandler hd a]),
     Raised e).
Proof.
  intros Hraised Hfatal. unfold try_except_Exception. run_monad.
  destruct (call_handler hd a (st w)) as [s' r]; simpl in *. subst r.
  by rewrite Hfatal.
Qed.

Lemma handlers_in_order_cons `{Environment} (hd : handler) (handlers : list handler)
    (a : arguments) (s : State) :
  handlers_in_order (hd :: handlers) a s
  = handlers_in_order handlers a (handlers_in_order [hd] a s).
Proof. reflexivity. Qed.

Lemma handlers_in_order_app `{Environment} (l1 l2 : list handler)
    (a : arguments) (s : State) :
  handlers_in_order (l1 ++ l2) a s
  = handlers_in_order l2 a (handlers_in_order l1 a s).
Proof. apply foldl_app. Qed.

Lemma handlers_in_order_one_heap `{Environment} (hd : handler) (a : arguments)
    (s : State) :
  heap (handlers_in_order [hd] a s) = heap (call_handler hd a s).1.
Proof. simpl. by destruct (call_handler hd a s) as [s' [[]|e]]. Qed.


(** One turn of the loop. *)
Lemma emit_from_step `{Environment} (budget : nat) (self : ref)
    (event : event_key) (a : arguments) (index : nat) (w : World) :
  emit_from budget self event a index w
  = match handlers_of (st w) (Some self) event !! index with
    | None => (w, Returned tt)
    | Some hd =>
        match budget with
        | O => (w, Raised unfollowed)
        | S budget' =>
            match try_except_Exception
                    (log_call (CallHandler hd a);; external (call_handler hd a))
                    (fun e => print ("Error in event handler: " +:+ exn_str e)) w
            with
            | (w', Returned _) => emit_from budget' self event a (S index) w'
            | (w', Raised e) => (w', Raised e)
            end
        end
    end.
Proof.
  destruct budget; cbn [emit_from handlers_of];
    unfold mbind at 1, M_bind at 1, gets at 1; cbn beta iota;
    destruct (default [] (event_handlers (heap (st w) self) !! event) !! index);
    reflexivity.
Qed.

(** The handlers of a stretch of the list, none of which touches the list
    or ends with an exception outside [Exception], are called one after
    the other. *)
Lemma emit_from_stretch `{Environment} (self : ref) (event : event_key)
    (a : arguments) (stretch : list handler) (budget index : nat) (w : World) :
  (forall k hd, stretch !! k = Some hd ->
     handlers_of (st w) (Some self) event !! (index + k)%nat = Some hd) ->
  (forall hd, hd ∈ stretch -> keeps_handlers_of self event a hd) ->
  (forall hd s e, hd ∈ stretch -> (call_handler hd a s).2 = Raised e ->
                  derives_from_Exception (exn_type e) = true) ->
  emit_from (length stretch + budget) self event a index w
  = emit_from budget self event a (index + length stretch)
      (mk_world (handlers_in_order stretch a (st w))
         (trace w ++ map (fun hd => CallHandler hd a) stretch)).
Proof.
  revert index w.
  induction stretch as [|hd stretch IH]; intros index w Hthere Hkeep Hcontained.
  { simpl. rewrite Nat.add_0_r, app_nil_r. by destruct w. }
  rewrite emit_from_step.
  rewrite <- (Nat.add_0_r index) at 1. rewrite (Hthere 0%nat hd eq_refl).
  cbn [length Nat.add].
  rewrite guarded_call
    by (intros e; apply Hcontained, list_elem_of_here).
  rewrite IH.
  - cbn [st trace map length]. rewrite <- app_assoc.
    by replace (S index + length stretch)%nat
      with (index + S (length stretch))%nat by lia.
  - intros k hd' Hk. cbn [st handlers_of].
    rewrite handlers_in_order_one_heap.
    rewrite (Hkeep hd (list_elem_of_here _ _) (st w)).
    replace (S index + k)%nat with (index + S k)%nat by lia.
    by apply (Hthere (S k)).
  - intros hd' Hin. apply Hkeep. by apply list_elem_of_further.
  - intros hd' s e Hin. apply Hcontained. by apply list_elem_of_further.
Qed.

Lemma handlers_in_order_keeps_handlers `{Environment} (self : ref)
    (event : event_key) (a : arguments) (handlers : list handler) (s : State) :
  (forall hd, hd ∈ handlers -> keeps_handlers_of self event a hd) ->
  handlers_of (handlers_in_order handlers a s) (Some self) event
  = handlers_of s (Some self) event.
Proof.
  revert s. induction handlers as [|hd handlers IH]; intros s Hkeep; [done|].
  rewrite handlers_in_order_cons, IH
    by (intros hd' Hin; apply Hkeep; by apply list_elem_of_further).
  cbn [handlers_of]. rewrite handlers_in_order_one_heap.
  by rewrite (Hkeep hd (list_elem_of_here _ _) s).
Qed.

(** The whole list, from its start. *)
Lemma emit_from_all `{Environment} (self : ref) (event : event_key)
    (a : arguments) (budget : nat) (w : World) :
  let handlers := handlers_of (st w) (Some self) event in
  (length handlers <= budget)%nat ->
  (forall hd, hd ∈ handlers -> keeps_handlers_of self event a hd) ->
  (forall hd s e, hd ∈ handlers -> (call_handler hd a s).2 = Raised e ->
                  derives_from_Exception (exn_type e) = true) ->
  emit_from budget self event a 0 w
  = (mk_world (handlers_in_order handlers a (st w))
       (trace w ++ map (fun hd => CallHandler hd a) handlers),
     Returned tt).
Proof.
  intros handlers Hbudget Hkeep Hcontained.
  replace budget with (length handlers + (budget - length handlers))%nat by lia.
  rewrite emit_from_stretch; [|done|done|done].
  rewrite emit_from_step. cbn [st].
  rewrite handlers_in_order_keeps_handlers by done. fold handlers.
  by rewrite lookup_ge_None_2 by (simpl; lia).
Qed.

(** The list up to and including the first handler that ends with an
    exception outside [Exception]. *)
Lemma emit_from_fatal `{Environment} (self : ref) (event : event_key)
    (a : arguments) (budget : nat) (w : World) (pre post : list handler)
    (hd : handler) (e : exn) :
  handlers_of (st w) (Some self) event = pre ++ hd :: post ->
  (length pre < budget)%nat ->
  (forall hd', hd' ∈ pre -> keeps_handlers_of self event a hd') ->
  (forall hd' s e', hd' ∈ pre -> (call_handler hd' a s).2 = Raised e' ->
                    derives_from_Exception (exn_type e') = true) ->
  (call_handler hd a (handlers_in_order pre a (st w))).2 = Raised e ->
  derives_from_Exception (exn_type e) = false ->
  emit_from budget self event a 0 w
  = (mk_world (call_handler hd a (handlers_in_order pre a (st w))).1
       (trace w ++ map (fun hd' => CallHandler hd' a) (pre ++ [hd])),
     Raised e).
Proof.
  intros Hlist Hbudget Hkeep Hcontained Hraised Hfatal.
  replace budget with (length pre + S (budget - S (length pre)))%nat by lia.
  rewrite emit_from_stretch; [| |done|done].
  2:{ intros k hd' Hk. rewrite Hlist. simpl.
      by rewrite lookup_app_l by (by eapply lookup_lt_Some). }
  rewrite emit_from_step. cbn [st].
  rewrite handlers_in_order_keeps_handlers by done. rewrite Hlist. simpl.
  rewrite list_lookup_middle by done.
  rewrite (guarded_call_fatal hd a _ e) by done.
  cbn [st trace]. by rewrite map_app, <- app_assoc.
Qed.

(** [emit] itself, where no handler interferes. *)
Lemma emit_all `{Environment} (self : ref) (event : event_key) (a : arguments)
    (w : World) :
  let handlers := handlers_of (st w) (Some self) event in
  (length handlers <= iteration_budget)%nat ->
  (forall hd, hd ∈ handlers -> keeps_handlers_of self event a hd) ->
  (forall hd s e, hd ∈ handlers -> (call_handler hd a s).2 = Raised e ->
                  derives_from_Exception (exn_type e) = true) ->
  emit self event a w
  = (mk_world (handlers_in_order handlers a (st w))
       (trace w ++ CallEmit self event :: map (fun hd => CallHandler hd a) handlers),
     Returned tt).
Proof.
  intros handlers Hbudget Hkeep Hcontained.
  unfold emit. unfold mbind at 1 2, M_bind at 1 2, log_call at 1, gets at 1.
  cbn beta iota. cbn [st].
  destruct (event_handlers (heap (st w) self) !! event) as [hs|] eqn:Htable.
  - rewrite emit_from_all by done.
    cbn [st trace]. fold handlers. by rewrite <- app_assoc.
  - subst handlers. cbn [handlers_of]. rewrite Htable. simpl.
    by destruct w.
Qed.

(** C7, as amended.  Let no handler registered for the kind change the
    node's handler list for that kind while [emit] runs (and let the list
    be within the budget followed).  Then [emit] calls every handler
    registered for the kind, in registration order; a handler that raises
    an exception deriving from [Exception] has it caught and reported on
    one output line, the remaining handlers still run, and [emit] returns
    normally.  With no handler registered for the kind, [emit] returns
    normally and leaves the whole state, the node included, as it was.  An
    exception that derives from [BaseException] only is not caught: it
    leaves [emit], and the handlers after the one that raised it are not
    called. *)
Theorem emit_runs_every_handler `{Environment} (w : World) (self : ref)
    (event : event_key) (a : arguments) :
  let handlers := handlers_of (st w) (Some self) event in
  (length handlers <= iteration_budget)%nat ->
  (forall hd, hd ∈ handlers -> keeps_handlers_of self event a hd) ->
  ((forall hd s e, hd ∈ handlers -> (call_handler hd a s).2 = Raised e ->
                   derives_from_Exception (exn_type e) = true) ->
   emit self event a w
   = (mk_world (handlers_in_order handlers a (st w))
        (trace w ++ CallEmit self event :: map (fun hd => CallHandler hd a) handlers),
      Returned tt))
  /\ (handlers = [] ->
      emit self event a w
      = (mk_world (st w) (trace w ++ [CallEmit self event]), Returned tt))
  /\ (forall pre hd post e,
        handlers = pre ++ hd :: post ->
        (forall hd' s e', hd' ∈ pre -> (call_handler hd' a s).2 = Raised e' ->
                          derives_from_Exception (exn_type e') = true) ->
        (call_handler hd a (handlers_in_order pre a (st w))).2 = Raised e ->
        derives_from_Exception (exn_type e) = false ->
        emit self event a w
        = (mk_world (call_handler hd a (handlers_in_order pre a (st w))).1
             (trace w ++ CallEmit self event
                         :: map (fun hd' => CallHandler hd' a) (pre ++ [hd])),
           Raised e)).
Proof.
  intros handlers Hbudget Hkeep. split_and!.
  - intros Hcontained. by apply emit_all.
  - intros Hnone.
    rewrite emit_all; [|done|done|].
    + fold handlers. by rewrite Hnone.
    + fold handlers. rewrite Hnone. intros hd s e Hin. by apply elem_of_nil in Hin.
  - intros pre hd post e Hsplit Hcontained Hraised Hfatal.
    unfold emit. unfold mbind at 1 2, M_bind at 1 2, log_call at 1, gets at 1.
    cbn beta iota. cbn [st].
    destruct (event_handlers (heap (st w) self) !! event) as [hs|] eqn:Htable.
    2:{ subst handlers. cbn [handlers_of] in Hsplit. rewrite Htable in Hsplit.
        by destruct pre. }
    assert (Hlen : (length pre < iteration_budget)%nat).
    { revert Hbudget. rewrite Hsplit, length_app. simpl. lia. }
    rewrite (emit_from_fatal self event a iteration_budget _ pre post hd e);
      cbn [st trace]; try done.
    + by rewrite <- app_assoc.
    + intros hd' Hin. apply Hkeep. rewrite Hsplit, elem_of_app. by left.
Qed.

Lemma emit_runs_every_handler_witness :
  let handlers := handlers_of (st wired_world) (Some scenario_button) (Member CLICK) in
  (@emit failing_environment scenario_button (Member CLICK) no_arguments wired_world
   = (mk_world (@handlers_in_order failing_environment handlers no_arguments
                  (st wired_world))
        (trace wired_world
         ++ CallEmit scenario_button (Member CLICK)
            :: map (fun hd => CallHandler hd no_arguments) handlers),
      Returned tt))
  /\ handlers = [0%nat; 1%nat].
Proof.
  split; [|reflexivity].
  apply (@emit_runs_every_handler failing_environment wired_world scenario_button
           (Member CLICK) no_arguments).
  - vm_compute. lia.
  - intros hd _ s. simpl. by case_decide.
  - intros hd s e _. simpl. case_decide; intros [= <-]; reflexivity.
Defined.

Lemma regrowing_never_ends (budget fuel index : nat) (w : World) :
  (index < length (handlers_of (st w) (Some scenario_button) (Member CLICK)))%nat ->
  (@emit_from (regrowing_environment budget) fuel scenario_button (Member CLICK)
     no_arguments index w).2 = Raised unfollowed.
Proof.
  revert index w. induction fuel as [|fuel IH]; intros index w Hlong.
  - rewrite emit_from_step.
    destruct (lookup_lt_is_Some_2 _ _ Hlong) as [hd ->]. reflexivity.
  - rewrite emit_from_step.
    destruct (lookup_lt_is_Some_2 _ _ Hlong) as [hd ->].
    rewrite guarded_call by done. apply IH.
    cbn [st handlers_of] in *. rewrite handlers_in_order_one_heap. simpl.
    rewrite lookup_insert_eq. simpl. rewrite length_app. simpl. lia.
Qed.

(** C7, as stated, fails in two ways.  An exception outside [Exception]
    is not caught: the first handler exits the interpreter with
    [SystemExit], [emit] lets it through and the second handler is never
    called.  And [emit] need not return at all: it walks the list that
    [on] appends to, so with a handler that registers a handler whenever it
    is called the loop is still going after any number of calls. *)
Lemma emit_propagates_system_exit :
  (event_handlers (heap (st wired_world) scenario_button) !! Member CLICK
     = Some [0%nat; 1%nat]
   /\ @emit exiting_environment scenario_button (Member CLICK) no_arguments wired_world
      = (mk_world (st wired_world)
           [CallEmit scenario_button (Member CLICK); CallHandler 0%nat no_arguments],
         Raised (mk_exn SystemExit "0")))
  /\ (forall budget,
        (@emit (regrowing_environment budget) scenario_button (Member CLICK)
           no_arguments wired_world).2 = Raised unfollowed).
Proof.
  split; [split; vm_compute; reflexivity|].
  intros budget. unfold emit.
  unfold mbind at 1 2, M_bind at 1 2, log_call at 1, gets at 1. cbn beta iota.
  change (event_handlers (heap (st (mk_world (st wired_world)
            (trace wired_world ++ [CallEmit scenario_button (Member CLICK)])))
            scenario_button) !! Member CLICK) with (Some [0%nat; 1%nat]).
  cbv iota. apply regrowing_never_ends. vm_compute. lia.
Qed.

Example emit_contains_ordinary_failure :
  @emit failing_environment scenario_button (Member CLICK) no_arguments wired_world
  = (mk_world (set_stdout ["Error in event handler: boom"] (st wired_world))
       [CallEmit scenario_button (Member CLICK); CallHandler 0%nat no_arguments;
        CallHandler 1%nat no_arguments],
     Returned tt).
Proof. vm_compute. reflexivity. Qed.

(** A handler registered while the kind is being emitted is called in the
    same run. *)
Example emit_reaches_new_handler :
  trace (@emit registering_environment scenario_button (Member CLICK) no_arguments
           wired_world).1
  = [CallEmit scenario_button (Member CLICK); CallHandler 0%nat no_arguments;
     CallHandler 1%nat no_arguments; CallHandler 5%nat no_arguments].
Proof. vm_compute. reflexivity. Qed.

(** ** Input routing *)








Example handle_input_press_trace :
  @handle_input failing_environment (Member CLICK) (Some 30) (Some 20) [] wired_world
  = (mk_world
       (set_stdout ["Error in event handler: boom"]
          (set_manager
             (set_focused_component (Some scenario_button)
                (manager (st wired_world)))
             (st wired_world)))
       [CallEmit scenario_button (Member FOCUS);
        CallEmit scenario_button (Member CLICK);
        CallHandler 0%nat (mk_arguments [] []); CallHandler 1%nat (mk_arguments [] []);
        CallHandleEvent scenario_screen (Member CLICK)],
     Returned tt).
Proof. vm_compute. reflexivity. Qed.


(** ** Update *)

Lemma same_node_refl (s : State) (m : ref) : same_node s s m.
Proof. by split. Qed.

Lemma same_node_trans (s1 s2 s3 : State) (m : ref) :
  same_node s1 s2 m -> same_node s2 s3 m -> same_node s1 s3 m.
Proof.
  intros [Hobj Hraw] [Hobj' Hraw']. split; [congruence|].
  intros name. by rewrite Hraw', Hraw.
Qed.

Lemma same_children_refl (s : State) : same_children s s.
Proof. by intros n. Qed.

Lemma same_children_trans (s1 s2 s3 : State) :
  same_children s1 s2 -> same_children s2 s3 -> same_children s1 s3.
Proof. intros H12 H23 n. by rewrite H23, H12. Qed.

Lemma visibly_reachable_child (h : ref -> UIComponent) (n m c : ref) :
  visibly_reachable h n m -> c ∈ children (h m) -> visible (h c) = true ->
  visibly_reachable h n c.
Proof.
  induction 1 as [n|n c' m Hc' Hv' _ IH]; intros Hc Hv.
  - eapply reach_child; [done | done | constructor].
  - eapply reach_child; [done | done | by apply IH].
Qed.

(** Where a state differs from an earlier one only on the nodes reached
    from [self] there, and in no child sequence, whatever is reached in it
    from a node that was reached was reached already. *)
Lemma visibly_reachable_back (s s' : State) (self n m : ref) :
  (forall k, ~ visibly_reachable (heap s) self k -> heap s' k = heap s k) ->
  same_children s s' ->
  visibly_reachable (heap s') n m ->
  visibly_reachable (heap s) self n ->
  ~ ~ visibly_reachable (heap s) self m.
Proof.
  intros Hout Hkids. induction 1 as [n|n c m Hc Hv _ IH]; intros Hn Hm.
  - by apply Hm.
  - assert (Hnot : ~ ~ visibly_reachable (heap s) self c).
    { intros Hfar. apply Hfar.
      apply (visibly_reachable_child _ _ n); [done | by rewrite <- Hkids |].
      by rewrite <- (Hout c Hfar). }
    apply Hnot. intros Hreach. by apply IH.
Qed.

Section Confined.
Context `{Environment}.
Variable self : ref.

Lemma confined_ret {A} (a : A) : confined_to self (mret a : M A).
Proof. intros w. split; [intros n _; apply same_node_refl | done]. Qed.

Lemma confined_raise {A} (e : exn) : confined_to self (raise e : M A).
Proof. intros w. split; [intros n _; apply same_node_refl | done]. Qed.

Lemma confined_lift {A} (o : outcome A) : confined_to self (lift o).
Proof. intros w. split; [intros n _; apply same_node_refl | done]. Qed.

Lemma confined_gets {A} (f : State -> A) : confined_to self (gets f).
Proof. intros w. split; [intros n _; apply same_node_refl | done]. Qed.

Lemma confined_now : confined_to self now.
Proof. intros w. split; [intros n _; by split | done]. Qed.

Lemma confined_bind {A B} (m : M A) (k : A -> M B) :
  confined_to self m -> (forall a, confined_to self (k a)) ->
  confined_to self (m ≫= k).
Proof.
  intros Hm Hk w. unfold mbind, M_bind.
  destruct (Hm w) as [Hm1 Hm2]. destruct (m w) as [w1 [a|e]]; simpl in *.
  - destruct (Hk a w1) as [Hk1 Hk2]. split.
    + intros n Hn. eapply same_node_trans; [by apply Hm1 | by apply Hk1].
    + by eapply same_children_trans.
  - by split.
Qed.

Lemma confined_alter_node (f : UIComponent -> UIComponent) :
  (forall c, children (f c) = children c) ->
  confined_to self (alter_node f self).
Proof.
  intros Hf w. unfold alter_node, modify. simpl. split.
  - intros n Hn. split; [|done]. simpl. unfold alter, fn_alter.
    by rewrite decide_False.
  - intros m. simpl. unfold alter, fn_alter. case_decide; subst; [apply Hf | done].
Qed.

Lemma confined_getattr (name : string) : confined_to self (getattr self name).
Proof.
  unfold getattr. destruct (followed_name name);
    [apply confined_gets | apply confined_raise].
Qed.

Lemma confined_setattr (prop_name : string) (v : pyval) :
  confined_to self (setattr self prop_name v).
Proof.
  unfold setattr. destruct (followed_name prop_name); [|apply confined_raise].
  destruct (field_named prop_name) as [f|].
  - apply confined_bind.
    + apply confined_alter_node. intros c. by destruct f, v.
    + intros _ w. unfold modify. simpl. split; [|done].
      intros n Hn. split; [done|]. intros name. simpl.
      destruct (fits f v);
        [rewrite lookup_delete_ne | rewrite lookup_insert_ne]; congruence.
  - apply confined_alter_node. by intros c.
Qed.

Lemma confined_for_each {A} (l : list A) (body : A -> M unit) :
  (forall a, confined_to self (body a)) -> confined_to self (for_each l body).
Proof.
  intros Hbody. induction l as [|a l IH]; simpl.
  - apply confined_ret.
  - apply confined_bind; [apply Hbody | by intros _].
Qed.

Lemma confined_animation_step (current_time : float) (prop_name : string)
    (anim : animation) :
  confined_to self (animation_step self current_time prop_name anim).
Proof.
  unfold animation_step.
  apply confined_bind; [apply confined_lift | intros q].
  destruct (1 <=? min_one q)%float.
  { apply confined_bind; [apply confined_setattr | intros _; apply confined_ret]. }
  destruct (is_number (anim_from anim) && is_number (anim_to anim)).
  { apply confined_bind; [apply confined_lift | intros v].
    apply confined_bind; [apply confined_setattr | intros _; apply confined_ret]. }
  destruct (anim_from anim), (anim_to anim); try apply confined_ret.
  apply confined_bind; [apply confined_lift | intros v].
  apply confined_bind; [apply confined_setattr | intros _; apply confined_ret].
Qed.

Lemma confined_animation_steps (current_time : float)
    (items : list (string * animation)) :
  confined_to self (animation_steps self current_time items).
Proof.
  induction items as [|[prop_name anim] items IH]; simpl.
  - apply confined_ret.
  - apply confined_bind; [apply confined_animation_step | intros finished].
    apply confined_bind; [apply IH | intros more; apply confined_ret].
Qed.

Lemma confined_update_animations (dt : float) :
  confined_to self (_update_animations self dt).
Proof.
  unfold _update_animations.
  apply confined_bind; [apply confined_getattr | intros progress].
  apply confined_bind; [apply confined_lift | intros advanced].
  apply confined_bind; [apply confined_setattr | intros _].
  apply confined_bind; [apply confined_now | intros current_time].
  apply confined_bind; [apply confined_gets | intros items].
  apply confined_bind; [apply confined_animation_steps | intros to_remove].
  apply confined_for_each. intros prop_name.
  apply confined_alter_node. by intros c.
Qed.

End Confined.

(** What one [update] changes: only nodes it reaches through visible
    children, and on no node the child sequence. *)
Lemma update_frame `{Environment} (depth : nat) (self : ref) (dt : float) (w : World) :
  changed_within (st w) self (update depth self dt w).1.
Proof.
  revert self w. induction depth as [|d IH]; intros self w.
  { simpl. split; [intros m _; apply same_node_refl | done]. }
  cbn [update].
  unfold mbind at 1, M_bind at 1, gets at 1. cbn beta iota.
  set (first := (match animations (heap (st w) self) with
                 | [] => mret tt
                 | _ :: _ => _update_animations self dt
                 end) : M unit).
  assert (Hfirst : confined_to self first).
  { subst first. destruct (animations (heap (st w) self));
      [apply confined_ret | apply confined_update_animations]. }
  unfold mbind at 1, M_bind at 1.
  destruct (Hfirst w) as [Hout Hstruct].
  assert (Hself : forall m, ~ visibly_reachable (heap (st w)) self m ->
                            same_node (st w) (st (first w).1) m).
  { intros m Hm. apply Hout. intros ->. apply Hm. constructor. }
  destruct (first w) as [w1 [[]|e]]; simpl in Hout, Hstruct, Hself;
    [|by split].
  unfold mbind at 1, M_bind at 1, gets at 1. cbn beta iota.
  assert (Hkids : forall c, c ∈ children (heap (st w1) self) ->
                            c ∈ children (heap (st w) self)).
  { intros c. by rewrite Hstruct. }
  revert Hkids Hstruct Hself. generalize (children (heap (st w1) self)).
  intros kids. clear Hout Hfirst. revert w1.
  induction kids as [|c kids IHkids]; intros w1 Hkids Hstruct Hself.
  { simpl. by split. }
  cbn [for_each]. unfold mbind at 1, M_bind at 1.
  unfold mbind at 1, M_bind at 1, gets at 1. cbn beta iota.
  assert (Hc : c ∈ children (heap (st w) self))
    by apply Hkids, list_elem_of_here.
  assert (Hrest : forall c', c' ∈ kids -> c' ∈ children (heap (st w) self)).
  { intros c' Hc'. apply Hkids. by apply list_elem_of_further. }
  destruct (visible (heap (st w1) c)) eqn:Hshown.
  - destruct (IH c w1) as [Hframe Hstruct'].
    assert (Hframe' : forall m, ~ visibly_reachable (heap (st w)) self m ->
                                same_node (st w) (st (update d c dt w1).1) m).
    { intros m Hm. eapply same_node_trans; [by apply Hself|].
      apply Hframe. intros Hreach.
      assert (Hobj : forall k, ~ visibly_reachable (heap (st w)) self k ->
                               heap (st w1) k = heap (st w) k)
        by (intros k Hk; apply (Hself k Hk)).
      assert (Hreached : ~ ~ visibly_reachable (heap (st w)) self c).
      { intros Hfar. apply Hfar.
        eapply reach_child; [exact Hc | | constructor].
        by rewrite <- (Hobj c Hfar). }
      apply Hreached. intros Hcreach.
      by apply (visibly_reachable_back (st w) (st w1) self c m). }
    assert (Hstruct'' : same_children (st w) (st (update d c dt w1).1))
      by (by eapply same_children_trans).
    destruct (update d c dt w1) as [w2 [[]|e]]; simpl in *; [|by split].
    by apply IHkids.
  - unfold mret at 1, M_ret at 1. cbn beta iota. by apply IHkids.
Qed.

Lemma elem_of_map_tree_root (c : ref) (ts : list tree) :
  c ∈ map tree_root ts -> exists sub, sub ∈ ts /\ tree_root sub = c.
Proof.
  rewrite list_elem_of_In, in_map_iff. intros (sub & Hroot & Hin).
  exists sub. by rewrite list_elem_of_In.
Qed.

Lemma elem_of_subtree_nodes (m : ref) (sub : tree) (ts : list tree) :
  sub ∈ ts -> m ∈ tree_nodes sub -> m ∈ concat (map tree_nodes ts).
Proof.
  rewrite !list_elem_of_In. intros Hsub Hm. apply in_concat.
  exists (tree_nodes sub). split; [by apply in_map | done].
Qed.

Lemma tree_root_in_nodes (t : tree) : tree_root t ∈ tree_nodes t.
Proof. destruct t. apply list_elem_of_here. Qed.

(** Whatever [update] reaches from the root of a tree is a node of it. *)
Lemma reachable_within_tree (h : ref -> UIComponent) (t : tree) (m : ref) :
  embeds h t -> visibly_reachable h (tree_root t) m -> m ∈ tree_nodes t.
Proof.
  intros Hemb Hreach. remember (tree_root t) as n eqn:Hn.
  revert t Hn Hemb. induction Hreach as [n|n c m Hc Hv _ IH]; intros t -> Hemb.
  - apply tree_root_in_nodes.
  - destruct Hemb as [n ts Hkids Hsubs]. simpl in *.
    rewrite Hkids in Hc.
    destruct (elem_of_map_tree_root c ts Hc) as (sub & Hsub & <-).
    apply list_elem_of_further. eapply elem_of_subtree_nodes; [exact Hsub|].
    apply IH; [done | by apply Hsubs].
Qed.

(** In a tree without repeated nodes, two subtrees of one node that share
    a node are the same subtree. *)
Lemma subtrees_disjoint (ts : list tree) (sub sub' : tree) (m : ref) :
  NoDup (concat (map tree_nodes ts)) ->
  sub ∈ ts -> sub' ∈ ts -> m ∈ tree_nodes sub -> m ∈ tree_nodes sub' ->
  sub = sub'.
Proof.
  induction ts as [|t ts IH]; simpl.
  { intros _ Hsub. by apply elem_of_nil in Hsub. }
  intros Hnd Hsub Hsub' Hm Hm'.
  apply NoDup_app in Hnd as (_ & Hdisj & Hnd).
  apply elem_of_cons in Hsub as [->|Hsub], Hsub' as [->|Hsub'].
  - done.
  - exfalso. apply (Hdisj m Hm). by eapply elem_of_subtree_nodes.
  - exfalso. apply (Hdisj m Hm'). by eapply elem_of_subtree_nodes.
  - by apply IH.
Qed.

(** A node inside a hidden child's subtree is out of [update]'s reach. *)
Lemma hidden_subtree_unreachable (h : ref -> UIComponent) (t sub : tree) (m : ref) :
  embeds h t -> NoDup (tree_nodes t) ->
  sub ∈ subtrees_of t -> visible (h (tree_root sub)) = false ->
  m ∈ tree_nodes sub ->
  ~ visibly_reachable h (tree_root t) m.
Proof.
  intros Hemb Hnd Hsub Hhidden Hm Hreach.
  destruct Hemb as [n ts Hkids Hsubs]. simpl in *.
  apply NoDup_cons in Hnd as [Hroot Hnd].
  inversion Hreach as [|? c ? Hc Hv Hreach']; subst.
  - apply Hroot. by eapply elem_of_subtree_nodes.
  - rewrite Hkids in Hc.
    destruct (elem_of_map_tree_root c ts Hc) as (sub' & Hsub' & <-).
    assert (Hm' : m ∈ tree_nodes sub')
      by (apply (reachable_within_tree h); [by apply Hsubs | done]).
    assert (sub = sub') as -> by (by eapply subtrees_disjoint).
    congruence.
Qed.

(** C9: in a tree (no node occurring twice), [update] leaves a child whose
    [visible] flag is false, and every node of that child's subtree,
    exactly as they were: no attribute, animation record or animation
    progress of theirs changes, whatever [dt] is and however the call on
    the parent ends. *)
Theorem update_skips_hidden_subtrees `{Environment} (w : World) (depth : nat)
    (dt : float) (t sub : tree) (m : ref) :
  embeds (heap (st w)) t -> NoDup (tree_nodes t) ->
  sub ∈ subtrees_of t -> visible (heap (st w) (tree_root sub)) = false ->
  m ∈ tree_nodes sub ->
  heap (st (update depth (tree_root t) dt w).1) m = heap (st w) m
  /\ forall name,
       untyped (st (update depth (tree_root t) dt w).1) !! (m, name)
       = untyped (st w) !! (m, name).
Proof.
  intros Hemb Hnd Hsub Hhidden Hm.
  apply update_frame. by eapply hidden_subtree_unreachable.
Qed.

Lemma hidden_tree_embedded : embeds hidden_heap hidden_tree.
Proof.
  constructor; [reflexivity|]. intros sub Hsub.
  apply elem_of_cons in Hsub as [->|Hsub].
  - constructor; [reflexivity|]. intros sub Hsub.
    apply list_elem_of_singleton in Hsub as ->.
    constructor; [reflexivity|]. intros sub Hsub. by apply elem_of_nil in Hsub.
  - apply list_elem_of_singleton in Hsub as ->.
    constructor; [reflexivity|]. intros sub Hsub. by apply elem_of_nil in Hsub.
Qed.

Lemma update_skips_hidden_subtrees_witness :
  heap (st (@update late_environment 5 (tree_root hidden_tree) 0.5%float
              hidden_world).1) 3%nat
  = heap (st hidden_world) 3%nat
  /\ forall name,
       untyped (st (@update late_environment 5 (tree_root hidden_tree) 0.5%float
                      hidden_world).1) !! (3%nat, name)
       = untyped (st hidden_world) !! (3%nat, name).
Proof.
  apply (@update_skips_hidden_subtrees late_environment hidden_world 5 0.5%float
           hidden_tree (Node 1%nat [Node 3%nat []]) 3%nat).
  - apply hidden_tree_embedded.
  - compute_done.
  - apply list_elem_of_here.
  - reflexivity.
  - apply list_elem_of_further, list_elem_of_here.
Defined.

(** The same call does advance the visible sibling: its animation, one
    second long and started at time 0, completes at time 2. *)
Example update_completes_visible_sibling :
  let h' := heap (st (@update late_environment 5 (tree_root hidden_tree) 0.5%float
                        hidden_world).1) in
  attrs (h' 2%nat) !! "value" = Some (PInt 100)
  /\ animations (h' 2%nat) = []
  /\ attrs (h' 3%nat) !! "value" = Some (PInt 0).
Proof. vm_compute. repeat split. Qed.

(** ** Tweening *)

(** *** Dividing by the duration 1.0 *)









(** *** What a tick touches *)







Section Touches.
Context `{Environment}.
Variable self : ref.
Variable name : string.






End Touches.




Section Tick.
Context `{Environment}.
Variable self : ref.
Variable current_time : float.




End Tick.






(** The scenario run against a clock: the tween starts at time 10.0 and is
    sampled at 10.0, 10.5 and 11.0. *)
Example animate_linear_samples :
  let tick := fun w => (@_update_animations ticking_environment 2%nat 0.5%float w).1 in
  let value := fun w => attribute (st w) 2%nat "value" in
  let w0 := (@animate ticking_environment 2%nat "value" (PInt 100) (PFloat 1)
               (Some linear) still_world).1 in
  value (tick w0) = PFloat 0
  /\ value (tick (tick w0)) = PFloat 50
  /\ value (tick (tick (tick w0))) = PInt 100
  /\ length (animations (heap (st (tick (tick w0))) 2%nat)) = 1%nat
  /\ animations (heap (st (tick (tick (tick w0)))) 2%nat) = [].
Proof. vm_compute. repeat split. Qed.

(** Tweening a field every node has: the z-index, from 0 to 100.  Half
    way it holds the float 50.0, and a click is then not followed; at the end
    it holds the integer 100. *)
Example animate_z_index :
  let tick := fun w => (@_update_animations ticking_environment 2%nat 0.5%float w).1 in
  let w0 := (@animate ticking_environment 2%nat "z_index" (PInt 100) (PFloat 1)
               (Some linear) still_world).1 in
  attribute (st w0) 2%nat "z_index" = PInt 0
  /\ length (animations (heap (st w0) 2%nat)) = 1%nat
  /\ attribute (st (tick (tick w0))) 2%nat "z_index" = PFloat 50
  /\ z_indices_typed (st (tick (tick w0))) = false
  /\ attribute (st (tick (tick (tick w0)))) 2%nat "z_index" = PInt 100
  /\ z_index (heap (st (tick (tick (tick w0)))) 2%nat) = 100
  /\ z_indices_typed (st (tick (tick (tick w0)))) = true.
Proof. vm_compute. repeat split. Qed.

(** * Further properties of the engine *)

(** ** Lookup by identifier and by tag *)

Lemma subtree_smaller (sub : tree) (n : ref) (ts : list tree) (d : nat) :
  sub ∈ ts -> (length (tree_nodes (Node n ts)) <= S d)%nat ->
  (length (tree_nodes sub) <= d)%nat.
Proof.
  intros Hsub. simpl. intros Hlen.
  assert (length (tree_nodes sub) <= length (concat (map tree_nodes ts)))%nat; [|lia].
  clear Hlen. induction Hsub as [sub ts|sub t ts _ IH]; simpl;
    rewrite length_app; lia.
Qed.

Lemma find_app_ref (f : ref -> bool) (l1 l2 : list ref) :
  List.find f (l1 ++ l2)
  = match List.find f l1 with Some x => Some x | None => List.find f l2 end.
Proof. induction l1 as [|a l1 IH]; simpl; [done|]. by destruct (f a). Qed.

Lemma first_found_subtrees (probe : ref -> outcome (option ref)) (f : ref -> bool)
    (ts : list tree) :
  (forall sub, sub ∈ ts ->
     probe (tree_root sub) = Returned (List.find f (tree_nodes sub))) ->
  first_found probe (map tree_root ts)
  = Returned (List.find f (concat (map tree_nodes ts))).
Proof.
  induction ts as [|t ts IH]; intros Hprobe; simpl; [done|].
  rewrite (Hprobe t) by apply list_elem_of_here. rewrite find_app_ref.
  destruct (List.find f (tree_nodes t)); [done|].
  apply IH. intros sub Hsub. apply Hprobe. by apply list_elem_of_further.
Qed.

(** X1: on a tree held by the heap, with a depth budget of at least the
    number of nodes, [find_by_id] returns the first node in pre-order whose
    identifier is the wanted one, and [None] when there is none; visibility
    and enablement play no part. *)
Theorem find_by_id_first_in_preorder (h : ref -> UIComponent) (t : tree)
    (wanted : string) (depth : nat) :
  embeds h t -> (length (tree_nodes t) <= depth)%nat ->
  find_by_id depth h (tree_root t) wanted
  = Returned (List.find (fun n => bool_decide (component_id (h n) = wanted))
                (tree_nodes t)).
Proof.
  revert t. induction depth as [|d IH]; intros t Hemb Hlen.
  { destruct t. simpl in Hlen. lia. }
  destruct Hemb as [n ts Hkids Hsubs]. cbn [find_by_id tree_root tree_nodes List.find].
  destruct (decide (component_id (h n) = wanted)) as [Heq|Hne].
  - by rewrite bool_decide_eq_true_2.
  - rewrite bool_decide_eq_false_2 by done. rewrite Hkids.
    apply first_found_subtrees. intros sub Hsub.
    apply IH; [by apply Hsubs | by eapply subtree_smaller].
Qed.

Lemma tagged_tree_embedded : embeds tagged_heap hidden_tree.
Proof.
  constructor; [reflexivity|]. intros sub Hsub.
  apply elem_of_cons in Hsub as [->|Hsub].
  - constructor; [reflexivity|]. intros sub Hsub.
    apply list_elem_of_singleton in Hsub as ->.
    constructor; [reflexivity|]. intros sub Hsub. by apply elem_of_nil in Hsub.
  - apply list_elem_of_singleton in Hsub as ->.
    constructor; [reflexivity|]. intros sub Hsub. by apply elem_of_nil in Hsub.
Qed.

Lemma find_by_id_first_in_preorder_witness :
  find_by_id 4 tagged_heap (tree_root hidden_tree) "bed"
  = Returned (List.find (fun n => bool_decide (component_id (tagged_heap n) = "bed"))
                (tree_nodes hidden_tree)).
Proof.
  apply (find_by_id_first_in_preorder tagged_heap hidden_tree "bed" 4).
  - apply tagged_tree_embedded.
  - vm_compute. lia.
Defined.

Example find_by_id_reaches_hidden_node :
  find_by_id 4 tagged_heap 0%nat "bed" = Returned (Some 3%nat).
Proof. vm_compute. reflexivity. Qed.

Lemma extend_each_subtrees (probe : ref -> outcome (list ref)) (f : ref -> bool)
    (ts : list tree) :
  (forall sub, sub ∈ ts ->
     probe (tree_root sub) = Returned (List.filter f (tree_nodes sub))) ->
  extend_each probe (map tree_root ts)
  = Returned (List.filter f (concat (map tree_nodes ts))).
Proof.
  induction ts as [|t ts IH]; intros Hprobe; simpl; [done|].
  rewrite (Hprobe t) by apply list_elem_of_here.
  rewrite IH by (intros sub Hsub; apply Hprobe; by apply list_elem_of_further).
  simpl. by rewrite List.filter_app.
Qed.

(** X2: on a tree held by the heap, with a depth budget of at least the
    number of nodes, [find_by_tag] returns exactly the nodes that carry the
    tag, in pre-order, hidden and disabled ones included. *)
Theorem find_by_tag_all_in_preorder (h : ref -> UIComponent) (t : tree)
    (tag : string) (depth : nat) :
  embeds h t -> (length (tree_nodes t) <= depth)%nat ->
  find_by_tag depth h (tree_root t) tag
  = Returned (List.filter (fun n => bool_decide (tag ∈ tags (h n))) (tree_nodes t)).
Proof.
  revert t. induction depth as [|d IH]; intros t Hemb Hlen.
  { destruct t. simpl in Hlen. lia. }
  destruct Hemb as [n ts Hkids Hsubs].
  cbn [find_by_tag tree_root tree_nodes List.filter]. rewrite Hkids.
  rewrite (extend_each_subtrees _ (fun n => bool_decide (tag ∈ tags (h n)))).
  - simpl. destruct (decide (tag ∈ tags (h n))) as [Hin|Hout].
    + by rewrite bool_decide_eq_true_2.
    + by rewrite bool_decide_eq_false_2.
  - intros sub Hsub. apply IH; [by apply Hsubs | by eapply subtree_smaller].
Qed.

Lemma find_by_tag_all_in_preorder_witness :
  find_by_tag 4 tagged_heap (tree_root hidden_tree) "gauge"
  = Returned (List.filter (fun n => bool_decide ("gauge" ∈ tags (tagged_heap n)))
                (tree_nodes hidden_tree)).
Proof.
  apply (find_by_tag_all_in_preorder tagged_heap hidden_tree "gauge" 4).
  - apply tagged_tree_embedded.
  - vm_compute. lia.
Defined.

Example find_by_tag_lists_hidden_node_first :
  find_by_tag 4 tagged_heap 0%nat "gauge" = Returned [3%nat; 2%nat].
Proof. vm_compute. reflexivity. Qed.

(** ** Rectangles *)

(** X3: the centre of a rectangle lies inside it exactly when neither
    extent is negative. *)
Theorem center_inside (r : UIRect.t) :
  UIRect.contains r (UIRect.center r).1 (UIRect.center r).2 = true
  <-> 0 <= UIRect.width r /\ 0 <= UIRect.height r.
Proof.
  rewrite contains_spec. unfold UIRect.center. simpl.
  pose proof (Z.div_mod (UIRect.width r) 2 ltac:(lia)).
  pose proof (Z.mod_pos_bound (UIRect.width r) 2 ltac:(lia)).
  pose proof (Z.div_mod (UIRect.height r) 2 ltac:(lia)).
  pose proof (Z.mod_pos_bound (UIRect.height r) 2 ltac:(lia)).
  lia.
Qed.

(** X4: [inflate] moves every edge outwards by the margin of its axis: the
    inflated rectangle contains exactly the points within [dx] of the
    horizontal extent and within [dy] of the vertical one. *)
Theorem inflate_contains (r : UIRect.t) (dx dy px py : Z) :
  UIRect.contains (UIRect.inflate r dx dy) px py = true
  <-> UIRect.x r - dx <= px <= UIRect.right r + dx
      /\ UIRect.y r - dy <= py <= UIRect.bottom r + dy.
Proof.
  rewrite contains_spec. unfold UIRect.inflate, UIRect.right, UIRect.bottom.
  simpl. lia.
Qed.

(** X5: inflating twice is inflating once by the summed margins; hence
    inflating by the opposite margins gives the rectangle back. *)
Theorem inflate_inflate (r : UIRect.t) (dx dy dx' dy' : Z) :
  UIRect.inflate (UIRect.inflate r dx dy) dx' dy' = UIRect.inflate r (dx + dx') (dy + dy')
  /\ UIRect.inflate (UIRect.inflate r dx dy) (- dx) (- dy) = r.
Proof.
  destruct r as [x y w hgt]. unfold UIRect.inflate. simpl.
  split; f_equal; lia.
Qed.

(** ** Hit testing on arbitrary heaps *)

Lemma hit_path_target (h : ref -> UIComponent) (px py : Z) (n m : ref) :
  hit_path h px py n m ->
  responsive h m /\ UIRect.contains (rect (h m)) px py = true.
Proof. induction 1; auto. Qed.

Lemma hit_path_source (h : ref -> UIComponent) (px py : Z) (n m : ref) :
  hit_path h px py n m ->
  responsive h n /\ UIRect.contains (rect (h n)) px py = true.
Proof. destruct 1; auto. Qed.

Lemma first_hit_cases (probe : ref -> outcome (option ref)) (self : ref)
    (cs : list ref) (n : ref) :
  first_hit probe self cs = Returned (Some n) ->
  (n = self /\ forall c, c ∈ cs -> probe c = Returned None)
  \/ exists pre c post,
       cs = pre ++ c :: post
       /\ (forall c', c' ∈ pre -> probe c' = Returned None)
       /\ probe c = Returned (Some n).
Proof.
  induction cs as [|c cs IH]; simpl.
  - intros [= <-]. left. split; [done|]. intros c Hc. by apply elem_of_nil in Hc.
  - destruct (probe c) as [[r|]|e] eqn:Hprobe; [| |done].
    + intros [= ->]. right. exists [], c, cs. split_and!; [done| |done].
      intros c' Hc'. by apply elem_of_nil in Hc'.
    + intros Hrest. destruct (IH Hrest) as [[-> Hall]|(pre & c0 & post & -> & Hpre & Hc0)].
      * left. split; [done|]. intros c' Hc'.
        apply elem_of_cons in Hc' as [->|Hc']; auto.
      * right. exists (c :: pre), c0, post. split_and!; [done| |done].
        intros c' Hc'. apply elem_of_cons in Hc' as [->|Hc']; auto.
Qed.

Lemma hit_test_inversion (h : ref -> UIComponent) (self : ref) (d : nat)
    (px py : Z) (n : ref) :
  hit_test (S d) h self px py = Returned (Some n) ->
  responsive h self /\ UIRect.contains (rect (h self)) px py = true
  /\ first_hit (fun child => hit_test d h child px py) self
       (rev (sorted_by_key (fun c => z_index (h c)) (children (h self))))
     = Returned (Some n).
Proof.
  cbn [hit_test]. unfold responsive.
  destruct (visible (h self)), (enabled (h self)); simpl; try done.
  destruct (UIRect.contains (rect (h self)) px py); done.
Qed.

(** X6: whatever [hit_test] returns is visible, enabled and under the
    point, and so is every node on the way down to it from the node asked;
    this holds for every heap and every depth budget. *)
Theorem hit_test_sound (h : ref -> UIComponent) (self n : ref) (depth : nat)
    (px py : Z) :
  hit_test depth h self px py = Returned (Some n) ->
  hit_path h px py self n
  /\ responsive h n /\ UIRect.contains (rect (h n)) px py = true.
Proof.
  intros Hhit. cut (hit_path h px py self n).
  { intros Hpath. split; [done|]. by eapply hit_path_target. }
  revert self Hhit. induction depth as [|d IH]; intros self Hhit; [done|].
  apply hit_test_inversion in Hhit as (Hresp & Hin & Hfirst).
  apply first_hit_cases in Hfirst as [[-> _]|(pre & c & post & Hsplit & _ & Hc)].
  - by constructor.
  - eapply hit_below; [done|done| |by apply IH].
    apply (elem_of_sorted_by_key (fun c => z_index (h c))), elem_of_rev.
    rewrite Hsplit, elem_of_app. right. apply list_elem_of_here.
Qed.

Lemma hit_test_sound_witness :
  hit_path nested_heap 5 5 0%nat 2%nat
  /\ responsive nested_heap 2%nat
  /\ UIRect.contains (rect (nested_heap 2%nat)) 5 5 = true.
Proof.
  apply (hit_test_sound nested_heap 0%nat 2%nat 1000 5 5).
  vm_compute. reflexivity.
Defined.

(** X7: with budget for at least one call, [hit_test] answers [None]
    exactly when the node asked is hidden, disabled or off the point; the
    children can change which node is returned, never whether one is. *)
Theorem hit_test_none_iff (h : ref -> UIComponent) (self : ref) (d : nat)
    (px py : Z) :
  hit_test (S d) h self px py = Returned None
  <-> ~ responsive h self \/ UIRect.contains (rect (h self)) px py = false.
Proof.
  split.
  - intros Hnone. destruct (visible (h self)) eqn:Hv; [|left; by intros [??]; congruence].
    destruct (enabled (h self)) eqn:He; [|left; by intros [??]; congruence].
    destruct (UIRect.contains (rect (h self)) px py) eqn:Hc; [|by right].
    exfalso. by apply (hit_test_resolves h self d px py).
  - intros [Hnot|Hout]; [by apply hit_test_unresponsive|].
    cbn [hit_test]. rewrite Hout. by destruct (negb _ || negb _).
Qed.

(** ** Painting *)

Lemma render_each_drawn (paint : ref -> list ref * outcome unit) (cs : list ref)
    (m : ref) :
  m ∈ (render_each paint cs).1 -> exists c, c ∈ cs /\ m ∈ (paint c).1.
Proof.
  induction cs as [|c cs IH]; simpl.
  { intros Hm. by apply elem_of_nil in Hm. }
  destruct (paint c) as [drawn [[]|e]] eqn:Hpaint.
  - destruct (render_each paint cs) as [more r]. simpl in *.
    intros [Hm|Hm]%elem_of_app.
    + exists c. rewrite Hpaint. split; [apply list_elem_of_here | done].
    + destruct (IH Hm) as (c' & Hc' & Hm'). exists c'.
      split; [by apply list_elem_of_further | done].
  - simpl. intros Hm. exists c. rewrite Hpaint.
    split; [apply list_elem_of_here | done].
Qed.

Lemma render_each_returned (paint : ref -> list ref * outcome unit) (cs : list ref)
    (drawn : list ref) :
  render_each paint cs = (drawn, Returned tt) ->
  drawn = concat (map (fun c => (paint c).1) cs)
  /\ forall c, c ∈ cs -> (paint c).2 = Returned tt.
Proof.
  revert drawn. induction cs as [|c cs IH]; simpl; intros drawn.
  { intros [= <-]. split; [done|]. intros c Hc. by apply elem_of_nil in Hc. }
  destruct (paint c) as [first [[]|e]] eqn:Hpaint; [|done].
  destruct (render_each paint cs) as [more r]. intros [= <- ->].
  destruct (IH more eq_refl) as [-> Hall]. split; [done|].
  intros c' [->|Hc']%elem_of_cons; [by rewrite Hpaint | by apply Hall].
Qed.

Lemma render_inversion (h : ref -> UIComponent) (self : ref) (d : nat)
    (drawn : list ref) (r : outcome unit) :
  visible (h self) = true ->
  render (S d) h self = (drawn, r) ->
  exists below,
    drawn = self :: below
    /\ render_each
         (fun child =>
            if visible (h child) then render d h child else ([], Returned tt))
         (sorted_by_key (fun c => z_index (h c)) (children (h self)))
       = (below, r).
Proof.
  intros Hv. cbn [render]. rewrite Hv. simpl negb. cbv iota.
  destruct (render_each _ _) as [below r']. intros [= <- <-]. by exists below.
Qed.

(** Whatever is drawn lies within the reach of [update]. *)
Lemma render_drawn_reachable (h : ref -> UIComponent) (depth : nat) (self m : ref) :
  m ∈ (render depth h self).1 ->
  visible (h self) = true /\ visibly_reachable h self m.
Proof.
  revert self. induction depth as [|d IH]; intros self.
  { simpl. intros Hm. by apply elem_of_nil in Hm. }
  destruct (visible (h self)) eqn:Hv.
  2:{ cbn [render]. rewrite Hv. simpl. intros Hm. by apply elem_of_nil in Hm. }
  destruct (render (S d) h self) as [drawn r] eqn:Hrender.
  destruct (render_inversion h self d drawn r Hv Hrender) as (below & -> & Heach).
  simpl. intros [->|Hm]%elem_of_cons; [split; [done | constructor]|].
  split; [done|].
  assert (Hm' : m ∈ (render_each
            (fun child =>
               if visible (h child) then render d h child else ([], Returned tt))
            (sorted_by_key (fun c => z_index (h c)) (children (h self)))).1)
    by (by rewrite Heach).
  apply render_each_drawn in Hm' as (c & Hc & Hmc).
  apply elem_of_sorted_by_key in Hc.
  destruct (visible (h c)) eqn:Hvc; [|by apply elem_of_nil in Hmc].
  apply IH in Hmc as [_ Hreach]. by eapply reach_child.
Qed.

(** X8: a [render] of a visible node that returns has called
    [_render_self] on exactly the node itself and the nodes below it that a
    chain of visible children leads to. *)
Theorem render_draws_visible_part (h : ref -> UIComponent) (depth : nat)
    (self : ref) (drawn : list ref) :
  visible (h self) = true ->
  render depth h self = (drawn, Returned tt) ->
  forall m, m ∈ drawn <-> visibly_reachable h self m.
Proof.
  intros Hv Hrender m. split.
  - intros Hm. apply (render_drawn_reachable h depth). by rewrite Hrender.
  - intros Hreach. revert depth drawn Hv Hrender.
    induction Hreach as [n|n c m Hc Hvc _ IH]; intros depth drawn Hv Hrender.
    + destruct depth as [|d]; [done|].
      destruct (render_inversion h n d drawn _ Hv Hrender) as (below & -> & _).
      apply list_elem_of_here.
    + destruct depth as [|d]; [done|].
      destruct (render_inversion h n d drawn _ Hv Hrender) as (below & -> & Heach).
      apply list_elem_of_further.
      apply render_each_returned in Heach as [-> Hall].
      assert (Hsorted : c ∈ sorted_by_key (fun c => z_index (h c)) (children (h n)))
        by (by apply elem_of_sorted_by_key).
      specialize (Hall c Hsorted). rewrite Hvc in Hall.
      destruct (render d h c) as [drawn_c r] eqn:Hc_render. simpl in Hall. subst r.
      rewrite list_elem_of_In. apply in_concat. exists drawn_c. split.
      * apply in_map_iff. exists c. rewrite Hvc, Hc_render.
        split; [done | by apply list_elem_of_In].
      * apply list_elem_of_In. by apply (IH d).
Qed.

Lemma render_draws_visible_part_witness :
  (2%nat ∈ [0%nat; 2%nat] <-> visibly_reachable hidden_heap 0%nat 2%nat)
  /\ (3%nat ∈ [0%nat; 2%nat] <-> visibly_reachable hidden_heap 0%nat 3%nat).
Proof.
  split;
    (apply (render_draws_visible_part hidden_heap 5 0%nat [0%nat; 2%nat]);
     [reflexivity | vm_compute; reflexivity]).
Defined.

(** X9: in a tree, [render] draws no node of a hidden child's subtree,
    whatever the visibility flags inside that subtree say and however the
    call ends. *)
Theorem render_skips_hidden_subtrees (h : ref -> UIComponent) (depth : nat)
    (t sub : tree) (m : ref) :
  embeds h t -> NoDup (tree_nodes t) ->
  sub ∈ subtrees_of t -> visible (h (tree_root sub)) = false ->
  m ∈ tree_nodes sub ->
  m ∉ (render depth h (tree_root t)).1.
Proof.
  intros Hemb Hnd Hsub Hhidden Hm Hdrawn.
  apply render_drawn_reachable in Hdrawn as [_ Hreach].
  by eapply hidden_subtree_unreachable.
Qed.

Lemma render_skips_hidden_subtrees_witness :
  visible (tagged_heap 3%nat) = true
  /\ 3%nat ∉ (render 5 tagged_heap (tree_root hidden_tree)).1.
Proof.
  split; [reflexivity|].
  apply (render_skips_hidden_subtrees tagged_heap 5 hidden_tree
           (Node 1%nat [Node 3%nat []]) 3%nat).
  - apply tagged_tree_embedded.
  - compute_done.
  - apply list_elem_of_here.
  - reflexivity.
  - apply list_elem_of_further, list_elem_of_here.
Defined.

(** *** The node hit is the one painted last *)

Lemma hit_path_reachable (h : ref -> UIComponent) (px py : Z) (n m : ref) :
  hit_path h px py n m -> visibly_reachable h n m.
Proof.
  induction 1 as [n|n c m _ _ Hc Hpath IH]; [constructor|].
  eapply reach_child; [done| |done].
  by destruct (hit_path_source h px py c m Hpath) as [[? _] _].
Qed.

Lemma hit_test_miss_blocks (h : ref -> UIComponent) (px py : Z) (c m : ref) (d : nat) :
  hit_test d h c px py = Returned None -> ~ hit_path h px py c m.
Proof.
  intros Hmiss Hpath. destruct (hit_path_source h px py c m Hpath) as [Hresp Hin].
  destruct d as [|d]; [done|]. by apply (hit_test_resolves h c d px py).
Qed.

Lemma subtree_NoDup (ts : list tree) (sub : tree) :
  NoDup (concat (map tree_nodes ts)) -> sub ∈ ts -> NoDup (tree_nodes sub).
Proof.
  induction ts as [|t ts IH]; simpl; intros Hnd Hsub.
  { by apply elem_of_nil in Hsub. }
  apply NoDup_app in Hnd as (Hfirst & _ & Hrest).
  apply elem_of_cons in Hsub as [->|Hsub]; [done | by apply IH].
Qed.

(** In a tree, a way down to a node of a subtree leads through the root of
    that subtree. *)
Lemma hit_path_through_subtree (h : ref -> UIComponent) (px py : Z) (n : ref)
    (ts : list tree) (sub : tree) (m : ref) :
  embeds h (Node n ts) -> NoDup (tree_nodes (Node n ts)) ->
  sub ∈ ts -> m ∈ tree_nodes sub ->
  hit_path h px py n m -> hit_path h px py (tree_root sub) m.
Proof.
  intros Hemb Hnd Hsub Hm Hpath.
  inversion Hemb as [? ? Hkids Hsubs]; subst.
  simpl in Hnd. apply NoDup_cons in Hnd as [Hroot Hnd].
  inversion Hpath as [|? c ? _ _ Hc Hbelow]; subst.
  - exfalso. apply Hroot. by eapply elem_of_subtree_nodes.
  - rewrite Hkids in Hc.
    destruct (elem_of_map_tree_root c ts Hc) as (sub' & Hsub' & <-).
    assert (Hm' : m ∈ tree_nodes sub').
    { apply (reachable_within_tree h); [by apply Hsubs|].
      by eapply hit_path_reachable. }
    by assert (sub = sub') as -> by (by eapply subtrees_disjoint).
Qed.

Lemma painted_within_subtree (h : ref -> UIComponent) (d : nat) (n : ref)
    (ts : list tree) (c m : ref) :
  embeds h (Node n ts) -> c ∈ children (h n) ->
  m ∈ (if visible (h c) then render d h c else ([], Returned tt)).1 ->
  exists sub, sub ∈ ts /\ tree_root sub = c /\ m ∈ tree_nodes sub.
Proof.
  intros Hemb Hc Hm. inversion Hemb as [? ? Hkids Hsubs]; subst.
  rewrite Hkids in Hc.
  destruct (elem_of_map_tree_root c ts Hc) as (sub & Hsub & <-).
  exists sub. split_and!; [done|done|].
  destruct (visible (h (tree_root sub))); [|by apply elem_of_nil in Hm].
  apply render_drawn_reachable in Hm as [_ Hreach].
  apply (reachable_within_tree h); [by apply Hsubs | done].
Qed.

(** X10: in a tree, the node [hit_test] returns is painted by [render], and
    nothing painted after it can be reached by the point: of all the nodes
    under the point that a click could get to, the click goes to the one
    drawn last, that is, on top. *)
Theorem hit_test_returns_topmost_painted (h : ref -> UIComponent) (t : tree)
    (px py : Z) (d1 d2 : nat) (n : ref) (drawn : list ref) :
  embeds h t -> NoDup (tree_nodes t) ->
  hit_test d1 h (tree_root t) px py = Returned (Some n) ->
  render d2 h (tree_root t) = (drawn, Returned tt) ->
  exists before after,
    drawn = before ++ n :: after
    /\ forall m, m ∈ after -> ~ hit_path h px py (tree_root t) m.
Proof.
  revert t d1 n drawn. induction d2 as [|d2 IH]; intros t d1 n drawn; [done|].
  intros Hemb Hnd Hhit Hrender. destruct t as [r ts]. cbn [tree_root] in *.
  destruct d1 as [|d1]; [done|].
  apply hit_test_inversion in Hhit as ([Hv He] & Hin & Hfirst).
  destruct (render_inversion h r d2 drawn _ Hv Hrender) as (below & -> & Heach).
  apply render_each_returned in Heach as [-> Hall].
  set (paint := fun child : ref =>
         if visible (h child) then render d2 h child else ([], Returned tt)) in *.
  set (order := sorted_by_key (fun c => z_index (h c)) (children (h r))) in *.
  assert (Horder : forall c, c ∈ order -> c ∈ children (h r)).
  { intros c. apply elem_of_sorted_by_key. }
  assert (Hblocked : forall cs m,
            (forall c, c ∈ cs -> c ∈ order) ->
            (forall c, c ∈ cs -> hit_test d1 h c px py = Returned None) ->
            m ∈ concat (map (fun c => (paint c).1) cs) ->
            ~ hit_path h px py r m).
  { intros cs m Hcs Hmiss Hm Hpath.
    apply list_elem_of_In, in_concat in Hm as (l & Hl & Hm).
    apply in_map_iff in Hl as (c & <- & Hc). apply list_elem_of_In in Hc, Hm.
    destruct (painted_within_subtree h d2 r ts c m Hemb (Horder c (Hcs c Hc)) Hm)
      as (sub & Hsub & <- & Hmsub).
    apply (hit_test_miss_blocks h px py (tree_root sub) m d1 (Hmiss _ Hc)).
    by eapply hit_path_through_subtree. }
  apply first_hit_cases in Hfirst as [[-> Hmiss]|(pre & c & post & Hsplit & Hmiss & Hc)].
  - exists [], (concat (map (fun c => (paint c).1) order)). split; [done|].
    intros m Hm. apply (Hblocked order m); [done| |done].
    intros c Hc. apply Hmiss. by apply elem_of_rev.
  - assert (Hord : order = rev post ++ c :: rev pre).
    { rewrite <- (rev_involutive order), Hsplit, rev_app_distr. simpl.
      by rewrite <- app_assoc. }
    assert (Hcin : c ∈ order).
    { rewrite Hord, elem_of_app. right. apply list_elem_of_here. }
    inversion Hemb as [? ? Hkids Hsubs]; subst.
    pose proof (Horder c Hcin) as Hchild. rewrite Hkids in Hchild.
    destruct (elem_of_map_tree_root c ts Hchild) as (sub & Hsub & <-).
    assert (Hvc : visible (h (tree_root sub)) = true).
    { destruct d1 as [|d1]; [done|].
      by apply hit_test_inversion in Hc as ([? _] & _). }
    pose proof (Hall _ Hcin) as Hret. unfold paint in Hret. rewrite Hvc in Hret.
    destruct (render d2 h (tree_root sub)) as [drawn_c rc] eqn:Hrc.
    simpl in Hret. subst rc.
    assert (Hndsub : NoDup (tree_nodes sub)).
    { simpl in Hnd. apply NoDup_cons in Hnd as [_ Hnd]. by eapply subtree_NoDup. }
    destruct (IH sub d1 n drawn_c (Hsubs sub Hsub) Hndsub Hc Hrc)
      as (b & a & -> & Ha).
    exists (r :: concat (map (fun c => (paint c).1) (rev post)) ++ b),
      (a ++ concat (map (fun c => (paint c).1) (rev pre))).
    split.
    + rewrite Hord, map_app, concat_app. simpl. unfold paint at 2.
      rewrite Hvc, Hrc. simpl. by rewrite <- !app_assoc.
    + intros m [Hm|Hm]%elem_of_app.
      * intros Hpath. apply (Ha m Hm).
        eapply hit_path_through_subtree; [exact Hemb|done|done| |done].
        apply (reachable_within_tree h); [by apply Hsubs|].
        apply (render_drawn_reachable h d2). rewrite Hrc. simpl.
        rewrite elem_of_app. right. by apply list_elem_of_further.
      * apply (Hblocked (rev pre) m); [| |done].
        -- intros c' Hc'. rewrite Hord, elem_of_app. right.
           by apply list_elem_of_further.
        -- intros c' Hc'. apply Hmiss. by apply elem_of_rev.
Qed.

Lemma hit_test_returns_topmost_painted_witness :
  exists before after,
    [0%nat; 2%nat; 1%nat] = before ++ 1%nat :: after
    /\ forall m, m ∈ after ->
         ~ hit_path overlap_heap 5 5 (tree_root (Node 0%nat [Node 1%nat []; Node 2%nat []])) m.
Proof.
  apply (hit_test_returns_topmost_painted overlap_heap
           (Node 0%nat [Node 1%nat []; Node 2%nat []]) 5 5 5 5 1%nat
           [0%nat; 2%nat; 1%nat]).
  - constructor; [reflexivity|]. intros sub Hsub.
    apply elem_of_cons in Hsub as [->|Hsub].
    + constructor; [reflexivity|]. intros sub Hsub. by apply elem_of_nil in Hsub.
    + apply list_elem_of_singleton in Hsub as ->.
      constructor; [reflexivity|]. intros sub Hsub. by apply elem_of_nil in Hsub.
  - compute_done.
  - vm_compute. reflexivity.
  - vm_compute. reflexivity.
Defined.

(** ** Layout helpers *)

(** X11: [center_rect] keeps the requested size and centres it: on each
    axis the gap after the rectangle equals the gap before it or exceeds it
    by one, whatever the sizes are (also when the rectangle is larger than
    the container). *)
Theorem center_rect_centred (container : UIRect.t) (width height : Z) :
  let r := center_rect container width height in
  UIRect.width r = width /\ UIRect.height r = height
  /\ (let before := UIRect.x r - UIRect.x container in
      let after := UIRect.right container - UIRect.right r in
      before <= after <= before + 1)
  /\ (let before := UIRect.y r - UIRect.y container in
      let after := UIRect.bottom container - UIRect.bottom r in
      before <= after <= before + 1).
Proof.
  unfold center_rect, UIRect.right, UIRect.bottom. simpl.
  pose proof (Z.div_mod (UIRect.width container - width) 2 ltac:(lia)).
  pose proof (Z.mod_pos_bound (UIRect.width container - width) 2 ltac:(lia)).
  pose proof (Z.div_mod (UIRect.height container - height) 2 ltac:(lia)).
  pose proof (Z.mod_pos_bound (UIRect.height container - height) 2 ltac:(lia)).
  lia.
Qed.

Lemma foldl_add_shift (a : Z) (l : list Z) : foldl Z.add a l = a + sum_of l.
Proof.
  unfold sum_of. revert a. induction l as [|b l IH]; intros a; simpl; [lia|].
  rewrite IH, (IH (0 + b)). lia.
Qed.

Lemma sum_of_cons (a : Z) (l : list Z) : sum_of (a :: l) = a + sum_of l.
Proof. unfold sum_of at 1. simpl. apply foldl_add_shift. Qed.

Lemma sum_of_app (l1 l2 : list Z) : sum_of (l1 ++ l2) = sum_of l1 + sum_of l2.
Proof.
  induction l1 as [|a l1 IH]; simpl; [done|]. rewrite !sum_of_cons, IH. lia.
Qed.

Lemma sum_of_take_S (l : list Z) (i : nat) (w : Z) :
  l !! i = Some w -> sum_of (take (S i) l) = sum_of (take i l) + w.
Proof.
  intros Hw. rewrite (take_S_r l i w Hw), sum_of_app, sum_of_cons.
  change (sum_of []) with 0. lia.
Qed.

Lemma distribute_horizontal_loop_lookup (container : UIRect.t) (first : Z)
    (others : list Z) (spacing : Z) (todo : list Z) (current_x : Z) (i : nat) :
  distribute_horizontal_loop container first others spacing current_x todo !! i
  = (fun width =>
       UIRect.mk (current_x + sum_of (take i todo) + spacing * Z.of_nat i)
         (UIRect.y container
          + (UIRect.height container - max_of first others) `div` 2)
         width (UIRect.height container)) <$> todo !! i.
Proof.
  revert current_x i. induction todo as [|w todo IH]; intros current_x i; [done|].
  destruct i as [|i]; simpl.
  - do 2 f_equal. unfold sum_of. simpl. lia.
  - rewrite IH. destruct (todo !! i); simpl; [|done].
    do 2 f_equal. rewrite sum_of_cons. lia.
Qed.

Lemma distribute_horizontal_lookup (container : UIRect.t) (widths : list Z)
    (spacing : Z) (i : nat) :
  distribute_horizontal container widths spacing !! i
  = (fun width =>
       UIRect.mk
         (UIRect.x container
          + (UIRect.width container
             - (sum_of widths + spacing * (Z.of_nat (length widths) - 1))) `div` 2
          + sum_of (take i widths) + spacing * Z.of_nat i)
         (UIRect.y container
          + (UIRect.height container
             - max_of (default 0 (head widths)) (tail widths)) `div` 2)
         width (UIRect.height container)) <$> widths !! i.
Proof.
  unfold distribute_horizontal. destruct widths as [|first others]; [done|].
  apply distribute_horizontal_loop_lookup.
Qed.

(** X12: [distribute_horizontal] returns one rectangle per width, in order
    and of that width (none for no width); each starts [spacing] after the
    right edge of the one before; and the row as a whole is centred in the
    container, the gap after it equal to the gap before it or one more. *)
Theorem distribute_horizontal_row (container : UIRect.t) (widths : list Z)
    (spacing : Z) :
  let rects := distribute_horizontal container widths spacing in
  map UIRect.width rects = widths
  /\ (forall i a b, rects !! i = Some a -> rects !! S i = Some b ->
        UIRect.x b = UIRect.right a + spacing)
  /\ (forall a b, head rects = Some a -> last rects = Some b ->
        let before := UIRect.x a - UIRect.x container in
        let after := UIRect.right container - UIRect.right b in
        before <= after <= before + 1).
Proof.
  intros rects.
  assert (Hwidths : map UIRect.width rects = widths).
  { apply list_eq. intros i. rewrite list_lookup_fmap. subst rects.
    rewrite distribute_horizontal_lookup. by destruct (widths !! i). }
  split; [done|]. split.
  - intros i a b Ha Hb. subst rects.
    rewrite distribute_horizontal_lookup in Ha, Hb.
    destruct (widths !! i) as [wa|] eqn:Hwa; [|done].
    destruct (widths !! S i) as [wb|] eqn:Hwb; [|done].
    simpl in Ha, Hb. injection Ha as <-. injection Hb as <-.
    unfold UIRect.right. simpl. rewrite (sum_of_take_S widths i wa Hwa). lia.
  - intros a b Ha Hb before after. subst before after.
    rewrite head_lookup in Ha. rewrite last_lookup in Hb.
    assert (Hlen : length rects = length widths).
    { apply (f_equal length) in Hwidths. by rewrite length_map in Hwidths. }
    rewrite Hlen in Hb. subst rects.
    rewrite distribute_horizontal_lookup in Ha, Hb.
    destruct (widths !! 0%nat) as [wa|] eqn:Hwa; [|done].
    destruct (widths !! pred (length widths)) as [wb|] eqn:Hwb; [|done].
    simpl in Ha, Hb. injection Ha as <-. injection Hb as <-.
    unfold UIRect.right. cbn [UIRect.x UIRect.width].
    rewrite take_0. change (sum_of []) with 0.
    assert (Hpos : (0 < length widths)%nat).
    { destruct widths; [done | simpl; lia]. }
    pose proof (sum_of_take_S widths (pred (length widths)) wb Hwb) as Hsum.
    replace (S (pred (length widths))) with (length widths) in Hsum by lia.
    rewrite firstn_all in Hsum.
    set (total := sum_of widths + spacing * (Z.of_nat (length widths) - 1)).
    pose proof (Z.div_mod (UIRect.width container - total) 2 ltac:(lia)).
    pose proof (Z.mod_pos_bound (UIRect.width container - total) 2 ltac:(lia)).
    subst total.
    replace (Z.of_nat (pred (length widths))) with (Z.of_nat (length widths) - 1)
      by lia.
    lia.
Qed.

Lemma distribute_vertical_loop_lookup (container : UIRect.t) (first : Z)
    (others : list Z) (spacing : Z) (todo : list Z) (current_y : Z) (i : nat) :
  distribute_vertical_loop container first others spacing current_y todo !! i
  = (fun height =>
       UIRect.mk
         (UIRect.x container
          + (UIRect.width container - max_of first others) `div` 2)
         (current_y + sum_of (take i todo) + spacing * Z.of_nat i)
         (UIRect.width container) height) <$> todo !! i.
Proof.
  revert current_y i. induction todo as [|w todo IH]; intros current_y i; [done|].
  destruct i as [|i]; simpl.
  - do 2 f_equal. unfold sum_of. simpl. lia.
  - rewrite IH. destruct (todo !! i); simpl; [|done].
    do 2 f_equal. rewrite sum_of_cons. lia.
Qed.

Lemma distribute_vertical_lookup (container : UIRect.t) (heights : list Z)
    (spacing : Z) (i : nat) :
  distribute_vertical container heights spacing !! i
  = (fun height =>
       UIRect.mk
         (UIRect.x container
          + (UIRect.width container
             - max_of (default 0 (head heights)) (tail heights)) `div` 2)
         (UIRect.y container
          + (UIRect.height container
             - (sum_of heights + spacing * (Z.of_nat (length heights) - 1))) `div` 2
          + sum_of (take i heights) + spacing * Z.of_nat i)
         (UIRect.width container) height) <$> heights !! i.
Proof.
  unfold distribute_vertical. destruct heights as [|first others]; [done|].
  apply distribute_vertical_loop_lookup.
Qed.

(** X13: [distribute_vertical] returns one rectangle per height, in order
    and of that height (none for no height); each starts [spacing] below
    the bottom edge of the one before; and the column as a whole is centred
    in the container, the gap below it equal to the gap above it or one
    more. *)
Theorem distribute_vertical_column (container : UIRect.t) (heights : list Z)
    (spacing : Z) :
  let rects := distribute_vertical container heights spacing in
  map UIRect.height rects = heights
  /\ (forall i a b, rects !! i = Some a -> rects !! S i = Some b ->
        UIRect.y b = UIRect.bottom a + spacing)
  /\ (forall a b, head rects = Some a -> last rects = Some b ->
        let before := UIRect.y a - UIRect.y container in
        let after := UIRect.bottom container - UIRect.bottom b in
        before <= after <= before + 1).
Proof.
  intros rects.
  assert (Hheights : map UIRect.height rects = heights).
  { apply list_eq. intros i. rewrite list_lookup_fmap. subst rects.
    rewrite distribute_vertical_lookup. by destruct (heights !! i). }
  split; [done|]. split.
  - intros i a b Ha Hb. subst rects.
    rewrite distribute_vertical_lookup in Ha, Hb.
    destruct (heights !! i) as [wa|] eqn:Hwa; [|done].
    destruct (heights !! S i) as [wb|] eqn:Hwb; [|done].
    simpl in Ha, Hb. injection Ha as <-. injection Hb as <-.
    unfold UIRect.bottom. simpl. rewrite (sum_of_take_S heights i wa Hwa). lia.
  - intros a b Ha Hb before after. subst before after.
    rewrite head_lookup in Ha. rewrite last_lookup in Hb.
    assert (Hlen : length rects = length heights).
    { apply (f_equal length) in Hheights. by rewrite length_map in Hheights. }
    rewrite Hlen in Hb. subst rects.
    rewrite distribute_vertical_lookup in Ha, Hb.
    destruct (heights !! 0%nat) as [wa|] eqn:Hwa; [|done].
    destruct (heights !! pred (length heights)) as [wb|] eqn:Hwb; [|done].
    simpl in Ha, Hb. injection Ha as <-. injection Hb as <-.
    unfold UIRect.bottom. cbn [UIRect.y UIRect.height].
    rewrite take_0. change (sum_of []) with 0.
    assert (Hpos : (0 < length heights)%nat).
    { destruct heights; [done | simpl; lia]. }
    pose proof (sum_of_take_S heights (pred (length heights)) wb Hwb) as Hsum.
    replace (S (pred (length heights))) with (length heights) in Hsum by lia.
    rewrite firstn_all in Hsum.
    set (total := sum_of heights + spacing * (Z.of_nat (length heights) - 1)).
    pose proof (Z.div_mod (UIRect.height container - total) 2 ltac:(lia)).
    pose proof (Z.mod_pos_bound (UIRect.height container - total) 2 ltac:(lia)).
    subst total.
    replace (Z.of_nat (pred (length heights))) with (Z.of_nat (length heights) - 1)
      by lia.
    lia.
Qed.

Lemma range_lookup (n : Z) (i : nat) (k : Z) :
  range n !! i = Some k <-> k = Z.of_nat i /\ (Z.of_nat i < n)%Z.
Proof.
  unfold range. rewrite list_lookup_fmap, fmap_Some. split.
  - intros (j & [-> Hlt]%lookup_seq & ->). simpl. lia.
  - intros [-> Hlt]. exists i. split; [|done]. apply lookup_seq. lia.
Qed.

Lemma range_length (n : Z) : length (range n) = Z.to_nat n.
Proof. unfold range. by rewrite length_map, length_seq. Qed.

(** X14: [grid_layout] fails with [ZeroDivisionError] exactly when asked
    for zero rows or zero columns; for every other pair of counts it
    returns. *)
Theorem grid_layout_zero_division (container : UIRect.t) (rows cols spacing : Z) :
  (exists e, grid_layout container rows cols spacing = Raised e
             /\ exn_type e = ZeroDivisionError)
  <-> rows = 0 \/ cols = 0.
Proof.
  unfold grid_layout, floordiv, mbind, outcome_mbind, outcome_bind.
  destruct (Z.eqb_spec cols 0) as [->|Hcols].
  { split; [by right|]. intros _. by eexists. }
  destruct (Z.eqb_spec rows 0) as [->|Hrows].
  { split; [by left|]. intros _. by eexists. }
  split; [by intros (e & He & _) | lia].
Qed.

(** X15: for positive counts and a spacing that is not negative and leaves
    room for the gaps, [grid_layout] returns [rows] rows of [cols] cells of
    one common, non-negative size; every cell lies inside the container;
    a cell starts [spacing] after the right edge of its left neighbour and
    [spacing] below the bottom edge of its upper neighbour. *)
Theorem grid_layout_cells (container : UIRect.t) (rows cols spacing : Z) :
  0 < rows -> 0 < cols -> 0 <= spacing ->
  spacing * (cols - 1) <= UIRect.width container ->
  spacing * (rows - 1) <= UIRect.height container ->
  exists grid,
    grid_layout container rows cols spacing = Returned grid
    /\ length grid = Z.to_nat rows
    /\ (forall i row, grid !! i = Some row -> length row = Z.to_nat cols)
    /\ (forall i j row cell, grid !! i = Some row -> row !! j = Some cell ->
          0 <= UIRect.width cell /\ 0 <= UIRect.height cell
          /\ UIRect.x container <= UIRect.x cell
          /\ UIRect.right cell <= UIRect.right container
          /\ UIRect.y container <= UIRect.y cell
          /\ UIRect.bottom cell <= UIRect.bottom container)
    /\ (forall i j row a b, grid !! i = Some row ->
          row !! j = Some a -> row !! S j = Some b ->
          UIRect.x b = UIRect.right a + spacing)
    /\ (forall i j row row' a b, grid !! i = Some row -> grid !! S i = Some row' ->
          row !! j = Some a -> row' !! j = Some b ->
          UIRect.y b = UIRect.bottom a + spacing).
Proof.
  intros Hrows Hcols Hspacing Hwide Hhigh.
  unfold grid_layout, floordiv, mbind, outcome_mbind, outcome_bind, mret, outcome_ret.
  destruct (Z.eqb_spec cols 0) as [->|_]; [lia|].
  destruct (Z.eqb_spec rows 0) as [->|_]; [lia|].
  set (cw := (UIRect.width container - spacing * (cols - 1)) `div` cols).
  set (ch := (UIRect.height container - spacing * (rows - 1)) `div` rows).
  assert (Hcw : 0 <= cw) by (apply Z.div_pos; lia).
  assert (Hch : 0 <= ch) by (apply Z.div_pos; lia).
  assert (Hcw' : cols * cw <= UIRect.width container - spacing * (cols - 1))
    by (apply Z.mul_div_le; lia).
  assert (Hch' : rows * ch <= UIRect.height container - spacing * (rows - 1))
    by (apply Z.mul_div_le; lia).
  eexists. split; [reflexivity|].
  assert (Hcell : forall i j row cell,
            map (fun row =>
                   map (fun col =>
                          UIRect.mk (UIRect.x container + col * (cw + spacing))
                            (UIRect.y container + row * (ch + spacing)) cw ch)
                     (range cols)) (range rows) !! i = Some row ->
            row !! j = Some cell ->
            (Z.of_nat i < rows)%Z /\ (Z.of_nat j < cols)%Z
            /\ cell = UIRect.mk (UIRect.x container + Z.of_nat j * (cw + spacing))
                        (UIRect.y container + Z.of_nat i * (ch + spacing)) cw ch).
  { intros i j row cell Hrow Hcell.
    rewrite list_lookup_fmap, fmap_Some in Hrow.
    destruct Hrow as (r & [-> Hr]%range_lookup & ->).
    rewrite list_lookup_fmap, fmap_Some in Hcell.
    by destruct Hcell as (k & [-> Hk]%range_lookup & ->). }
  split_and!.
  - by rewrite length_map, range_length.
  - intros i row Hrow. rewrite list_lookup_fmap, fmap_Some in Hrow.
    destruct Hrow as (r & _ & ->). by rewrite length_map, range_length.
  - intros i j row cell Hrow Hc.
    destruct (Hcell i j row cell Hrow Hc) as (Hi & Hj & ->).
    unfold UIRect.right, UIRect.bottom. simpl. split_and!; nia.
  - intros i j row a b Hrow Ha Hb.
    destruct (Hcell i j row a Hrow Ha) as (_ & _ & ->).
    destruct (Hcell i (S j) row b Hrow Hb) as (_ & _ & ->).
    unfold UIRect.right. simpl. lia.
  - intros i j row row' a b Hrow Hrow' Ha Hb.
    destruct (Hcell i j row a Hrow Ha) as (_ & _ & ->).
    destruct (Hcell (S i) j row' b Hrow' Hb) as (_ & _ & ->).
    unfold UIRect.bottom. simpl. lia.
Qed.

Lemma grid_layout_cells_witness :
  exists grid,
    grid_layout (UIRect.mk 0 0 400 300) 2 3 10 = Returned grid
    /\ length grid = Z.to_nat 2
    /\ (forall i row, grid !! i = Some row -> length row = Z.to_nat 3)
    /\ (forall i j row cell, grid !! i = Some row -> row !! j = Some cell ->
          0 <= UIRect.width cell /\ 0 <= UIRect.height cell
          /\ UIRect.x (UIRect.mk 0 0 400 300) <= UIRect.x cell
          /\ UIRect.right cell <= UIRect.right (UIRect.mk 0 0 400 300)
          /\ UIRect.y (UIRect.mk 0 0 400 300) <= UIRect.y cell
          /\ UIRect.bottom cell <= UIRect.bottom (UIRect.mk 0 0 400 300))
    /\ (forall i j row a b, grid !! i = Some row ->
          row !! j = Some a -> row !! S j = Some b ->
          UIRect.x b = UIRect.right a + 10)
    /\ (forall i j row row' a b, grid !! i = Some row -> grid !! S i = Some row' ->
          row !! j = Some a -> row' !! j = Some b ->
          UIRect.y b = UIRect.bottom a + 10).
Proof.
  apply (grid_layout_cells (UIRect.mk 0 0 400 300) 2 3 10); simpl; lia.
Defined.

Example grid_layout_test_values :
  grid_layout (UIRect.mk 0 0 400 300) 2 3 10
  = Returned [[UIRect.mk 0 0 126 145; UIRect.mk 136 0 126 145; UIRect.mk 272 0 126 145];
              [UIRect.mk 0 155 126 145; UIRect.mk 136 155 126 145;
               UIRect.mk 272 155 126 145]].
Proof. vm_compute. reflexivity. Qed.

(** ** Registering handlers *)

(** X16: a handler registered with [on] runs after the handlers already
    registered for that kind on that node (a second time if it was among
    them), provided none of them changes the node's handler list for the
    kind while [emit] runs or ends with an exception outside [Exception];
    and registering it changes the handler list of no other kind and no
    other node. *)
Theorem on_then_emit `{Environment} (w : World) (self : ref) (event : event_key)
    (hd : handler) (a : arguments) :
  let before := default [] (event_handlers (heap (st w) self) !! event) in
  let w1 := mk_world (set_heap (on self event hd (heap (st w))) (st w)) (trace w) in
  (length before < iteration_budget)%nat ->
  (forall hd', hd' ∈ before ++ [hd] -> keeps_handlers_of self event a hd') ->
  (forall hd' s e, hd' ∈ before ++ [hd] -> (call_handler hd' a s).2 = Raised e ->
                   derives_from_Exception (exn_type e) = true) ->
  emit self event a w1
  = (mk_world (handlers_in_order (before ++ [hd]) a (st w1))
       (trace w ++ CallEmit self event
                   :: map (fun hd' => CallHandler hd' a) (before ++ [hd])),
     Returned tt)
  /\ (forall n event', (n, event') <> (self, event) ->
        event_handlers (heap (st w1) n) !! event'
        = event_handlers (heap (st w) n) !! event').
Proof.
  intros before w1 Hbudget Hkeep Hcontained.
  assert (Hnow : handlers_of (st w1) (Some self) event = before ++ [hd]).
  { subst w1. simpl. unfold on. rewrite fn_lookup_alter. simpl.
    by rewrite lookup_insert_eq. }
  split.
  - rewrite emit_all; rewrite Hnow; try done.
    rewrite length_app. simpl. lia.
  - intros n event' Hother. subst w1. simpl. unfold on, alter, fn_alter.
    case_decide as Hn; [|done]. subst n. simpl.
    apply lookup_insert_ne. congruence.
Qed.

Lemma on_then_emit_witness :
  let before :=
    default [] (event_handlers (heap (st wired_world) scenario_button) !! Member CLICK) in
  let w1 :=
    mk_world (set_heap (on scenario_button (Member CLICK) 0%nat (heap (st wired_world)))
                (st wired_world)) (trace wired_world) in
  @emit failing_environment scenario_button (Member CLICK) no_arguments w1
  = (mk_world (@handlers_in_order failing_environment (before ++ [0%nat]) no_arguments
                 (st w1))
       (trace wired_world
        ++ CallEmit scenario_button (Member CLICK)
           :: map (fun hd' => CallHandler hd' no_arguments) (before ++ [0%nat])),
     Returned tt)
  /\ (forall n event', (n, event') <> (scenario_button, Member CLICK) ->
        event_handlers (heap (st w1) n) !! event'
        = event_handlers (heap (st wired_world) n) !! event').
Proof.
  apply (@on_then_emit failing_environment wired_world scenario_button (Member CLICK)
           0%nat no_arguments).
  - vm_compute. lia.
  - intros hd _ s. simpl. by case_decide.
  - intros hd s e _. simpl. case_decide; intros [= <-]; reflexivity.
Defined.

Example on_twice_runs_twice :
  trace (@emit failing_environment scenario_button (Member CLICK) no_arguments
           (mk_world
              (set_heap (on scenario_button (Member CLICK) 0%nat (heap (st wired_world)))
                 (st wired_world)) [])).1
  = [CallEmit scenario_button (Member CLICK); CallHandler 0%nat no_arguments;
     CallHandler 1%nat no_arguments; CallHandler 0%nat no_arguments].
Proof. vm_compute. reflexivity. Qed.

(** Without the proviso the order of calls is another: a handler that
    registers the handler of its own kind while it runs makes [emit] go on
    for as long as it is followed. *)
Example on_within_emit_goes_on :
  forall budget,
    (@emit (regrowing_environment budget) scenario_button (Member CLICK) no_arguments
       (mk_world
          (set_heap (on scenario_button (Member CLICK) 0%nat (heap (st wired_world)))
             (st wired_world)) [])).2
    = Raised unfollowed.
Proof.
  intros budget. unfold emit.
  unfold mbind at 1 2, M_bind at 1 2, log_call at 1, gets at 1. cbn beta iota.
  cbn [st].
  change (event_handlers
            (heap (set_heap (on scenario_button (Member CLICK) 0%nat
                               (heap (st wired_world))) (st wired_world))
               scenario_button) !! Member CLICK)
    with (Some [0%nat; 1%nat; 0%nat]).
  cbv iota. apply regrowing_never_ends. vm_compute. lia.
Qed.

(** ** Input that is not a press *)

Lemma is_press_spec (event : event_key) :
  is_press event = true <-> event = Member CLICK \/ event = Member LONG_PRESS.
Proof.
  unfold is_press. rewrite bool_decide_eq_true, !elem_of_cons, elem_of_nil. tauto.
Qed.

(** X17: an input that is no click and no long press (any other member, or
    a plain string such as the name of a member), or that comes without
    both coordinates, causes no hit test, no focus change and no [emit]:
    [handle_input] does what the current screen's [handle_event] does, and
    nothing at all when there is no current screen. *)
Theorem handle_input_passes_through `{Environment} (w : World) (event : event_key)
    (x y : option Z) (kw : list (string * pyval)) :
  (event <> Member CLICK /\ event <> Member LONG_PRESS) \/ x = None \/ y = None ->
  handle_input event x y kw w
  = match current_screen (manager (st w)) with
    | Some screen => handle_event screen event (mk_arguments [] kw) w
    | None => (w, Returned tt)
    end.
Proof.
  intros Hplain. unfold handle_input.
  unfold mbind at 1, M_bind at 1, gets at 1. cbn beta iota.
  destruct (current_screen (manager (st w))) as [screen|] eqn:Hcur; [|done].
  assert (Hskip : (match x, y with
                   | Some px, Some py =>
                       if is_press event
                       then
                         top ← gets (fun s => root (screen_heap s screen));
                         hit ← reads (fun s => followed_hit_test s top px py);
                         focused ← gets (fun s => focused_component (manager s));
                         (if decide (hit ≠ focused) then
                            emit_if_any focused (Member BLUR) no_arguments;;
                            alter_manager (set_focused_component hit);;
                            focused' ← gets (fun s => focused_component (manager s));
                            emit_if_any focused' (Member FOCUS) no_arguments
                          else mret tt);;
                         emit_if_any hit event (mk_arguments [] kw)
                       else mret tt
                   | _, _ => mret tt
                   end : M unit) = mret tt).
  { destruct x as [px|], y as [py|]; try done.
    destruct (is_press event) eqn:Hpress; [|done].
    apply is_press_spec in Hpress. destruct Hplain as [[? ?]|[?|?]]; try done.
    by destruct Hpress. }
  rewrite Hskip.
  unfold mbind at 1, M_bind at 1, mret at 1, M_ret at 1. cbn beta iota.
  unfold mbind at 1, M_bind at 1, gets at 1. cbn beta iota.
  by rewrite Hcur.
Qed.

Lemma handle_input_passes_through_witness :
  @handle_input idle_environment (Str "click") (Some 160) (Some 120) [] scenario_world
  = match current_screen (manager (st scenario_world)) with
    | Some screen =>
        @handle_event idle_environment screen (Str "click") (mk_arguments [] [])
          scenario_world
    | None => (scenario_world, Returned tt)
    end.
Proof.
  apply (@handle_input_passes_through idle_environment scenario_world (Str "click")
           (Some 160) (Some 120) []).
  left. split; discriminate.
Defined.

Example handle_input_string_click_trace :
  trace (@handle_input idle_environment (Str "click") (Some 30) (Some 20) []
           wired_world).1
  = [CallHandleEvent scenario_screen (Str "click")].
Proof. vm_compute. reflexivity. Qed.

(** ** Switching screens *)

(** X18: switching to a registered name returns normally and makes the
    screen registered under it current and active; the screen that was
    current (if any) becomes the previous one and, unless it is the target
    itself, inactive; [on_exit] of the old screen is called before
    [on_enter] of the new one; no other screen's flag and no node
    changes. *)
Theorem switch_screen_registered (w : World) (screen_name : string)
    (transition : option string) (target : screen_ref) :
  screens (manager (st w)) !! screen_name = Some target ->
  let old := current_screen (manager (st w)) in
  let run := switch_screen screen_name transition w in
  run.2 = Returned tt
  /\ current_screen (manager (st run.1)) = Some target
  /\ previous_screen (manager (st run.1))
     = match old with
       | Some screen => Some screen
       | None => previous_screen (manager (st w))
       end
  /\ is_active (screen_heap (st run.1) target) = true
  /\ (forall screen, screen <> target ->
        is_active (screen_heap (st run.1) screen)
        = if decide (old = Some screen) then false
          else is_active (screen_heap (st w) screen))
  /\ trace run.1
     = trace w
       ++ match old with Some screen => [CallOnExit screen] | None => [] end
       ++ [CallOnEnter target]
  /\ heap (st run.1) = heap (st w).
Proof.
  intros Hknown old run. subst run old.
  cut (forall run, run = switch_screen screen_name transition w ->
         run.2 = Returned tt
         /\ current_screen (manager (st run.1)) = Some target
         /\ previous_screen (manager (st run.1))
            = match current_screen (manager (st w)) with
              | Some screen => Some screen
              | None => previous_screen (manager (st w))
              end
         /\ is_active (screen_heap (st run.1) target) = true
         /\ (forall screen, screen <> target ->
               is_active (screen_heap (st run.1) screen)
               = if decide (current_screen (manager (st w)) = Some screen) then false
                 else is_active (screen_heap (st w) screen))
         /\ trace run.1
            = trace w
              ++ match current_screen (manager (st w)) with
                 | Some screen => [CallOnExit screen]
                 | None => []
                 end
              ++ [CallOnEnter target]
         /\ heap (st run.1) = heap (st w)).
  { intros Hcut. apply (Hcut _ eq_refl). }
  intros run. unfold switch_screen, on_exit, on_enter, _handle_transition.
  run_monad. rewrite Hknown.
  destruct (current_screen (manager (st w))) as [screen|] eqn:Hcur; simpl.
  - destruct transition as [t|]; [destruct (decide (t = ""))|]; simpl;
      intros ->; simpl;
      (split_and!; try done;
       [ unfold alter, fn_alter; by rewrite decide_True
       | intros s Hs; unfold alter, fn_alter; rewrite (decide_False _ _) by done;
         destruct (decide (screen = s)) as [->|Hne];
           [by rewrite !decide_True | rewrite decide_False by congruence; done]
       | by rewrite <- app_assoc ]).
  - destruct transition as [t|]; [destruct (decide (t = ""))|]; simpl;
      intros ->; simpl;
      (split_and!; try done;
       [ unfold alter, fn_alter; by rewrite decide_True
       | intros s Hs; unfold alter, fn_alter; by rewrite decide_False ]).
Qed.

Lemma switch_screen_registered_witness :
  let old := current_screen (manager (st scenario_world)) in
  let run := switch_screen "main" (Some "fade") scenario_world in
  run.2 = Returned tt
  /\ current_screen (manager (st run.1)) = Some scenario_screen
  /\ previous_screen (manager (st run.1))
     = match old with
       | Some screen => Some screen
       | None => previous_screen (manager (st scenario_world))
       end
  /\ is_active (screen_heap (st run.1) scenario_screen) = true
  /\ (forall screen, screen <> scenario_screen ->
        is_active (screen_heap (st run.1) screen)
        = if decide (old = Some screen) then false
          else is_active (screen_heap (st scenario_world) screen))
  /\ trace run.1
     = trace scenario_world
       ++ match old with Some screen => [CallOnExit screen] | None => [] end
       ++ [CallOnEnter scenario_screen]
  /\ heap (st run.1) = heap (st scenario_world).
Proof.
  apply (switch_screen_registered scenario_world "main" (Some "fade") scenario_screen).
  reflexivity.
Defined.

(** X19: [switch_screen] keeps the screens' flags in step with the manager:
    if the screens flagged active are exactly the current one (none when
    there is no current screen), the same holds afterwards, whether or not
    the name is registered. *)
Theorem switch_screen_keeps_single_active (w : World) (screen_name : string)
    (transition : option string) :
  single_active (st w) ->
  single_active (st (switch_screen screen_name transition w).1).
Proof.
  intros Hinv. unfold switch_screen, on_exit, on_enter, _handle_transition.
  run_monad.
  destruct (screens (manager (st w)) !! screen_name) as [target|]; simpl; [|done].
  assert (Hfinal : forall sh m,
            current_screen m = Some target ->
            (forall s, is_active (sh s) = true <-> s = target) ->
            forall out clk raw,
              single_active (mk_state (heap (st w)) sh m out clk raw)).
  { intros sh m Hm Hsh out clk raw s. simpl. rewrite Hm, Hsh. split; congruence. }
  destruct (current_screen (manager (st w))) as [screen|] eqn:Hcur; simpl.
  - assert (Hflags : forall s,
              is_active (alter (set_is_active true) target
                           (alter (set_is_active false) screen (screen_heap (st w))) s)
              = true <-> s = target).
    { intros s. unfold alter, fn_alter.
      destruct (decide (target = s)) as [->|Hne]; [done|].
      destruct (decide (screen = s)) as [->|Hne']; simpl; [split; [done|congruence]|].
      rewrite (Hinv s), Hcur. split; congruence. }
    destruct transition as [t|]; [destruct (decide (t = ""))|]; simpl;
      by apply Hfinal.
  - assert (Hflags : forall s,
              is_active (alter (set_is_active true) target (screen_heap (st w)) s)
              = true <-> s = target).
    { intros s. unfold alter, fn_alter.
      destruct (decide (target = s)) as [->|Hne]; [done|].
      rewrite (Hinv s), Hcur. split; congruence. }
    destruct transition as [t|]; [destruct (decide (t = ""))|]; simpl;
      by apply Hfinal.
Qed.

Lemma boot_state_single_active : single_active boot_state.
Proof. intros screen. simpl. split; discriminate. Qed.

Lemma switch_screen_keeps_single_active_witness :
  single_active (st boot_world)
  /\ single_active (st (switch_screen "main" None boot_world).1).
Proof.
  split; [apply boot_state_single_active|].
  apply (switch_screen_keeps_single_active boot_world "main" None).
  apply boot_state_single_active.
Defined.

(** ** A duration of zero *)

Section KeepsAnimations.
Context `{Environment}.










End KeepsAnimations.


(** With a string for its progress the node fails earlier, and with
    another exception: the progress cannot be advanced. *)
Example update_stalls_on_text_progress :
  let w := (@setattr 2%nat "animation_progress" (PStr "half") stalled_world).1 in
  (@update ticking_environment 5 2%nat 0.5%float w).2
  = Raised unsupported_operand
  /\ exn_type unsupported_operand = TypeError.
Proof. vm_compute. split; reflexivity. Qed.

(** ** The manager's update *)

Lemma UIScreen_update_frame `{Environment} (w : World) (screen : screen_ref)
    (dt : float) (m : ref) :
  ~ visibly_reachable (heap (st w)) (root (screen_heap (st w) screen)) m ->
  same_node (st w) (st (UIScreen_update screen dt w).1) m.
Proof.
  intros Hout. unfold UIScreen_update.
  unfold mbind at 1, M_bind at 1, gets at 1. cbn beta iota.
  unfold mbind at 1, M_bind at 1.
  destruct (initialized (screen_heap (st w) screen)) eqn:Hready.
  - unfold mret at 1, M_ret at 1. cbn beta iota.
    unfold mbind at 1, M_bind at 1, gets at 1. cbn beta iota.
    by apply update_frame.
  - unfold alter_screen at 1, modify at 1. cbn beta iota.
    unfold mbind at 1, M_bind at 1, gets at 1. cbn beta iota.
    match goal with
    | |- same_node _ (st (update _ ?top dt ?w1).1) m =>
        apply (same_node_trans _ (st w1)); [by split | apply update_frame]
    end.
    simpl. unfold alter, fn_alter. by rewrite decide_True.
Qed.

(** X21: [UIManager.update] changes no component outside the visible part
    of the current screen's tree: the components of the other screens, and
    those below a hidden node of the current screen, keep their
    attributes, animation records and animation progress, whichever [dt]
    is given or measured and however the call ends.  (The current screen is
    taken to have been initialised, so that its set-up hook is not run.) *)
Theorem UIManager_update_frame `{Environment} (w : World) (dt : option float)
    (m : ref) :
  (forall screen, current_screen (manager (st w)) = Some screen ->
     initialized (screen_heap (st w) screen) = true
     /\ ~ visibly_reachable (heap (st w)) (root (screen_heap (st w) screen)) m) ->
  heap (st (UIManager_update dt w).1) m = heap (st w) m
  /\ forall name,
       untyped (st (UIManager_update dt w).1) !! (m, name)
       = untyped (st w) !! (m, name).
Proof.
  intros Hout. change (same_node (st w) (st (UIManager_update dt w).1) m).
  unfold UIManager_update.
  unfold mbind at 1, M_bind at 1.
  destruct dt as [given|].
  - unfold mret at 1, M_ret at 1. cbn beta iota.
    unfold mbind at 1, M_bind at 1, gets at 1. cbn beta iota.
    destruct (current_screen (manager (st w))) as [screen|];
      [|apply same_node_refl].
    apply UIScreen_update_frame. by apply Hout.
  - unfold mbind at 1, M_bind at 1, now at 1. cbn beta iota.
    unfold mbind at 1, M_bind at 1, gets at 1. cbn beta iota.
    unfold mbind at 1, M_bind at 1, alter_manager at 1, modify at 1.
    cbn beta iota. unfold mret at 1, M_ret at 1. cbn beta iota.
    unfold mbind at 1, M_bind at 1, gets at 1. cbn beta iota.
    cbn [st manager set_manager set_clock_reads current_screen
         set_last_update_time].
    destruct (current_screen (manager (st w))) as [screen|] eqn:Hcur;
      [|by split].
    match goal with
    | |- same_node _ (st (UIScreen_update screen ?d ?w1).1) m =>
        apply (same_node_trans _ (st w1)); [by split | apply UIScreen_update_frame]
    end.
    simpl. by apply Hout.
Qed.

Lemma UIManager_update_frame_witness :
  heap (st (@UIManager_update late_environment None running_world).1) 3%nat
  = heap (st running_world) 3%nat
  /\ forall name,
       untyped (st (@UIManager_update late_environment None running_world).1)
         !! (3%nat, name)
       = untyped (st running_world) !! (3%nat, name).
Proof.
  apply (@UIManager_update_frame late_environment running_world None 3%nat).
  intros screen _. split; [reflexivity|].
  apply (hidden_subtree_unreachable hidden_heap hidden_tree
           (Node 1%nat [Node 3%nat []]) 3%nat).
  - apply hidden_tree_embedded.
  - compute_done.
  - apply list_elem_of_here.
  - reflexivity.
  - apply list_elem_of_further, list_elem_of_here.
Defined.

Example UIManager_update_measures_elapsed_time :
  let w' := (@UIManager_update late_environment None running_world).1 in
  last_update_time (manager (st w')) = 2%float
  /\ animation_progress (heap (st w') 2%nat) = 0%float
  /\ attrs (heap (st w') 2%nat) !! "value" = Some (PInt 100)
  /\ attrs (heap (st w') 3%nat) !! "value" = Some (PInt 0).
Proof. vm_compute. repeat split. Qed.

(** ** Searching a structure that is no tree *)

Lemma extend_each_raises_only (probe : ref -> outcome (list ref)) (cs : list ref)
    (e : exn) :
  (forall c e', probe c = Raised e' -> e' = recursion_error) ->
  extend_each probe cs = Raised e -> e = recursion_error.
Proof.
  intros Hprobe. induction cs as [|c cs IH]; simpl; [done|].
  destruct (probe c) as [found|e'] eqn:Hc; simpl.
  - destruct (extend_each probe cs) as [more|e'']; simpl; [done|].
    intros [= <-]. by apply IH.
  - intros [= <-]. by eapply Hprobe.
Qed.

Lemma find_by_tag_raises_only (h : ref -> UIComponent) (depth : nat) (n : ref)
    (tag : string) (e : exn) :
  find_by_tag depth h n tag = Raised e -> e = recursion_error.
Proof.
  revert n e. induction depth as [|d IH]; intros n e; simpl; [by intros [= <-]|].
  destruct (extend_each _ _) as [below|e'] eqn:Hloop; simpl; [done|].
  intros [= <-]. eapply extend_each_raises_only; [|exact Hloop].
  intros c e''. apply IH.
Qed.

Lemma extend_each_overflows (probe : ref -> outcome (list ref)) (cs : list ref)
    (c : ref) :
  (forall c' e, probe c' = Raised e -> e = recursion_error) ->
  c ∈ cs -> probe c = Raised recursion_error ->
  extend_each probe cs = Raised recursion_error.
Proof.
  intros Hprobe Hin Hc. induction Hin as [c cs|c c0 cs _ IH]; simpl.
  - by rewrite Hc.
  - destruct (probe c0) as [found|e] eqn:Hc0; simpl.
    + by rewrite IH.
    + by rewrite (Hprobe c0 e Hc0).
Qed.

Lemma find_by_tag_overflow_rises (h : ref -> UIComponent) (d : nat) (n c : ref)
    (tag : string) :
  child_of h n c -> find_by_tag d h c tag = Raised recursion_error ->
  find_by_tag (S d) h n tag = Raised recursion_error.
Proof.
  intros Hchild Hc. cbn [find_by_tag].
  rewrite (extend_each_overflows _ _ c); [done| |done|done].
  intros c' e. apply find_by_tag_raises_only.
Qed.

Lemma find_by_tag_on_cycle (h : ref -> UIComponent) (depth : nat) (n : ref)
    (tag : string) :
  tc (child_of h) n n -> find_by_tag depth h n tag = Raised recursion_error.
Proof.
  revert n. induction depth as [|d IH]; intros n Hcycle; [done|].
  assert (exists c, child_of h n c /\ tc (child_of h) c c) as (c & Hc & Hcc).
  { inversion Hcycle as [? ? Hstep|? c ? Hstep Hrest]; subst.
    - by exists n.
    - exists c. split; [done|]. by eapply tc_r. }
  eapply find_by_tag_overflow_rises; [exact Hc | by apply IH].
Qed.

(** X22: nothing keeps [add_child] from closing a cycle, and
    [find_by_tag] does not look out for one: started at a node from which
    a cycle of child links can be reached, it ends in [RecursionError]
    whatever the recursion limit is, and returns no partial result. *)
Theorem find_by_tag_overflows_on_cycle (h : ref -> UIComponent) (depth : nat)
    (start n : ref) (tag : string) :
  rtc (child_of h) start n -> tc (child_of h) n n ->
  find_by_tag depth h start tag = Raised recursion_error.
Proof.
  intros Hreach Hcycle. revert depth.
  induction Hreach as [n|start c n Hstep _ IH]; intros depth.
  - by apply find_by_tag_on_cycle.
  - destruct depth as [|d]; [done|].
    eapply find_by_tag_overflow_rises; [exact Hstep | by apply IH].
Qed.

Lemma find_by_tag_overflows_on_cycle_witness :
  find_by_tag 1000 looped_heap 0%nat "gauge" = Raised recursion_error.
Proof.
  apply (find_by_tag_overflows_on_cycle looped_heap 1000 0%nat 0%nat "gauge").
  - apply rtc_refl.
  - apply tc_once. unfold child_of. vm_compute. apply list_elem_of_here.
Defined.

(** ** The vertical list *)

Section ListLayout.
Variable rects : ref -> nat.
Variable self : ref.
Variable l : UIList.t.

(** A child whose rectangle is its own. *)
Lemma place_child (h : ref -> UIComponent) (child : ref) (top : Z) :
  child <> self -> (forall n, rects n = rects child -> n = child) ->
  UIList.place rects self child l top h child = list_slot self l h top child
  /\ forall n, n <> child -> UIList.place rects self child l top h n = h n.
Proof.
  intros Hne Hown.
  assert (Hself : rects self <> rects child).
  { intros Heq. apply Hne. symmetry. by apply Hown. }
  unfold UIList.place, write_rect, list_slot. split.
  - repeat case_decide; done.
  - intros n Hn.
    assert (Hother : rects n <> rects child) by (intros Heq; by apply Hn, Hown).
    repeat case_decide; done.
Qed.

Lemma layout_loop_spec (cs : list ref) (top : Z) (h : ref -> UIComponent) :
  NoDup cs -> self ∉ cs ->
  (forall c n, c ∈ cs -> rects n = rects c -> n = c) ->
  (UIList.layout_loop rects self l cs top h).1 = top + sum_of (map (list_row l h) cs)
  /\ (forall n, n ∉ cs -> (UIList.layout_loop rects self l cs top h).2 n = h n)
  /\ (forall i c, cs !! i = Some c ->
        (UIList.layout_loop rects self l cs top h).2 c
        = list_slot self l h (top + sum_of (map (list_row l h) (take i cs))) c).
Proof.
  revert top h. induction cs as [|child cs IH]; intros top h Hnd Hself Hown.
  { simpl. split_and!; [unfold sum_of; simpl; lia | done | done]. }
  apply NoDup_cons in Hnd as [Hfresh Hnd].
  apply not_elem_of_cons in Hself as [Hne Hself].
  destruct (place_child h child top) as [Hchild Hothers]; [done | |].
  { intros n. apply Hown, list_elem_of_here. }
  cbn [UIList.layout_loop].
  set (h' := UIList.place rects self child l top h) in *.
  assert (Hrows : forall cs', child ∉ cs' -> map (list_row l h') cs' = map (list_row l h) cs').
  { intros cs' Hcs'. apply map_ext_in. intros c Hc%list_elem_of_In.
    unfold list_row. rewrite Hothers; [done|]. by intros ->. }
  assert (Hheight : UIRect.height (rect (h' child)) = UIRect.height (rect (h child))).
  { by rewrite Hchild. }
  destruct (IH (top + (UIRect.height (rect (h' child)) + UIList.spacing l)) h'
              Hnd Hself) as (Htop & Hframe & Hplaced).
  { intros c n Hc. apply Hown. by apply list_elem_of_further. }
  split_and!.
  - rewrite Htop, Hrows by done. simpl. rewrite sum_of_cons. unfold list_row at 2.
    rewrite Hheight. lia.
  - intros n [Hn Hrest]%not_elem_of_cons. rewrite Hframe by done. by apply Hothers.
  - intros [|i] c Hc; simpl in Hc.
    + injection Hc as <-. rewrite Hframe by done. rewrite Hchild. simpl.
      change (sum_of []) with 0. unfold list_slot. do 3 f_equal. lia.
    + assert (Hcin : c ∈ cs) by (by eapply list_elem_of_lookup_2).
      assert (Hc_ne : c <> child) by (by intros ->).
      rewrite (Hplaced i c Hc). unfold list_slot.
      rewrite !(Hothers self) by done. rewrite (Hothers c) by done.
      simpl. rewrite sum_of_cons.
      rewrite Hrows.
      2:{ intros Hin. apply Hfresh. by apply (subseteq_take i cs). }
      unfold list_row at 2. rewrite Hheight. do 3 f_equal. lia.
Qed.

(** X23: where every child holds a [UIRect] that no other component
    holds, [UIList._update_layout] stacks the children in list order below
    the list's own top edge shifted by the scroll offset: the first child
    starts there, every other child [spacing] below the bottom of the one
    before; all children get the list's left edge plus the padding and the
    list's width less twice the padding, and keep their heights; nothing
    else changes; [max_scroll] becomes the amount by which the rows (each
    child's height plus [spacing]) exceed the list's height, or zero.
    (No child occurs twice and the list is not its own child.) *)
Theorem UIList_update_layout_stacks (h : ref -> UIComponent) :
  let cs := children (h self) in
  let run := UIList._update_layout rects self l h in
  NoDup cs -> self ∉ cs ->
  (forall c n, c ∈ cs -> rects n = rects c -> n = c) ->
  (forall c, c ∈ cs ->
     UIRect.x (rect (run.2 c)) = UIRect.x (rect (h self)) + UIList.padding l
     /\ UIRect.width (rect (run.2 c))
        = UIRect.width (rect (h self)) - UIList.padding l * 2
     /\ UIRect.height (rect (run.2 c)) = UIRect.height (rect (h c)))
  /\ (forall c, head cs = Some c ->
        UIRect.y (rect (run.2 c)) = UIRect.y (rect (h self)) + UIList.scroll_offset l)
  /\ (forall i a b, cs !! i = Some a -> cs !! S i = Some b ->
        UIRect.y (rect (run.2 b)) = UIRect.bottom (rect (run.2 a)) + UIList.spacing l)
  /\ (forall n, n ∉ cs -> run.2 n = h n)
  /\ run.1
     = UIList.set_max_scroll
         (Z.max 0
            (sum_of (map (fun c => UIRect.height (rect (h c)) + UIList.spacing l) cs)
             - UIRect.height (rect (h self))))
         l.
Proof.
  intros cs run Hnd Hself Hown. subst run. unfold UIList._update_layout. fold cs.
  destruct (layout_loop_spec cs (UIList.scroll_offset l) h Hnd Hself Hown)
    as (Htop & Hframe & Hplaced).
  destruct (UIList.layout_loop rects self l cs (UIList.scroll_offset l) h)
    as [current_y h'] eqn:Hloop.
  simpl in Htop, Hframe, Hplaced. cbn [fst snd].
  split_and!.
  - intros c Hc. apply list_elem_of_lookup_1 in Hc as [i Hi].
    by rewrite (Hplaced i c Hi).
  - intros c Hc. rewrite head_lookup in Hc. rewrite (Hplaced 0%nat c Hc).
    simpl. change (sum_of []) with 0. lia.
  - intros i a b Ha Hb. rewrite (Hplaced i a Ha), (Hplaced (S i) b Hb).
    unfold list_slot, UIRect.bottom. simpl.
    rewrite (take_S_r cs i a Ha), map_app, sum_of_app. simpl.
    change (sum_of [list_row l h a]) with (0 + list_row l h a).
    unfold list_row at 2. lia.
  - done.
  - rewrite Hframe by done. rewrite Htop. f_equal. f_equal. unfold list_row. lia.
Qed.

End ListLayout.

Lemma UIList_update_layout_stacks_witness :
  let h := add_child 0%nat 2%nat (add_child 0%nat 1%nat list_heap) in
  let cs := children (h 0%nat) in
  let run := UIList._update_layout own_rects 0%nat list_fields h in
  (forall c, c ∈ cs ->
     UIRect.x (rect (run.2 c))
     = UIRect.x (rect (h 0%nat)) + UIList.padding list_fields
     /\ UIRect.width (rect (run.2 c))
        = UIRect.width (rect (h 0%nat)) - UIList.padding list_fields * 2
     /\ UIRect.height (rect (run.2 c)) = UIRect.height (rect (h c)))
  /\ (forall c, head cs = Some c ->
        UIRect.y (rect (run.2 c))
        = UIRect.y (rect (h 0%nat)) + UIList.scroll_offset list_fields)
  /\ (forall i a b, cs !! i = Some a -> cs !! S i = Some b ->
        UIRect.y (rect (run.2 b))
        = UIRect.bottom (rect (run.2 a)) + UIList.spacing list_fields)
  /\ (forall n, n ∉ cs -> run.2 n = h n)
  /\ run.1
     = UIList.set_max_scroll
         (Z.max 0
            (sum_of (map (fun c => UIRect.height (rect (h c))
                                   + UIList.spacing list_fields) cs)
             - UIRect.height (rect (h 0%nat))))
         list_fields.
Proof.
  apply (UIList_update_layout_stacks own_rects 0%nat list_fields
           (add_child 0%nat 2%nat (add_child 0%nat 1%nat list_heap))).
  - compute_done.
  - compute_done.
  - by intros c n _.
Defined.

Example UIList_add_child_positions :
  let first := UIList.add_child own_rects 0%nat 1%nat list_fields list_heap in
  let second := UIList.add_child own_rects 0%nat 2%nat first.1 first.2 in
  rect (second.2 1%nat) = UIRect.mk 5 100 190 30
  /\ rect (second.2 2%nat) = UIRect.mk 5 140 190 40
  /\ UIList.max_scroll second.1 = 0
  /\ parent (second.2 2%nat) = Some 0%nat.
Proof. vm_compute. repeat split. Qed.

(** Two items built from one [UIRect] are not stacked: both end where the
    second was put. *)
Example UIList_items_sharing_a_rectangle :
  let h := <[2%nat := set_rect (rect (list_heap 1%nat)) (list_heap 2%nat)]> list_heap in
  let first := UIList.add_child items_share_rect 0%nat 1%nat list_fields h in
  let second := UIList.add_child items_share_rect 0%nat 2%nat first.1 first.2 in
  rect (second.2 1%nat) = UIRect.mk 5 140 190 30
  /\ rect (second.2 2%nat) = UIRect.mk 5 140 190 30
  /\ rect (second.2 0%nat) = UIRect.mk 0 100 200 120
  /\ UIList.max_scroll second.1 = 0.
Proof. vm_compute. repeat split. Qed.

(** An item built from the list's own [UIRect] moves the list with it. *)
Example UIList_sharing_its_rectangle :
  let h := <[1%nat := set_rect (rect (list_heap 0%nat)) (list_heap 1%nat)]> list_heap in
  let first := UIList.add_child list_shares_rect 0%nat 1%nat list_fields h in
  let second := UIList.add_child list_shares_rect 0%nat 2%nat first.1 first.2 in
  rect (second.2 0%nat) = UIRect.mk 10 100 180 120
  /\ rect (second.2 1%nat) = UIRect.mk 10 100 180 120
  /\ rect (second.2 2%nat) = UIRect.mk 15 230 170 40
  /\ UIList.max_scroll second.1 = 60.
Proof. vm_compute. repeat split. Qed.

(** ** The graph's data window *)

Lemma add_data_point_step {A} (data : list A) (max_points : Z) (value : A) :
  (length data <= Z.to_nat max_points)%nat ->
  add_data_point data max_points value
  = drop (length (data ++ [value]) - Z.to_nat max_points) (data ++ [value]).
Proof.
  intros Hfits. unfold add_data_point. rewrite length_app. simpl.
  destruct (Z.ltb_spec max_points (Z.of_nat (length data + 1))) as [Hfull|Hroom].
  - replace (length data + 1 - Z.to_nat max_points)%nat with 1%nat by lia.
    by destruct (data ++ [value]).
  - by replace (length data + 1 - Z.to_nat max_points)%nat with 0%nat by lia.
Qed.

Lemma drop_excess_app {A} (m : nat) (l k : list A) :
  drop (length (drop (length l - m) l ++ k) - m) (drop (length l - m) l ++ k)
  = drop (length (l ++ k) - m) (l ++ k).
Proof.
  destruct (decide (length l <= m)%nat) as [Hshort|Hlong].
  - replace (length l - m)%nat with 0%nat by lia. done.
  - rewrite !length_app, length_drop.
    replace (length l - (length l - m) + length k - m)%nat with (length k) by lia.
    replace (length l + length k - m)%nat with ((length l - m) + length k)%nat by lia.
    rewrite <- (drop_drop (l ++ k)). f_equal.
    rewrite drop_app_le by lia. done.
Qed.

(** X24: fed to a list that is not longer than [max_points], a series of
    data points leaves the latest [max_points] points of the list followed
    by the series, oldest first (all of them while they are fewer, none
    when [max_points] is zero or negative). *)
Theorem add_data_point_window {A} (data values : list A) (max_points : Z) :
  (length data <= Z.to_nat max_points)%nat ->
  foldl (fun points value => add_data_point points max_points value) data values
  = drop (length (data ++ values) - Z.to_nat max_points) (data ++ values).
Proof.
  revert data. induction values as [|value values IH]; intros data Hfits.
  - simpl. rewrite app_nil_r.
    by replace (length data - Z.to_nat max_points)%nat with 0%nat by lia.
  - cbn [foldl]. rewrite IH.
    + rewrite add_data_point_step by done. rewrite drop_excess_app.
      by rewrite <- app_assoc.
    + rewrite add_data_point_step by done. rewrite length_drop, length_app.
      simpl. lia.
Qed.

Lemma add_data_point_window_witness :
  foldl (fun points value => add_data_point points 3 value) [1; 2] [3; 4; 5]
  = drop (length ([1; 2] ++ [3; 4; 5]) - Z.to_nat 3) ([1; 2] ++ [3; 4; 5]).
Proof.
  apply (add_data_point_window [1; 2] [3; 4; 5] 3). simpl. lia.
Defined.

(** X25: [add_data_point] lengthens the list by one while it is shorter
    than [max_points]; otherwise it drops the oldest point and the length
    stays what it was, so a list that starts out longer than [max_points]
    is never cut down to it. *)
Theorem add_data_point_length {A} (data : list A) (max_points : Z) (value : A) :
  length (add_data_point data max_points value)
  = if (Z.of_nat (length data) <? max_points)%Z then S (length data)
    else length data.
Proof.
  unfold add_data_point.
  destruct (Z.ltb_spec max_points (Z.of_nat (length (data ++ [value]))))
    as [Hfull|Hroom];
    rewrite length_app in *; simpl in *.
  - destruct (Z.ltb_spec (Z.of_nat (length data)) max_points); [lia|].
    destruct data; simpl; [done|]. rewrite length_app. simpl. lia.
  - destruct (Z.ltb_spec (Z.of_nat (length data)) max_points); lia.
Qed.

(** ** The grid's items *)






Example grid_item_is_placed_but_not_found :
  let run := UIGrid.add_item own_rects 0%nat 1%nat grid_fields grid_heap in
  match run.2 with
  | Returned h' =>
      rect (h' 1%nat) = UIRect.mk 0 0 100 50
      /\ find_by_id 10 h' 0%nat "tile" = Returned None
      /\ hit_test 10 h' 0%nat 5 5 = Returned (Some 0%nat)
  | Raised _ => False
  end.
Proof. vm_compute. repeat split. Qed.

(** An item built from the grid's own [UIRect] resizes the grid, and the
    next item is laid out in the grid as resized. *)
Example grid_item_sharing_the_grid_rectangle :
  let h := <[2%nat := new_component (UIRect.mk 3 3 50 30) "next" true true 0]>
             (<[1%nat := set_rect (rect (grid_heap 0%nat)) (grid_heap 1%nat)]>
                grid_heap) in
  let first := UIGrid.add_item list_shares_rect 0%nat 1%nat grid_fields h in
  match first.2 with
  | Returned h1 =>
      rect (h1 0%nat) = UIRect.mk 0 0 100 50
      /\ match (UIGrid.add_item list_shares_rect 0%nat 2%nat first.1 h1).2 with
         | Returned h2 =>
             rect (h2 0%nat) = UIRect.mk 0 0 45 50
             /\ rect (h2 1%nat) = UIRect.mk 0 0 45 50
             /\ rect (h2 2%nat) = UIRect.mk 55 0 45 50
         | Raised _ => False
         end
  | Raised _ => False
  end.
Proof. vm_compute. repeat split. Qed.

(** ** Enough budget *)

Lemma sorted_child_subtree (h : ref -> UIComponent) (n : ref) (ts : list tree)
    (c : ref) (d : nat) :
  embeds h (Node n ts) -> (length (tree_nodes (Node n ts)) <= S d)%nat ->
  c ∈ sorted_by_key (fun c => z_index (h c)) (children (h n)) ->
  exists sub, tree_root sub = c /\ embeds h sub /\ (length (tree_nodes sub) <= d)%nat.
Proof.
  intros Hemb Hlen Hc. inversion Hemb as [? ? Hkids Hsubs]; subst.
  apply elem_of_sorted_by_key in Hc. rewrite Hkids in Hc.
  destruct (elem_of_map_tree_root c ts Hc) as (sub & Hsub & <-).
  exists sub. split_and!; [done | by apply Hsubs | by eapply subtree_smaller].
Qed.

Lemma first_hit_returns (probe : ref -> outcome (option ref)) (self : ref)
    (cs : list ref) :
  (forall c, c ∈ cs -> exists r, probe c = Returned r) ->
  exists r, first_hit probe self cs = Returned r.
Proof.
  induction cs as [|c cs IH]; intros Hall; simpl; [by eexists|].
  destruct (Hall c) as [[r|] ->]; [apply list_elem_of_here|by eexists|].
  apply IH. intros c' Hc'. apply Hall. by apply list_elem_of_further.
Qed.

Lemma render_each_completes (paint : ref -> list ref * outcome unit) (cs : list ref) :
  (forall c, c ∈ cs -> (paint c).2 = Returned tt) ->
  (render_each paint cs).2 = Returned tt.
Proof.
  induction cs as [|c cs IH]; intros Hall; simpl; [done|].
  pose proof (Hall c (list_elem_of_here _ _)) as Hc.
  destruct (paint c) as [drawn r]. simpl in Hc. subst r.
  specialize (IH (fun c' Hc' => Hall c' (list_elem_of_further _ _ _ Hc'))).
  by destruct (render_each paint cs).
Qed.

(** X27: on a component tree, a recursion budget of at least the number of
    nodes is enough for [hit_test] and for [render]: both return, whatever
    the point and whatever the nodes' flags and rectangles. *)
Theorem tree_walks_return (h : ref -> UIComponent) (t : tree) (depth : nat)
    (px py : Z) :
  embeds h t -> (length (tree_nodes t) <= depth)%nat ->
  (exists r, hit_test depth h (tree_root t) px py = Returned r)
  /\ (render depth h (tree_root t)).2 = Returned tt.
Proof.
  revert t. induction depth as [|d IH]; intros t Hemb Hlen.
  { destruct t. simpl in Hlen. lia. }
  destruct t as [n ts]. cbn [tree_root]. split.
  - cbn [hit_test]. destruct (negb _ || negb _); [by eexists|].
    destruct (UIRect.contains _ _ _); [|by eexists].
    apply first_hit_returns. intros c Hc. apply (proj1 (elem_of_rev _ _)) in Hc.
    destruct (sorted_child_subtree h n ts c d Hemb Hlen Hc) as (sub & <- & Hsub & Hsize).
    by apply IH.
  - cbn [render]. destruct (negb (visible (h n))); [done|].
    pose proof (render_each_completes
                  (fun child =>
                     if visible (h child) then render d h child else ([], Returned tt))
                  (sorted_by_key (fun c => z_index (h c)) (children (h n)))) as Hloop.
    destruct (render_each _ _) as [drawn r]. simpl in *. apply Hloop.
    intros c Hc. destruct (visible (h c)); [|done].
    destruct (sorted_child_subtree h n ts c d Hemb Hlen Hc) as (sub & <- & Hsub & Hsize).
    by apply IH.
Qed.

Lemma tree_walks_return_witness :
  (exists r, hit_test 4 hidden_heap (tree_root hidden_tree) 5 5 = Returned r)
  /\ (render 4 hidden_heap (tree_root hidden_tree)).2 = Returned tt.
Proof.
  apply (tree_walks_return hidden_heap hidden_tree 4 5 5).
  - apply hidden_tree_embedded.
  - vm_compute. lia.
Defined.

Lemma first_hit_mono (probe probe' : ref -> outcome (option ref)) (self : ref)
    (cs : list ref) (r : option ref) :
  (forall c r', probe c = Returned r' -> probe' c = Returned r') ->
  first_hit probe self cs = Returned r -> first_hit probe' self cs = Returned r.
Proof.
  intros Hmono. induction cs as [|c cs IH]; simpl; [done|].
  destruct (probe c) as [[hit|]|e] eqn:Hc; [| |done].
  - by rewrite (Hmono c _ Hc).
  - by rewrite (Hmono c _ Hc).
Qed.

(** X28: the recursion budget decides only whether [hit_test] overflows:
    an answer obtained within some budget is the answer under every larger
    one. *)
Theorem hit_test_budget_monotone (h : ref -> UIComponent) (self : ref)
    (px py : Z) (d d' : nat) (r : option ref) :
  (d <= d')%nat ->
  hit_test d h self px py = Returned r -> hit_test d' h self px py = Returned r.
Proof.
  revert self d' r. induction d as [|d IH]; intros self d' r Hle; [done|].
  destruct d' as [|d']; [lia|]. cbn [hit_test].
  destruct (negb _ || negb _); [done|].
  destruct (UIRect.contains _ _ _); [|done].
  apply first_hit_mono. intros c r'. apply IH. lia.
Qed.

Lemma hit_test_budget_monotone_witness :
  hit_test 3 nested_heap 0%nat 5 5 = Returned (Some 2%nat)
  /\ hit_test 1000 nested_heap 0%nat 5 5 = Returned (Some 2%nat).
Proof.
  split; [vm_compute; reflexivity|].
  apply (hit_test_budget_monotone nested_heap 0%nat 5 5 3 1000 (Some 2%nat)).
  - lia.
  - vm_compute. reflexivity.
Defined.

(** ** Registering and entering a screen *)

(** X29: a screen that has just been registered can be switched to by its
    name: the call returns normally and that screen - not one registered
    under the same name before - is current and active afterwards, with
    [on_enter] called on it last. *)
Theorem register_then_switch (w : World) (screen : screen_ref)
    (transition : option string) :
  let run :=
    (register_screen screen;;
     switch_screen (name (screen_heap (st w) screen)) transition) w in
  run.2 = Returned tt
  /\ screens (manager (st run.1)) !! name (screen_heap (st w) screen) = Some screen
  /\ current_screen (manager (st run.1)) = Some screen
  /\ is_active (screen_heap (st run.1) screen) = true
  /\ last (trace run.1) = Some (CallOnEnter screen).
Proof.
  intros run. subst run.
  cut (forall run,
         run = (register_screen screen;;
                switch_screen (name (screen_heap (st w) screen)) transition) w ->
         run.2 = Returned tt
         /\ screens (manager (st run.1)) !! name (screen_heap (st w) screen)
            = Some screen
         /\ current_screen (manager (st run.1)) = Some screen
         /\ is_active (screen_heap (st run.1) screen) = true
         /\ last (trace run.1) = Some (CallOnEnter screen)).
  { intros Hcut. apply (Hcut _ eq_refl). }
  intros run.
  unfold register_screen, switch_screen, on_exit, on_enter, _handle_transition.
  run_monad. rewrite lookup_insert_eq. simpl.
  destruct (current_screen (manager (st w))) as [old|];
    (destruct transition as [t|]; [destruct (decide (t = ""))|]); simpl;
    intros ->; simpl;
    (split_and!;
     [ done
     | by rewrite lookup_insert_eq
     | done
     | unfold alter, fn_alter; by rewrite decide_True
     | by rewrite ?last_snoc, ?last_app ]).
Qed.

(** ** The cross axis of a row *)

Lemma foldl_max_spec (first : Z) (others : list Z) :
  max_of first others ∈ first :: others
  /\ forall w, w ∈ first :: others -> w <= max_of first others.
Proof.
  unfold max_of. revert first. induction others as [|b others IH]; intros first.
  { simpl. split; [apply list_elem_of_here|].
    intros w Hw. apply list_elem_of_singleton in Hw as ->. lia. }
  simpl. destruct (IH (Z.max first b)) as [Hin Hmax]. split.
  - apply elem_of_cons in Hin as [Heq|Hin].
    + rewrite Heq. destruct (Z.max_spec first b) as [[_ ->]|[_ ->]].
      * apply list_elem_of_further, list_elem_of_here.
      * apply list_elem_of_here.
    + by do 2 apply list_elem_of_further.
  - intros w Hw.
    assert (Z.max first b <= foldl Z.max (Z.max first b) others)
      by (apply Hmax, list_elem_of_here).
    apply elem_of_cons in Hw as [->|Hw]; [lia|].
    apply elem_of_cons in Hw as [->|Hw]; [lia|].
    by apply Hmax, list_elem_of_further.
Qed.

(** X30: every rectangle of [distribute_horizontal] is as high as the
    container and is placed, vertically, as if its height were the largest
    of the widths: it starts [(height - m) // 2] below the container's top,
    [m] being that largest width.  It therefore lies within the container's
    vertical extent only when [m] is the container's height or one less. *)
Theorem distribute_horizontal_cross_axis (container : UIRect.t) (widths : list Z)
    (spacing : Z) (r : UIRect.t) :
  r ∈ distribute_horizontal container widths spacing ->
  exists m,
    m ∈ widths /\ (forall w, w ∈ widths -> w <= m)
    /\ UIRect.height r = UIRect.height container
    /\ UIRect.y r = UIRect.y container + (UIRect.height container - m) `div` 2
    /\ (UIRect.y container <= UIRect.y r
        /\ UIRect.bottom r <= UIRect.bottom container
        <-> UIRect.height container - 1 <= m <= UIRect.height container).
Proof.
  intros Hr. apply list_elem_of_lookup_1 in Hr as [i Hi].
  rewrite distribute_horizontal_lookup in Hi.
  destruct (widths !! i) as [w|] eqn:Hw; [|done].
  simpl in Hi. injection Hi as <-.
  destruct widths as [|first others]; [done|]. cbn [head tail default].
  destruct (foldl_max_spec first others) as [Hin Hmax].
  exists (max_of first others). split_and!; [done|done|done|done|].
  unfold UIRect.bottom. cbn [UIRect.y UIRect.height]. unfold id.
  pose proof (Z.div_mod (UIRect.height container - max_of first others) 2
                ltac:(lia)).
  pose proof (Z.mod_pos_bound (UIRect.height container - max_of first others) 2
                ltac:(lia)).
  lia.
Qed.

Lemma distribute_horizontal_cross_axis_witness :
  exists m,
    m ∈ [50; 100; 50] /\ (forall w, w ∈ [50; 100; 50] -> w <= m)
    /\ UIRect.height (UIRect.mk 80 100 50 300) = UIRect.height (UIRect.mk 0 0 400 300)
    /\ UIRect.y (UIRect.mk 80 100 50 300)
       = UIRect.y (UIRect.mk 0 0 400 300)
         + (UIRect.height (UIRect.mk 0 0 400 300) - m) `div` 2
    /\ (UIRect.y (UIRect.mk 0 0 400 300) <= UIRect.y (UIRect.mk 80 100 50 300)
        /\ UIRect.bottom (UIRect.mk 80 100 50 300)
           <= UIRect.bottom (UIRect.mk 0 0 400 300)
        <-> UIRect.height (UIRect.mk 0 0 400 300) - 1 <= m
            <= UIRect.height (UIRect.mk 0 0 400 300)).
Proof.
  apply (distribute_horizontal_cross_axis (UIRect.mk 0 0 400 300) [50; 100; 50] 20
           (UIRect.mk 80 100 50 300)).
  vm_compute. apply list_elem_of_here.
Defined.

Example distribute_horizontal_test_values :
  distribute_horizontal (UIRect.mk 0 0 400 300) [50; 100; 50] 20
  = [UIRect.mk 80 100 50 300; UIRect.mk 150 100 100 300; UIRect.mk 270 100 50 300].
Proof. vm_compute. reflexivity. Qed.
